(** * prost-reflect: descriptor handles, name resolution and the dynamic
    message wire codec.

    A shallow embedding of [prost-reflect/src/descriptor/service.rs]
    (service and method descriptor handles) together with the parts of the
    crate that this file relies on but that are not part of the source tree
    here ([parse_name], [parse_namespace], [make_full_name], [TypeMap],
    [FileDescriptor] and the dynamic message codec).  Those are marked
    [Modelled from the spec:] in their doc comments.

    Conventions:
    - a Rust panic is [None] in an [option] result;
    - a Rust [Result<T, E>] is the [result] type below;
    - [usize] indices are [nat];
    - the memory holding the pooled [FileDescriptorInner] values is a
      [gmap loc FileDescriptorInner]: an [Arc<FileDescriptorInner>] or a
      [&FileDescriptorInner] is a location in it. *)

From Stdlib Require Import ZArith Lia Ascii String.
From stdpp Require Import base gmap strings list.

Open Scope string_scope.

(** Rust's [Result]. *)
Inductive result (E A : Type) : Type :=
| Ok (a : A)
| Err (e : E).
Arguments Ok {E A} a.
Arguments Err {E A} e.

Definition result_bind {E A B} (r : result E A) (k : A -> result E B) : result E B :=
  match r with
  | Ok a => k a
  | Err e => Err e
  end.

(** The [?] operator is stdpp's bind [x ← r; k] on [result E]. *)
#[global] Instance result_mbind E : MBind (result E) := fun A B k r => result_bind r k.
#[global] Instance result_mret E : MRet (result E) := fun A a => Ok a.

(** ** Name utilities *)
Module Names.

(** Modelled from the spec: [str::rsplit_once('.')], the split at the last
    separator used by [parse_name] and [parse_namespace] (descriptor/mod.rs,
    not in this source tree). *)
Fixpoint rsplit_once_dot (s : string) : option (string * string) :=
  match s with
  | EmptyString => None
  | String c rest =>
      match rsplit_once_dot rest with
      | Some (a, b) => Some (String c a, b)
      | None => if Ascii.eqb c "."%char then Some (EmptyString, rest) else None
      end
  end.

(** Modelled from the spec: [parse_name] returns the substring after the
    last separator (the whole name when there is none). *)
Definition parse_name (full_name : string) : string :=
  match rsplit_once_dot full_name with
  | Some (_, name) => name
  | None => full_name
  end.

(** Modelled from the spec: [parse_namespace] returns the substring before
    the last separator, the empty string when there is none. *)
Definition parse_namespace (full_name : string) : string :=
  match rsplit_once_dot full_name with
  | Some (namespace, _) => namespace
  | None => ""
  end.

(** Modelled from the spec: [make_full_name] joins a namespace and a local
    name with the separator; an empty namespace adds nothing. *)
Definition make_full_name (namespace name : string) : string :=
  if String.eqb namespace "" then name else namespace +:+ "." +:+ name.

(** A string with no separator in it. *)
Fixpoint no_dot (s : string) : bool :=
  match s with
  | EmptyString => true
  | String c rest => negb (Ascii.eqb c "."%char) && no_dot rest
  end.

End Names.
Import Names.

(** ** Pool memory and file handles *)

Definition loc := positive.
Definition TypeId := nat.

(** Modelled from the spec: the [TypeMap] of the pool maps every full type
    name (without leading separator) to its type id. *)
Definition TypeMap := gmap string TypeId.

(** service.rs: [struct MethodDescriptorInner]. *)
Record MethodDescriptorInner := {
  mdi_full_name : string;
  request_ty : TypeId;
  response_ty : TypeId;
  server_streaming : bool;
  client_streaming : bool;
}.

(** service.rs: [struct ServiceDescriptorInner]. *)
Record ServiceDescriptorInner := {
  sdi_full_name : string;
  sdi_methods : list MethodDescriptorInner;
}.

(** Modelled from the spec: the pooled file state, holding the type map and
    the services in declaration order. *)
Record FileDescriptorInner := {
  fdi_type_map : TypeMap;
  fdi_services : list ServiceDescriptorInner;
}.

Abbreviation heap := (gmap loc FileDescriptorInner).

(** [I: Borrow<FileDescriptorInner>]: every handle type yields the address of
    the [FileDescriptorInner] it points to. *)
Class Borrow (I : Type) := borrow_loc : I -> loc.

(** [Arc<FileDescriptorInner>] and [&FileDescriptorInner]. *)
Record Arc := MkArc { arc_ptr : loc }.
Record Ref := MkRef { ref_ptr : loc }.
#[global] Instance Borrow_Arc : Borrow Arc := arc_ptr.
#[global] Instance Borrow_Ref : Borrow Ref := ref_ptr.

(** Modelled from the spec: [FileDescriptor<I>] is a shared reference to the
    pooled file state. *)
Record FileDescriptor (I : Type) := MkFileDescriptor { fd_inner : I }.

(** service.rs: [struct ServiceDescriptor<I>]. *)
Record ServiceDescriptor (I : Type) := MkServiceDescriptor {
  sd_file : FileDescriptor I;
  sd_index : nat;
}.

(** service.rs: [struct MethodDescriptor<I>]. *)
Record MethodDescriptor (I : Type) := MkMethodDescriptor {
  md_service : ServiceDescriptor I;
  md_index : nat;
}.

Arguments MkFileDescriptor {I} _.
Arguments fd_inner {I} _.
Arguments MkServiceDescriptor {I} _ _.
Arguments sd_file {I} _.
Arguments sd_index {I} _.
Arguments MkMethodDescriptor {I} _ _.
Arguments md_service {I} _.
Arguments md_index {I} _.

Section FileHandles.

Context {I : Type} `{Borrow I}.

(** Modelled from the spec: two file handles are equal iff they address the
    same shared state (identity, not structure). *)
Definition file_eqb (a b : FileDescriptor I) : bool :=
  Pos.eqb (borrow_loc (fd_inner a)) (borrow_loc (fd_inner b)).

(** Modelled from the spec: [FileDescriptor::borrow] reborrows the same
    shared state as a [&FileDescriptorInner]. *)
Definition file_borrow (f : FileDescriptor I) : FileDescriptor Ref :=
  MkFileDescriptor (MkRef (borrow_loc (fd_inner f))).

(** [self.inner.borrow()]: a live [Arc] or reference always points to
    allocated state; a dangling location has no Rust counterpart and is
    reported as [None]. *)
Definition file_inner (h : heap) (f : FileDescriptor I) : option FileDescriptorInner :=
  h !! borrow_loc (fd_inner f).

(** Modelled from the spec: [FileDescriptor::services().len()]. *)
Definition file_services_len (h : heap) (f : FileDescriptor I) : option nat :=
  fi ← file_inner h f; Some (length (fdi_services fi)).

End FileHandles.

(** ** service.rs *)
Section ServiceImpl.

Context {I : Type} `{Borrow I}.

(** [ServiceDescriptor::new]: [debug_assert!(index < services().len())] is
    only evaluated when [debug_assertions] is on. *)
Definition ServiceDescriptor_new (debug_assertions : bool) (h : heap)
    (file_descriptor : FileDescriptor I) (index : nat) : option (ServiceDescriptor I) :=
  if debug_assertions then
    n ← file_services_len h file_descriptor;
    if Nat.ltb index n then Some (MkServiceDescriptor file_descriptor index) else None
  else Some (MkServiceDescriptor file_descriptor index).

Definition ServiceDescriptor_index (s : ServiceDescriptor I) : nat := sd_index s.

Definition ServiceDescriptor_parent_file (s : ServiceDescriptor I) : FileDescriptor I :=
  sd_file s.

(** [ServiceDescriptor::inner]: [services[self.index]], a bounds-checked
    slice index. *)
Definition ServiceDescriptor_inner (h : heap) (s : ServiceDescriptor I)
    : option ServiceDescriptorInner :=
  fi ← file_inner h (ServiceDescriptor_parent_file s);
  fdi_services fi !! sd_index s.

Definition ServiceDescriptor_full_name (h : heap) (s : ServiceDescriptor I) : option string :=
  sdi_full_name <$> ServiceDescriptor_inner h s.

Definition ServiceDescriptor_name (h : heap) (s : ServiceDescriptor I) : option string :=
  parse_name <$> ServiceDescriptor_full_name h s.

Definition ServiceDescriptor_package_name (h : heap) (s : ServiceDescriptor I) : option string :=
  parse_namespace <$> ServiceDescriptor_full_name h s.

(** The iterator returned by [methods]: [(0..len).map(move |index|
    MethodDescriptor { service: this.clone(), index })], a range together
    with the cloned service handle. *)
Record MethodIter := MkMethodIter {
  mit_service : ServiceDescriptor I;
  mit_start : nat;
  mit_end : nat;
}.

(** [Iterator::next] of [Map<Range<usize>, _>]. *)
Definition MethodIter_next (it : MethodIter) : option (MethodDescriptor I * MethodIter) :=
  if Nat.ltb (mit_start it) (mit_end it) then
    Some (MkMethodDescriptor (mit_service it) (mit_start it),
          MkMethodIter (mit_service it) (S (mit_start it)) (mit_end it))
  else None.

(** [ExactSizeIterator::len] of a range. *)
Definition MethodIter_len (it : MethodIter) : nat := mit_end it - mit_start it.

(** Draining an iterator with [collect]; [fuel] bounds the number of
    [next] calls. *)
Fixpoint MethodIter_collect (fuel : nat) (it : MethodIter) : list (MethodDescriptor I) :=
  match fuel with
  | O => []
  | S fuel' =>
      match MethodIter_next it with
      | Some (m, it') => m :: MethodIter_collect fuel' it'
      | None => []
      end
  end.

Definition MethodIter_to_list (it : MethodIter) : list (MethodDescriptor I) :=
  MethodIter_collect (MethodIter_len it) it.

(** [ServiceDescriptor::methods]. *)
Definition ServiceDescriptor_methods (h : heap) (s : ServiceDescriptor I) : option MethodIter :=
  si ← ServiceDescriptor_inner h s;
  Some (MkMethodIter s 0 (length (sdi_methods si))).

(** [PartialEq for ServiceDescriptor]. *)
Definition ServiceDescriptor_eqb (a b : ServiceDescriptor I) : bool :=
  file_eqb (sd_file a) (sd_file b) && Nat.eqb (sd_index a) (sd_index b).

(** [MethodDescriptor::new]. *)
Definition MethodDescriptor_new (debug_assertions : bool) (h : heap)
    (service : ServiceDescriptor I) (index : nat) : option (MethodDescriptor I) :=
  if debug_assertions then
    it ← ServiceDescriptor_methods h service;
    if Nat.ltb index (MethodIter_len it) then Some (MkMethodDescriptor service index) else None
  else Some (MkMethodDescriptor service index).

Definition MethodDescriptor_index (m : MethodDescriptor I) : nat := md_index m.

Definition MethodDescriptor_parent_service (m : MethodDescriptor I) : ServiceDescriptor I :=
  md_service m.

Definition MethodDescriptor_parent_file (m : MethodDescriptor I) : FileDescriptor I :=
  ServiceDescriptor_parent_file (md_service m).

(** [MethodDescriptor::inner]: [self.service.inner().methods[self.index]]. *)
Definition MethodDescriptor_inner (h : heap) (m : MethodDescriptor I)
    : option MethodDescriptorInner :=
  si ← ServiceDescriptor_inner h (md_service m);
  sdi_methods si !! md_index m.

Definition MethodDescriptor_full_name (h : heap) (m : MethodDescriptor I) : option string :=
  mdi_full_name <$> MethodDescriptor_inner h m.

Definition MethodDescriptor_name (h : heap) (m : MethodDescriptor I) : option string :=
  parse_name <$> MethodDescriptor_full_name h m.

(** [MethodDescriptor::input] / [output]: a message handle is the file
    handle together with the resolved type id. *)
Definition MethodDescriptor_input (h : heap) (m : MethodDescriptor I)
    : option (FileDescriptor I * TypeId) :=
  mi ← MethodDescriptor_inner h m; Some (MethodDescriptor_parent_file m, request_ty mi).

Definition MethodDescriptor_output (h : heap) (m : MethodDescriptor I)
    : option (FileDescriptor I * TypeId) :=
  mi ← MethodDescriptor_inner h m; Some (MethodDescriptor_parent_file m, response_ty mi).

Definition MethodDescriptor_is_client_streaming (h : heap) (m : MethodDescriptor I) : option bool :=
  client_streaming <$> MethodDescriptor_inner h m.

Definition MethodDescriptor_is_server_streaming (h : heap) (m : MethodDescriptor I) : option bool :=
  server_streaming <$> MethodDescriptor_inner h m.

(** [PartialEq for MethodDescriptor]. *)
Definition MethodDescriptor_eqb (a b : MethodDescriptor I) : bool :=
  ServiceDescriptor_eqb (md_service a) (md_service b) && Nat.eqb (md_index a) (md_index b).

End ServiceImpl.

Arguments MethodIter I : clear implicits.

(** [ServiceDescriptor::borrow] and [MethodDescriptor::borrow]. *)
Definition ServiceDescriptor_borrow {I} `{Borrow I} (s : ServiceDescriptor I)
    : ServiceDescriptor Ref :=
  MkServiceDescriptor (file_borrow (sd_file s)) (sd_index s).

Definition MethodDescriptor_borrow {I} `{Borrow I} (m : MethodDescriptor I)
    : MethodDescriptor Ref :=
  MkMethodDescriptor (ServiceDescriptor_borrow (md_service m)) (md_index m).

(** ** Type resolution and building service descriptors *)
Module Resolve.

(** Modelled from the spec: the error of a failed pool build. *)
Inductive DescriptorError :=
| TypeNotFound (name : string)
| DuplicateName (name : string).

(** Modelled from the spec: [TypeMap::get_by_name], a direct lookup of a
    full name. *)
Definition get_by_name (tm : TypeMap) (full_name : string) : result DescriptorError TypeId :=
  match tm !! full_name with
  | Some t => Ok t
  | None => Err (TypeNotFound full_name)
  end.

(** Modelled from the spec: the search of a relative name, from the scope
    [namespace] outward, one enclosing scope at a time, down to the root
    (the empty namespace).  [fuel] bounds the number of scopes. *)
Fixpoint resolve_relative (fuel : nat) (tm : TypeMap) (namespace name : string)
    : result DescriptorError TypeId :=
  match tm !! make_full_name namespace name with
  | Some t => Ok t
  | None =>
      if String.eqb namespace "" then Err (TypeNotFound name)
      else match fuel with
           | O => Err (TypeNotFound name)
           | S fuel' => resolve_relative fuel' tm (parse_namespace namespace) name
           end
  end.

(** Modelled from the spec: [TypeMap::resolve_type_name].  A name with a
    leading separator is absolute and looked up directly. *)
Definition resolve_type_name (tm : TypeMap) (namespace name : string)
    : result DescriptorError TypeId :=
  match name with
  | String c rest =>
      if Ascii.eqb c "."%char then get_by_name tm rest
      else resolve_relative (String.length namespace) tm namespace name
  | EmptyString => resolve_relative (String.length namespace) tm namespace name
  end.

(** A name with a leading separator. *)
Definition is_absolute (name : string) : bool :=
  match name with
  | String c _ => Ascii.eqb c "."%char
  | EmptyString => false
  end.

(** The scopes searched for a relative name from [namespace]: the namespace
    itself, then each enclosing scope, ending with the root [""]. *)
Fixpoint enclosing_scopes_aux (fuel : nat) (namespace : string) : list string :=
  namespace ::
    (if String.eqb namespace "" then []
     else match fuel with
          | O => []
          | S fuel' => enclosing_scopes_aux fuel' (parse_namespace namespace)
          end).

Definition enclosing_scopes (namespace : string) : list string :=
  enclosing_scopes_aux (String.length namespace) namespace.

(** The fields of [prost_types::MethodDescriptorProto] that are read, with
    the generated getters returning the default for an unset field. *)
Record MethodDescriptorProto := {
  mp_name : option string;
  mp_input_type : option string;
  mp_output_type : option string;
  mp_client_streaming : option bool;
  mp_server_streaming : option bool;
}.

Record ServiceDescriptorProto := {
  sp_name : option string;
  sp_method : list MethodDescriptorProto;
}.

Record FileDescriptorProto := {
  fp_package : option string;
}.

Definition opt_str (o : option string) : string :=
  match o with Some s => s | None => "" end.
Definition opt_bool (o : option bool) : bool :=
  match o with Some b => b | None => false end.

(** service.rs: [MethodDescriptorInner::from_raw]. *)
Definition MethodDescriptorInner_from_raw (namespace : string) (_raw_file : FileDescriptorProto)
    (_raw_service : ServiceDescriptorProto) (raw_method : MethodDescriptorProto)
    (type_map : TypeMap) : result DescriptorError MethodDescriptorInner :=
  request_ty ← resolve_type_name type_map namespace (opt_str (mp_input_type raw_method));
  response_ty ← resolve_type_name type_map namespace (opt_str (mp_output_type raw_method));
  Ok {| mdi_full_name := make_full_name namespace (opt_str (mp_name raw_method));
        request_ty := request_ty;
        response_ty := response_ty;
        client_streaming := opt_bool (mp_client_streaming raw_method);
        server_streaming := opt_bool (mp_server_streaming raw_method) |}.

(** [.collect::<Result<_, DescriptorError>>()]: the first error wins. *)
Fixpoint collect_results {E A} (l : list (result E A)) : result E (list A) :=
  match l with
  | [] => Ok []
  | r :: rest => a ← r; rest' ← collect_results rest; Ok (a :: rest')
  end.

(** service.rs: [ServiceDescriptorInner::from_raw]. *)
Definition ServiceDescriptorInner_from_raw (raw_file : FileDescriptorProto)
    (raw_service : ServiceDescriptorProto) (type_map : TypeMap)
    : result DescriptorError ServiceDescriptorInner :=
  let full_name := make_full_name (opt_str (fp_package raw_file)) (opt_str (sp_name raw_service)) in
  methods ← collect_results
              (map (fun raw_method =>
                      MethodDescriptorInner_from_raw full_name raw_file raw_service raw_method type_map)
                   (sp_method raw_service));
  Ok {| sdi_full_name := full_name; sdi_methods := methods |}.

End Resolve.

(** ** Wire format *)
Module Wire.

(** Modelled from the spec: the binary wire format of the schema language
    (varint, fixed-width and length-delimited records keyed by field number
    and wire type).  Bytes are [Z] values in [0, 256). *)

(** The decode errors: truncated input, invalid varint, invalid key or wire
    type, a wire type incompatible with the field's kind, invalid UTF-8 in a
    string field.  [FuelExhausted] is never produced with the fuel that
    [decode] supplies. *)
Inductive DecodeError :=
| Truncated
| InvalidVarint
| InvalidKey
| InvalidWireType (wire_type : Z)
| UnexpectedGroup
| WireTypeMismatch (number : Z)
| InvalidString
| UnknownMessage (id : nat)
| FuelExhausted.

Inductive WireType := WVarint | WFixed64 | WLengthDelimited | WStartGroup | WEndGroup | WFixed32.

Definition wire_type_code (wt : WireType) : Z :=
  match wt with
  | WVarint => 0 | WFixed64 => 1 | WLengthDelimited => 2
  | WStartGroup => 3 | WEndGroup => 4 | WFixed32 => 5
  end.

Definition wire_type_of_code (z : Z) : result DecodeError WireType :=
  match z with
  | 0 => Ok WVarint | 1 => Ok WFixed64 | 2 => Ok WLengthDelimited
  | 3 => Ok WStartGroup | 4 => Ok WEndGroup | 5 => Ok WFixed32
  | _ => Err (InvalidWireType z)
  end%Z.

(** [encode_varint]: seven bits per byte, low group first, high bit set on
    every byte but the last.  [n] bounds the number of bytes (10 for a
    64-bit value). *)
Fixpoint encode_varint_aux (n : nat) (v : Z) : list Z :=
  match n with
  | O => []
  | S n' =>
      if (v <? 128)%Z then [v]
      else Z.lor (Z.land v 127) 128 :: encode_varint_aux n' (Z.shiftr v 7)
  end.

Definition encode_varint (v : Z) : list Z := encode_varint_aux 10 v.

(** [decode_varint]: at most ten bytes; the tenth byte may only carry the
    single remaining bit of a 64-bit value. *)
Fixpoint decode_varint_aux (n : nat) (acc shift : Z) (bytes : list Z)
    : result DecodeError (Z * list Z) :=
  match n with
  | O => Err InvalidVarint
  | S n' =>
      match bytes with
      | [] => Err Truncated
      | b :: rest =>
          let acc' := Z.lor acc (Z.shiftl (Z.land b 127) shift) in
          if (b <? 128)%Z then
            if (shift =? 63)%Z && (1 <? b)%Z then Err InvalidVarint else Ok (acc', rest)
          else decode_varint_aux n' acc' (shift + 7) rest
      end
  end.

Definition decode_varint (bytes : list Z) : result DecodeError (Z * list Z) :=
  decode_varint_aux 10 0 0 bytes.

(** Little-endian fixed-width integers of [n] bytes. *)
Fixpoint encode_fixed (n : nat) (v : Z) : list Z :=
  match n with
  | O => []
  | S n' => Z.land v 255 :: encode_fixed n' (Z.shiftr v 8)
  end.

Fixpoint decode_fixed (n : nat) (bytes : list Z) : result DecodeError (Z * list Z) :=
  match n with
  | O => Ok (0%Z, bytes)
  | S n' =>
      match bytes with
      | [] => Err Truncated
      | b :: rest =>
          p ← decode_fixed n' rest;
          Ok (Z.lor b (Z.shiftl p.1 8), p.2)
      end
  end.

(** [encode_key]: the field number shifted left by three, or the wire type. *)
Definition encode_key (number : Z) (wt : WireType) : list Z :=
  encode_varint (Z.lor (Z.shiftl number 3) (wire_type_code wt)).

(** [decode_key]: the key must fit in 32 bits and name a field number of at
    least 1 and a known wire type. *)
Definition decode_key (bytes : list Z) : result DecodeError (Z * WireType * list Z) :=
  p ← decode_varint bytes;
  let '(key, rest) := p in
  if (4294967295 <? key)%Z then Err InvalidKey
  else
    wt ← wire_type_of_code (Z.land key 7);
    let number := Z.shiftr key 3 in
    if (number <? 1)%Z then Err InvalidKey else Ok (number, wt, rest).

(** The payload of one record, by wire type. *)
Inductive Payload :=
| PVarint (v : Z)
| PFixed64 (v : Z)
| PLengthDelimited (bytes : list Z)
| PFixed32 (v : Z).

Definition payload_wire_type (p : Payload) : WireType :=
  match p with
  | PVarint _ => WVarint
  | PFixed64 _ => WFixed64
  | PLengthDelimited _ => WLengthDelimited
  | PFixed32 _ => WFixed32
  end.

(** One record as read from the input: its number, its payload and the exact
    bytes it occupied (tag and payload). *)
Record WireRecord := {
  wr_number : Z;
  wr_payload : Payload;
  wr_raw : list Z;
}.

(** Reading a length prefix and that many bytes. *)
Definition decode_length_delimited (bytes : list Z) : result DecodeError (list Z * list Z) :=
  p ← decode_varint bytes;
  let '(len, rest) := p in
  if (Z.of_nat (length rest) <? len)%Z then Err Truncated
  else Ok (take (Z.to_nat len) rest, drop (Z.to_nat len) rest).

Definition encode_length_delimited (payload : list Z) : list Z :=
  encode_varint (Z.of_nat (length payload)) ++ payload.

(** Reading the payload of a record of a given wire type.  Group records
    are not among the record kinds the spec describes and are rejected. *)
Definition read_payload (wt : WireType) (bytes : list Z) : result DecodeError (Payload * list Z) :=
  match wt with
  | WVarint => p ← decode_varint bytes; Ok (PVarint p.1, p.2)
  | WFixed64 => p ← decode_fixed 8 bytes; Ok (PFixed64 p.1, p.2)
  | WLengthDelimited => p ← decode_length_delimited bytes; Ok (PLengthDelimited p.1, p.2)
  | WFixed32 => p ← decode_fixed 4 bytes; Ok (PFixed32 p.1, p.2)
  | WStartGroup | WEndGroup => Err UnexpectedGroup
  end.

(** Reading one record. *)
Definition read_record (bytes : list Z) : result DecodeError (WireRecord * list Z) :=
  k ← decode_key bytes;
  let '(number, wt, rest) := k in
  pr ← read_payload wt rest;
  let '(payload, rest') := pr in
  Ok ({| wr_number := number; wr_payload := payload;
         wr_raw := take (length bytes - length rest') bytes |}, rest').

(** The bytes of a record. *)
Definition encode_payload (p : Payload) : list Z :=
  match p with
  | PVarint v => encode_varint v
  | PFixed64 v => encode_fixed 8 v
  | PLengthDelimited b => encode_length_delimited b
  | PFixed32 v => encode_fixed 4 v
  end.

Definition encode_record (number : Z) (p : Payload) : list Z :=
  encode_key number (payload_wire_type p) ++ encode_payload p.

(** Well-formed payloads: values in range, lengths that fit a varint. *)
Definition payload_ok (p : Payload) : Prop :=
  match p with
  | PVarint v => (0 <= v < 2 ^ 64)%Z
  | PFixed64 v => (0 <= v < 2 ^ 64)%Z
  | PLengthDelimited b => (Z.of_nat (length b) < 2 ^ 64)%Z
  | PFixed32 v => (0 <= v < 2 ^ 32)%Z
  end.

End Wire.
Import Wire.

(** ** Dynamic messages *)
Module Dynamic.

#[local] Set Warnings "-register-all".
Local Open Scope Z_scope.
Local Open Scope list_scope.

(** Modelled from the spec: the kind of a field, each scalar wire type or a
    reference to a message or enum type of the pool. *)
Inductive Kind :=
| KDouble | KFloat | KInt32 | KInt64 | KUint32 | KUint64 | KSint32 | KSint64
| KFixed32 | KFixed64 | KSfixed32 | KSfixed64 | KBool | KString | KBytes
| KMessage (id : nat)
| KEnum (id : nat).

(** Modelled from the spec: singular, explicit-presence optional, or
    repeated. *)
Inductive Cardinality := Singular | OptionalPresence | Repeated.

(** Modelled from the spec: the derived field descriptor. *)
Record FieldDescriptor := {
  fd_number : Z;
  fd_name : string;
  fd_kind : Kind;
  fd_cardinality : Cardinality;
  fd_oneof : option nat;
}.

(** Modelled from the spec: the derived message descriptor. *)
Record MessageDescriptor := {
  msg_full_name : string;
  msg_fields : list FieldDescriptor;
  msg_is_map_entry : bool;
}.

Record EnumDescriptor := {
  enum_full_name : string;
  enum_values : list (string * Z);
}.

(** The pool: message and enum descriptors indexed by type id. *)
Record Pool := {
  pool_messages : list MessageDescriptor;
  pool_enums : list EnumDescriptor;
}.

(** Modelled from the spec: map keys (integers, bool, string). *)
Inductive MapKey :=
| MKBool (b : bool)
| MKI32 (z : Z)
| MKI64 (z : Z)
| MKU32 (z : Z)
| MKU64 (z : Z)
| MKString (utf8 : list Z).

(** An unrecognised record: its field number and its bytes, tag included,
    exactly as read. *)
Record UnknownField := {
  uf_number : Z;
  uf_raw : list Z;
}.

(** Modelled from the spec: a field value, and a dynamic message bound to a
    message descriptor (by type id) holding its present fields by number
    (in increasing order, as a [BTreeMap]) and its unknown fields in the
    order read.  [f32] and [f64] values are held as their IEEE bit patterns;
    strings as their UTF-8 bytes. *)
Inductive Value :=
| VBool (b : bool)
| VI32 (z : Z)
| VI64 (z : Z)
| VU32 (z : Z)
| VU64 (z : Z)
| VF32 (bits : Z)
| VF64 (bits : Z)
| VString (utf8 : list Z)
| VBytes (b : list Z)
| VEnumNumber (z : Z)
| VMessage (m : DynamicMessage)
| VList (l : list Value)
| VMap (l : list (MapKey * Value))
with DynamicMessage :=
| MkDynamicMessage (desc : nat) (fields : list (Z * Value)) (unknown : list UnknownField).

Definition dm_desc (m : DynamicMessage) : nat :=
  match m with MkDynamicMessage d _ _ => d end.
Definition dm_fields (m : DynamicMessage) : list (Z * Value) :=
  match m with MkDynamicMessage _ f _ => f end.
Definition dm_unknown (m : DynamicMessage) : list UnknownField :=
  match m with MkDynamicMessage _ _ u => u end.

Definition get_message (pool : Pool) (id : nat) : option MessageDescriptor :=
  pool_messages pool !! id.

(** [MessageDescriptor::get_field]: the field with a given number. *)
Definition find_field (md : MessageDescriptor) (number : Z) : option FieldDescriptor :=
  List.find (fun f => Z.eqb (fd_number f) number) (msg_fields md).

(** A map field is a repeated field of a synthetic map-entry message type. *)
Definition is_map (pool : Pool) (fd : FieldDescriptor) : bool :=
  match fd_cardinality fd, fd_kind fd with
  | Repeated, KMessage id =>
      match get_message pool id with Some md => msg_is_map_entry md | None => false end
  | _, _ => false
  end.

(** The entry type of a map field and the kinds of its [key] (number 1) and
    [value] (number 2) fields. *)
Definition map_entry_kinds (pool : Pool) (fd : FieldDescriptor) : option (nat * Kind * Kind) :=
  match fd_kind fd with
  | KMessage id =>
      md ← get_message pool id;
      kf ← find_field md 1;
      vf ← find_field md 2;
      Some (id, fd_kind kf, fd_kind vf)
  | _ => None
  end.

(** Fields with explicit presence: optional fields, singular message fields
    and oneof members. *)
Definition supports_presence (fd : FieldDescriptor) : bool :=
  match fd_cardinality fd with
  | OptionalPresence => true
  | Repeated => false
  | Singular =>
      match fd_kind fd, fd_oneof fd with
      | KMessage _, _ => true
      | _, Some _ => true
      | _, None => false
      end
  end.

(** The first declared enum value is the default. *)
Definition enum_default (pool : Pool) (id : nat) : Z :=
  match pool_enums pool !! id with
  | Some ed => match enum_values ed with (_, n) :: _ => n | [] => 0%Z end
  | None => 0%Z
  end.

(** The default value of a kind. *)
Definition default_value (pool : Pool) (k : Kind) : Value :=
  match k with
  | KDouble => VF64 0 | KFloat => VF32 0
  | KInt32 | KSint32 | KSfixed32 => VI32 0
  | KInt64 | KSint64 | KSfixed64 => VI64 0
  | KUint32 | KFixed32 => VU32 0
  | KUint64 | KFixed64 => VU64 0
  | KBool => VBool false
  | KString => VString []
  | KBytes => VBytes []
  | KEnum id => VEnumNumber (enum_default pool id)
  | KMessage id => VMessage (MkDynamicMessage id [] [])
  end.

Definition field_default (pool : Pool) (fd : FieldDescriptor) : Value :=
  if is_map pool fd then VMap []
  else match fd_cardinality fd with
       | Repeated => VList []
       | _ => default_value pool (fd_kind fd)
       end.

(** IEEE 754 equality on bit patterns, as Rust's [==] on [f32] and [f64]:
    NaN is unequal to everything, [+0.0] equals [-0.0]. *)
Definition f64_is_nan (bits : Z) : bool :=
  Z.eqb (Z.land (Z.shiftr bits 52) 2047) 2047 && negb (Z.eqb (Z.land bits (2 ^ 52 - 1)) 0).
Definition f32_is_nan (bits : Z) : bool :=
  Z.eqb (Z.land (Z.shiftr bits 23) 255) 255 && negb (Z.eqb (Z.land bits (2 ^ 23 - 1)) 0).
Definition f64_eqb (a b : Z) : bool :=
  negb (f64_is_nan a) && negb (f64_is_nan b) &&
  (Z.eqb a b || (Z.eqb (Z.land a (2 ^ 63 - 1)) 0 && Z.eqb (Z.land b (2 ^ 63 - 1)) 0)).
Definition f32_eqb (a b : Z) : bool :=
  negb (f32_is_nan a) && negb (f32_is_nan b) &&
  (Z.eqb a b || (Z.eqb (Z.land a (2 ^ 31 - 1)) 0 && Z.eqb (Z.land b (2 ^ 31 - 1)) 0)).

Fixpoint bytes_eqb (a b : list Z) : bool :=
  match a, b with
  | [], [] => true
  | x :: a', y :: b' => Z.eqb x y && bytes_eqb a' b'
  | _, _ => false
  end.

Definition mapkey_eqb (a b : MapKey) : bool :=
  match a, b with
  | MKBool x, MKBool y => Bool.eqb x y
  | MKI32 x, MKI32 y | MKI64 x, MKI64 y | MKU32 x, MKU32 y | MKU64 x, MKU64 y => Z.eqb x y
  | MKString x, MKString y => bytes_eqb x y
  | _, _ => false
  end.

Definition unknown_eqb (a b : UnknownField) : bool :=
  Z.eqb (uf_number a) (uf_number b) && bytes_eqb (uf_raw a) (uf_raw b).

Fixpoint map_lookup {A} (k : MapKey) (l : list (MapKey * A)) : option A :=
  match l with
  | [] => None
  | (k', v) :: rest => if mapkey_eqb k k' then Some v else map_lookup k rest
  end.

(** The derived [PartialEq] of [Value]: floats compare as IEEE numbers, maps
    as [HashMap]s (same size, every entry found with an equal value), the
    fields of a message as a [BTreeMap], unknown fields as a list. *)
Fixpoint value_eqb (a b : Value) {struct a} : bool :=
  match a, b with
  | VBool x, VBool y => Bool.eqb x y
  | VI32 x, VI32 y | VI64 x, VI64 y | VU32 x, VU32 y | VU64 x, VU64 y => Z.eqb x y
  | VEnumNumber x, VEnumNumber y => Z.eqb x y
  | VF32 x, VF32 y => f32_eqb x y
  | VF64 x, VF64 y => f64_eqb x y
  | VString x, VString y | VBytes x, VBytes y => bytes_eqb x y
  | VMessage (MkDynamicMessage d1 f1 u1), VMessage (MkDynamicMessage d2 f2 u2) =>
      Nat.eqb d1 d2 &&
      (fix go (f1 f2 : list (Z * Value)) : bool :=
         match f1, f2 with
         | [], [] => true
         | (n1, v1) :: r1, (n2, v2) :: r2 => Z.eqb n1 n2 && value_eqb v1 v2 && go r1 r2
         | _, _ => false
         end) f1 f2 &&
      (fix go (u1 u2 : list UnknownField) : bool :=
         match u1, u2 with
         | [], [] => true
         | x :: r1, y :: r2 => unknown_eqb x y && go r1 r2
         | _, _ => false
         end) u1 u2
  | VList l1, VList l2 =>
      (fix go (l1 l2 : list Value) : bool :=
         match l1, l2 with
         | [], [] => true
         | x :: r1, y :: r2 => value_eqb x y && go r1 r2
         | _, _ => false
         end) l1 l2
  | VMap l1, VMap l2 =>
      Nat.eqb (length l1) (length l2) &&
      (fix go (l1 : list (MapKey * Value)) : bool :=
         match l1 with
         | [] => true
         | (k, v) :: r1 =>
             match map_lookup k l2 with
             | Some v2 => value_eqb v v2 && go r1
             | None => false
             end
         end) l1
  | _, _ => false
  end.

(** *** Field access *)

Fixpoint lookup_field (n : Z) (fields : list (Z * Value)) : option Value :=
  match fields with
  | [] => None
  | (n', v) :: rest => if Z.eqb n n' then Some v else lookup_field n rest
  end.

(** [BTreeMap::insert] on the present fields. *)
Fixpoint insert_field (n : Z) (v : Value) (fields : list (Z * Value)) : list (Z * Value) :=
  match fields with
  | [] => [(n, v)]
  | (n', v') :: rest =>
      if Z.ltb n n' then (n, v) :: fields
      else if Z.eqb n n' then (n, v) :: rest
      else (n', v') :: insert_field n v rest
  end.

(** [BTreeMap::remove] on the present fields. *)
Definition remove_field (n : Z) (fields : list (Z * Value)) : list (Z * Value) :=
  List.filter (fun e => negb (Z.eqb e.1 n)) fields.

(** The oneof a field number belongs to. *)
Definition member_oneof (md : MessageDescriptor) (n : Z) : option nat :=
  fd ← find_field md n; fd_oneof fd.

(** Before a oneof member is set, its siblings are cleared. *)
Definition clear_oneof (md : MessageDescriptor) (fd : FieldDescriptor)
    (fields : list (Z * Value)) : list (Z * Value) :=
  match fd_oneof fd with
  | None => fields
  | Some o =>
      List.filter (fun e => Z.eqb e.1 (fd_number fd) || negb (bool_decide (member_oneof md e.1 = Some o)))
        fields
  end.

Definition set_raw (md : MessageDescriptor) (fd : FieldDescriptor) (v : Value)
    (fields : list (Z * Value)) : list (Z * Value) :=
  insert_field (fd_number fd) v (clear_oneof md fd fields).

(** UTF-8 validity of a byte string, as [std::str::from_utf8] checks it. *)
Definition in_range (lo hi b : Z) : bool := Z.leb lo b && Z.leb b hi.

Fixpoint utf8_valid (bytes : list Z) : bool :=
  match bytes with
  | [] => true
  | b1 :: r1 =>
      if in_range 0 127 b1 then utf8_valid r1 else
      match r1 with
      | [] => false
      | b2 :: r2 =>
          if in_range 194 223 b1 then in_range 128 191 b2 && utf8_valid r2 else
          match r2 with
          | [] => false
          | b3 :: r3 =>
              if Z.eqb b1 224 then in_range 160 191 b2 && in_range 128 191 b3 && utf8_valid r3
              else if in_range 225 236 b1 || in_range 238 239 b1 then
                in_range 128 191 b2 && in_range 128 191 b3 && utf8_valid r3
              else if Z.eqb b1 237 then in_range 128 159 b2 && in_range 128 191 b3 && utf8_valid r3
              else
              match r3 with
              | [] => false
              | b4 :: r4 =>
                  if Z.eqb b1 240 then
                    in_range 144 191 b2 && in_range 128 191 b3 && in_range 128 191 b4 && utf8_valid r4
                  else if in_range 241 243 b1 then
                    in_range 128 191 b2 && in_range 128 191 b3 && in_range 128 191 b4 && utf8_valid r4
                  else if Z.eqb b1 244 then
                    in_range 128 143 b2 && in_range 128 191 b3 && in_range 128 191 b4 && utf8_valid r4
                  else false
              end
          end
      end
  end.

Definition is_byte (b : Z) : bool := in_range 0 255 b.

(** [Value::is_valid]: the value's variant matches the kind (a message value
    must be bound to the field's message type). *)
Definition value_is_valid (k : Kind) (v : Value) : bool :=
  match k, v with
  | KDouble, VF64 b => in_range 0 (2 ^ 64 - 1) b
  | KFloat, VF32 b => in_range 0 (2 ^ 32 - 1) b
  | (KInt32 | KSint32 | KSfixed32), VI32 z => in_range (- 2 ^ 31) (2 ^ 31 - 1) z
  | (KInt64 | KSint64 | KSfixed64), VI64 z => in_range (- 2 ^ 63) (2 ^ 63 - 1) z
  | (KUint32 | KFixed32), VU32 z => in_range 0 (2 ^ 32 - 1) z
  | (KUint64 | KFixed64), VU64 z => in_range 0 (2 ^ 64 - 1) z
  | KBool, VBool _ => true
  | KString, VString s => forallb is_byte s && utf8_valid s
  | KBytes, VBytes b => forallb is_byte b
  | KEnum _, VEnumNumber z => in_range (- 2 ^ 31) (2 ^ 31 - 1) z
  | KMessage id, VMessage m => Nat.eqb (dm_desc m) id
  | _, _ => false
  end.

Definition key_value (k : MapKey) : Value :=
  match k with
  | MKBool b => VBool b
  | MKI32 z => VI32 z
  | MKI64 z => VI64 z
  | MKU32 z => VU32 z
  | MKU64 z => VU64 z
  | MKString s => VString s
  end.

Definition value_key (v : Value) : option MapKey :=
  match v with
  | VBool b => Some (MKBool b)
  | VI32 z => Some (MKI32 z)
  | VI64 z => Some (MKI64 z)
  | VU32 z => Some (MKU32 z)
  | VU64 z => Some (MKU64 z)
  | VString s => Some (MKString s)
  | _ => None
  end.

Fixpoint keys_unique (l : list (MapKey * Value)) : bool :=
  match l with
  | [] => true
  | (k, _) :: rest =>
      match map_lookup k rest with None => keys_unique rest | Some _ => false end
  end.

(** [Value::is_valid_for_field]. *)
Definition field_value_valid (pool : Pool) (fd : FieldDescriptor) (v : Value) : bool :=
  if is_map pool fd then
    match map_entry_kinds pool fd, v with
    | Some (_, kk, vk), VMap l =>
        forallb (fun e => value_is_valid kk (key_value e.1) && value_is_valid vk e.2) l &&
        keys_unique l
    | _, _ => false
    end
  else
    match fd_cardinality fd, v with
    | Repeated, VList l => forallb (value_is_valid (fd_kind fd)) l
    | Repeated, _ => false
    | _, _ => value_is_valid (fd_kind fd) v
    end.

(** [Value::is_default_for_field]-based emptiness: a field that encodes to
    nothing. *)
Definition value_is_empty (pool : Pool) (fd : FieldDescriptor) (v : Value) : bool :=
  if is_map pool fd then match v with VMap [] => true | _ => false end
  else match fd_cardinality fd with
       | Repeated => match v with VList [] => true | _ => false end
       | _ => negb (supports_presence fd) && value_eqb v (default_value pool (fd_kind fd))
       end.

Definition entry_is_empty (pool : Pool) (md : MessageDescriptor) (n : Z) (v : Value) : bool :=
  match find_field md n with
  | Some fd => value_is_empty pool fd v
  | None => false
  end.

Inductive SetFieldError := SetFieldNotFound | SetFieldInvalidType.

(** [DynamicMessage::new]. *)
Definition DynamicMessage_new (d : nat) : DynamicMessage := MkDynamicMessage d [] [].

(** [DynamicMessage::try_set_field_by_number]. *)
Definition DynamicMessage_set_field (pool : Pool) (m : DynamicMessage) (number : Z) (v : Value)
    : result SetFieldError DynamicMessage :=
  match m with
  | MkDynamicMessage d fields unknown =>
      match get_message pool d with
      | None => Err SetFieldNotFound
      | Some md =>
          match find_field md number with
          | None => Err SetFieldNotFound
          | Some fd =>
              if field_value_valid pool fd v
              then Ok (MkDynamicMessage d (set_raw md fd v fields) unknown)
              else Err SetFieldInvalidType
          end
      end
  end.

(** [DynamicMessage::clear_field_by_number]. *)
Definition DynamicMessage_clear_field (m : DynamicMessage) (number : Z) : DynamicMessage :=
  match m with
  | MkDynamicMessage d fields unknown => MkDynamicMessage d (remove_field number fields) unknown
  end.

(** [DynamicMessage::has_field_by_number]. *)
Definition DynamicMessage_has_field (pool : Pool) (m : DynamicMessage) (number : Z) : bool :=
  match get_message pool (dm_desc m) with
  | None => false
  | Some md =>
      match find_field md number, lookup_field number (dm_fields m) with
      | Some fd, Some v => supports_presence fd || negb (value_is_empty pool fd v)
      | _, _ => false
      end
  end.

(** [DynamicMessage::get_field_by_number]: absent fields read as their
    default. *)
Definition DynamicMessage_get_field (pool : Pool) (m : DynamicMessage) (number : Z) : option Value :=
  md ← get_message pool (dm_desc m);
  fd ← find_field md number;
  match lookup_field number (dm_fields m) with
  | Some v => Some v
  | None => Some (field_default pool fd)
  end.

(** *** Scalar encoding *)

Definition packable (k : Kind) : bool :=
  match k with KString | KBytes | KMessage _ => false | _ => true end.

Definition kind_wire_type (k : Kind) : WireType :=
  match k with
  | KDouble | KFixed64 | KSfixed64 => WFixed64
  | KFloat | KFixed32 | KSfixed32 => WFixed32
  | KString | KBytes | KMessage _ => WLengthDelimited
  | _ => WVarint
  end.

(** Two's complement truncation to [i32] and [i64]. *)
Definition to_i32 (u : Z) : Z :=
  let x := u mod 2 ^ 32 in if Z.leb (2 ^ 31) x then x - 2 ^ 32 else x.
Definition to_i64 (u : Z) : Z :=
  let x := u mod 2 ^ 64 in if Z.leb (2 ^ 63) x then x - 2 ^ 64 else x.

(** ZigZag encoding of [sint32] and [sint64]. *)
Definition zigzag32 (z : Z) : Z := Z.lxor (Z.shiftl z 1) (Z.shiftr z 31) mod 2 ^ 32.
Definition zigzag64 (z : Z) : Z := Z.lxor (Z.shiftl z 1) (Z.shiftr z 63) mod 2 ^ 64.
Definition unzigzag (n : Z) : Z := Z.lxor (Z.shiftr n 1) (- Z.land n 1).

(** The payload of a scalar or enum value (a negative [int32] or enum is
    sign-extended to ten bytes). *)
Definition scalar_payload (k : Kind) (v : Value) : Payload :=
  match k, v with
  | KInt32, VI32 z | KInt64, VI64 z | KEnum _, VEnumNumber z => PVarint (z mod 2 ^ 64)
  | KUint32, VU32 z | KUint64, VU64 z => PVarint z
  | KSint32, VI32 z => PVarint (zigzag32 z)
  | KSint64, VI64 z => PVarint (zigzag64 z)
  | KBool, VBool b => PVarint (if b then 1 else 0)
  | KFixed32, VU32 z | KFloat, VF32 z => PFixed32 z
  | KSfixed32, VI32 z => PFixed32 (z mod 2 ^ 32)
  | KFixed64, VU64 z | KDouble, VF64 z => PFixed64 z
  | KSfixed64, VI64 z => PFixed64 (z mod 2 ^ 64)
  | KString, VString s | KBytes, VBytes s => PLengthDelimited s
  | _, _ => PLengthDelimited []
  end.

(** Reading a scalar or enum value of field [number] from a payload. *)
Definition decode_scalar (k : Kind) (number : Z) (p : Payload) : result DecodeError Value :=
  match k, p with
  | KInt32, PVarint u => Ok (VI32 (to_i32 u))
  | KInt64, PVarint u => Ok (VI64 (to_i64 u))
  | KUint32, PVarint u => Ok (VU32 (u mod 2 ^ 32))
  | KUint64, PVarint u => Ok (VU64 u)
  | KSint32, PVarint u => Ok (VI32 (unzigzag (u mod 2 ^ 32)))
  | KSint64, PVarint u => Ok (VI64 (unzigzag u))
  | KBool, PVarint u => Ok (VBool (negb (Z.eqb u 0)))
  | KEnum _, PVarint u => Ok (VEnumNumber (to_i32 u))
  | KFixed32, PFixed32 u => Ok (VU32 u)
  | KSfixed32, PFixed32 u => Ok (VI32 (to_i32 u))
  | KFloat, PFixed32 u => Ok (VF32 u)
  | KFixed64, PFixed64 u => Ok (VU64 u)
  | KSfixed64, PFixed64 u => Ok (VI64 (to_i64 u))
  | KDouble, PFixed64 u => Ok (VF64 u)
  | KString, PLengthDelimited b => if utf8_valid b then Ok (VString b) else Err InvalidString
  | KBytes, PLengthDelimited b => Ok (VBytes b)
  | _, _ => Err (WireTypeMismatch number)
  end.

(** Reading one packed element of kind [k]. *)
Definition read_packed_element (k : Kind) (bytes : list Z) : result DecodeError (Payload * list Z) :=
  match kind_wire_type k with
  | WVarint => p ← decode_varint bytes; Ok (PVarint p.1, p.2)
  | WFixed32 => p ← decode_fixed 4 bytes; Ok (PFixed32 p.1, p.2)
  | WFixed64 => p ← decode_fixed 8 bytes; Ok (PFixed64 p.1, p.2)
  | _ => Err Truncated
  end.

(** Reading the elements of a packed repeated field. *)
Fixpoint decode_packed (fuel : nat) (k : Kind) (number : Z) (bytes : list Z)
    : result DecodeError (list Value) :=
  match bytes with
  | [] => Ok []
  | _ =>
      match fuel with
      | O => Err FuelExhausted
      | S fuel' =>
          e ← read_packed_element k bytes;
          let '(p, rest) := e in
          v ← decode_scalar k number p;
          vs ← decode_packed fuel' k number rest;
          Ok (v :: vs)
      end
  end.

(** *** Message encoding *)

(** The records of a map field: one two-field entry message per entry. *)
Fixpoint map_entries_bytes (n : Z) (kk vk : Kind) (vp : Kind -> Value -> Payload)
    (l : list (MapKey * Value)) : list Z :=
  match l with
  | [] => []
  | (key, x) :: l' =>
      encode_record n
        (PLengthDelimited
           (encode_record 1 (scalar_payload kk (key_value key)) ++ encode_record 2 (vp vk x))) ++
      map_entries_bytes n kk vk vp l'
  end.

(** The body of a packed repeated field. *)
Fixpoint packed_bytes (k : Kind) (vp : Kind -> Value -> Payload) (l : list Value) : list Z :=
  match l with
  | [] => []
  | x :: l' => encode_payload (vp k x) ++ packed_bytes k vp l'
  end.

(** The records of an unpacked repeated field. *)
Fixpoint list_bytes (n : Z) (k : Kind) (vp : Kind -> Value -> Payload) (l : list Value) : list Z :=
  match l with
  | [] => []
  | x :: l' => encode_record n (vp k x) ++ list_bytes n k vp l'
  end.

(** The records of one present field. *)
Definition field_bytes (pool : Pool) (vp : Kind -> Value -> Payload) (md : MessageDescriptor)
    (n : Z) (fv : Value) : list Z :=
  match find_field md n with
  | None => []
  | Some fd =>
      if value_is_empty pool fd fv then [] else
      if is_map pool fd then
        match map_entry_kinds pool fd, fv with
        | Some (_, kk, vk), VMap l => map_entries_bytes n kk vk vp l
        | _, _ => []
        end
      else
        match fd_cardinality fd, fv with
        | Repeated, VList l =>
            if packable (fd_kind fd) then encode_record n (PLengthDelimited (packed_bytes (fd_kind fd) vp l))
            else list_bytes n (fd_kind fd) vp l
        | Repeated, _ => []
        | _, _ => encode_record n (vp (fd_kind fd) fv)
        end
  end.

Fixpoint fields_bytes (fb : Z -> Value -> list Z) (fs : list (Z * Value)) : list Z :=
  match fs with
  | [] => []
  | (n, fv) :: rest => fb n fv ++ fields_bytes fb rest
  end.

(** [DynamicMessage::encode]: the present fields in number order, skipping
    fields that encode to nothing; packable repeated fields packed; map
    entries as two-field messages; then the unknown fields' bytes as
    captured. *)
Fixpoint value_payload (pool : Pool) (k : Kind) (v : Value) {struct v} : Payload :=
  match v with
  | VMessage (MkDynamicMessage d fields unknown) =>
      PLengthDelimited
        (match get_message pool d with
         | None => []
         | Some md => fields_bytes (field_bytes pool (value_payload pool) md) fields
         end ++ concat (map uf_raw unknown))
  | _ => scalar_payload k v
  end.

Definition DynamicMessage_encode (pool : Pool) (m : DynamicMessage) : list Z :=
  match value_payload pool (KMessage (dm_desc m)) (VMessage m) with
  | PLengthDelimited b => b
  | _ => []
  end.

(** *** Message decoding *)

(** [HashMap::insert]: a later entry for a key overwrites the earlier one. *)
Fixpoint map_insert (k : MapKey) (v : Value) (l : list (MapKey * Value)) : list (MapKey * Value) :=
  match l with
  | [] => [(k, v)]
  | (k', v') :: rest => if mapkey_eqb k k' then (k, v) :: rest else (k', v') :: map_insert k v rest
  end.

(** Merging one record into a message.  [dec] merges the bytes of an
    embedded message into a message (the recursive call of the decoder).
    Unknown numbers are kept with their bytes; repeated fields append, in
    packed or unpacked form; map entries are read as two-field messages and
    inserted; a singular message field is merged into its present value;
    any other field is set, clearing its oneof siblings. *)
Definition merge_record (dec : DynamicMessage -> list Z -> result DecodeError DynamicMessage)
    (pool : Pool) (r : WireRecord) (m : DynamicMessage) : result DecodeError DynamicMessage :=
  match m with
  | MkDynamicMessage d fields unknown =>
      match get_message pool d with
      | None => Err (UnknownMessage d)
      | Some md =>
          let n := wr_number r in
          match find_field md n with
          | None => Ok (MkDynamicMessage d fields (unknown ++ [{| uf_number := n; uf_raw := wr_raw r |}]))
          | Some fd =>
              if is_map pool fd then
                match map_entry_kinds pool fd, wr_payload r with
                | Some (eid, kk, vk), PLengthDelimited b =>
                    entry ← dec (MkDynamicMessage eid [] []) b;
                    let key_v := match lookup_field 1 (dm_fields entry) with
                                 | Some x => x | None => default_value pool kk end in
                    let val_v := match lookup_field 2 (dm_fields entry) with
                                 | Some x => x | None => default_value pool vk end in
                    match value_key key_v with
                    | None => Err (WireTypeMismatch n)
                    | Some key =>
                        let old := match lookup_field n fields with Some (VMap l) => l | _ => [] end in
                        Ok (MkDynamicMessage d (set_raw md fd (VMap (map_insert key val_v old)) fields) unknown)
                    end
                | _, _ => Err (WireTypeMismatch n)
                end
              else
                match fd_cardinality fd with
                | Repeated =>
                    let old := match lookup_field n fields with Some (VList l) => l | _ => [] end in
                    vs ← match fd_kind fd, wr_payload r with
                         | KMessage id, PLengthDelimited b =>
                             em ← dec (MkDynamicMessage id [] []) b; Ok [VMessage em]
                         | KMessage _, _ => Err (WireTypeMismatch n)
                         | k, PLengthDelimited b =>
                             if packable k then decode_packed (length b) k n b
                             else v ← decode_scalar k n (PLengthDelimited b); Ok [v]
                         | k, p => v ← decode_scalar k n p; Ok [v]
                         end;
                    Ok (MkDynamicMessage d (set_raw md fd (VList (old ++ vs)) fields) unknown)
                | _ =>
                    v ← match fd_kind fd, wr_payload r with
                        | KMessage id, PLengthDelimited b =>
                            let old := match lookup_field n fields with
                                       | Some (VMessage em) => em
                                       | _ => MkDynamicMessage id [] [] end in
                            em ← dec old b; Ok (VMessage em)
                        | KMessage _, _ => Err (WireTypeMismatch n)
                        | k, p => decode_scalar k n p
                        end;
                    Ok (MkDynamicMessage d (set_raw md fd v fields) unknown)
                end
          end
      end
  end.

(** Reading records until the input is exhausted.  [fuel] bounds the
    recursion; every record takes at least one byte. *)
Fixpoint merge_loop (fuel : nat) (pool : Pool) (bytes : list Z) (m : DynamicMessage)
    {struct fuel} : result DecodeError DynamicMessage :=
  match bytes with
  | [] => Ok m
  | _ =>
      match fuel with
      | O => Err FuelExhausted
      | S fuel' =>
          rr ← read_record bytes;
          let '(r, rest) := rr in
          m' ← merge_record (fun em b => merge_loop fuel' pool b em) pool r m;
          merge_loop fuel' pool rest m'
      end
  end.

(** [DynamicMessage::merge] and [DynamicMessage::decode]: the caller
    receives either the whole message or the error. *)
Definition DynamicMessage_merge (pool : Pool) (m : DynamicMessage) (bytes : list Z)
    : result DecodeError DynamicMessage :=
  merge_loop (length bytes) pool bytes m.

Definition DynamicMessage_decode (pool : Pool) (d : nat) (bytes : list Z)
    : result DecodeError DynamicMessage :=
  m ← DynamicMessage_merge pool (DynamicMessage_new d) bytes; Ok m.

(** *** Equality *)

Definition field_is_empty (pool : Pool) (d : nat) (n : Z) (v : Value) : bool :=
  match get_message pool d with
  | Some md => entry_is_empty pool md n v
  | None => false
  end.

Fixpoint normalize_fields (nv : Value -> Value) (is_empty : Z -> Value -> bool)
    (fs : list (Z * Value)) : list (Z * Value) :=
  match fs with
  | [] => []
  | (n, fv) :: rest =>
      if is_empty n fv then normalize_fields nv is_empty rest
      else (n, nv fv) :: normalize_fields nv is_empty rest
  end.

(** Dropping the fields that hold their default without presence (and
    empty repeated and map fields), everywhere in a value. *)
Fixpoint normalize_value (pool : Pool) (v : Value) : Value :=
  match v with
  | VMessage (MkDynamicMessage d fields unknown) =>
      VMessage (MkDynamicMessage d
        (normalize_fields (normalize_value pool) (field_is_empty pool d) fields) unknown)
  | VList l => VList (map (normalize_value pool) l)
  | VMap l => VMap (map (fun '(k, x) => (k, normalize_value pool x)) l)
  | _ => v
  end.

Definition normalize (pool : Pool) (m : DynamicMessage) : DynamicMessage :=
  match normalize_value pool (VMessage m) with VMessage m' => m' | _ => m end.

(** [PartialEq for DynamicMessage]: same descriptor, default-aware field
    comparison and equal unknown fields. *)
Definition DynamicMessage_eqb (pool : Pool) (a b : DynamicMessage) : bool :=
  value_eqb (normalize_value pool (VMessage a)) (normalize_value pool (VMessage b)).

(** *** Well-formed messages and pools *)

(** A captured unknown field holds exactly one record of its number, and that
    number is not declared. *)
Definition unknown_field_ok (md : MessageDescriptor) (u : UnknownField) : bool :=
  match read_record (uf_raw u) with
  | Ok (r, []) =>
      Z.eqb (wr_number r) (uf_number u) &&
      match find_field md (uf_number u) with None => true | Some _ => false end
  | _ => false
  end.

Fixpoint sorted_numbers (fields : list (Z * Value)) : bool :=
  match fields with
  | (n1, _) :: ((n2, _) :: _) as rest => Z.ltb n1 n2 && sorted_numbers rest
  | _ => true
  end.

(** At most one member of each oneof is present. *)
Fixpoint oneof_exclusive (md : MessageDescriptor) (fields : list (Z * Value)) : bool :=
  match fields with
  | [] => true
  | (n, _) :: rest =>
      match member_oneof md n with
      | Some o => forallb (fun e => negb (bool_decide (member_oneof md e.1 = Some o))) rest
      | None => true
      end && oneof_exclusive md rest
  end.

Definition message_local_ok (pool : Pool) (d : nat) (fields : list (Z * Value))
    (unknown : list UnknownField) : bool :=
  match get_message pool d with
  | None => false
  | Some md =>
      sorted_numbers fields &&
      forallb (fun e => match find_field md e.1 with
                        | Some fd => field_value_valid pool fd e.2
                        | None => false end) fields &&
      oneof_exclusive md fields &&
      forallb (unknown_field_ok md) unknown
  end.

(** Every message inside the value is bound to a descriptor of the pool,
    holds valid values for declared fields only, in number order, respects
    its oneofs and holds well-formed unknown fields. *)
Fixpoint value_wf (pool : Pool) (v : Value) : bool :=
  match v with
  | VMessage (MkDynamicMessage d fields unknown) =>
      message_local_ok pool d fields unknown &&
      (fix go (fs : list (Z * Value)) : bool :=
         match fs with [] => true | (_, x) :: rest => value_wf pool x && go rest end) fields
  | VList l =>
      (fix go (l : list Value) : bool :=
         match l with [] => true | x :: rest => value_wf pool x && go rest end) l
  | VMap l =>
      (fix go (l : list (MapKey * Value)) : bool :=
         match l with [] => true | (_, x) :: rest => value_wf pool x && go rest end) l
  | _ => true
  end.

Definition message_wf (pool : Pool) (m : DynamicMessage) : bool := value_wf pool (VMessage m).

(** No NaN float anywhere in the value. *)
Fixpoint value_no_nan (v : Value) : bool :=
  match v with
  | VF64 b => negb (f64_is_nan b)
  | VF32 b => negb (f32_is_nan b)
  | VMessage (MkDynamicMessage _ fields _) =>
      (fix go (fs : list (Z * Value)) : bool :=
         match fs with [] => true | (_, x) :: rest => value_no_nan x && go rest end) fields
  | VList l =>
      (fix go (l : list Value) : bool :=
         match l with [] => true | x :: rest => value_no_nan x && go rest end) l
  | VMap l =>
      (fix go (l : list (MapKey * Value)) : bool :=
         match l with [] => true | (_, x) :: rest => value_no_nan x && go rest end) l
  | _ => true
  end.

(** Every map inside the value has distinct keys. *)
Fixpoint maps_keys_unique (v : Value) : bool :=
  match v with
  | VMessage (MkDynamicMessage _ fields _) =>
      (fix go (fs : list (Z * Value)) : bool :=
         match fs with [] => true | (_, x) :: rest => maps_keys_unique x && go rest end) fields
  | VList l =>
      (fix go (l : list Value) : bool :=
         match l with [] => true | x :: rest => maps_keys_unique x && go rest end) l
  | VMap l =>
      keys_unique l &&
      (fix go (l : list (MapKey * Value)) : bool :=
         match l with [] => true | (_, x) :: rest => maps_keys_unique x && go rest end) l
  | _ => true
  end.

Definition map_key_kind (k : Kind) : bool :=
  match k with KDouble | KFloat | KBytes | KMessage _ | KEnum _ => false | _ => true end.

Definition entry_field_ok (f : FieldDescriptor) : bool :=
  match fd_cardinality f with Repeated => false | _ => true end &&
  match fd_oneof f with None => true | Some _ => false end.

(** The shape of a map field's entry type: fields 1 and 2, singular and
    outside any oneof, with a key kind allowed for maps. *)
Definition map_field_ok (pool : Pool) (fd : FieldDescriptor) : bool :=
  match map_entry_kinds pool fd with
  | Some (eid, kk, _) =>
      match get_message pool eid with
      | Some emd =>
          match find_field emd 1, find_field emd 2 with
          | Some kf, Some vf => entry_field_ok kf && entry_field_ok vf && map_key_kind kk
          | _, _ => false
          end
      | None => false
      end
  | None => false
  end.

(** Field numbers are in [1, 2^29) and map fields have a well-formed entry
    type. *)
Definition pool_wf (pool : Pool) : bool :=
  forallb (fun md =>
    forallb (fun fd => in_range 1 (2 ^ 29 - 1) (fd_number fd) &&
                       (negb (is_map pool fd) || map_field_ok pool fd))
      (msg_fields md))
    (pool_messages pool).

(** The messages a program can hold: created empty for a descriptor of the
    pool, then changed only through [set_field], [clear_field] and [merge]
    (which [decode] runs on a new message). *)
Inductive reachable (pool : Pool) : DynamicMessage -> Prop :=
| reachable_new (d : nat) (md : MessageDescriptor) :
    get_message pool d = Some md -> reachable pool (DynamicMessage_new d)
| reachable_set_field (m m' : DynamicMessage) (number : Z) (v : Value) :
    reachable pool m -> DynamicMessage_set_field pool m number v = Ok m' -> reachable pool m'
| reachable_clear_field (m : DynamicMessage) (number : Z) :
    reachable pool m -> reachable pool (DynamicMessage_clear_field m number)
| reachable_merge (m m' : DynamicMessage) (bytes : list Z) :
    reachable pool m -> DynamicMessage_merge pool m bytes = Ok m' -> reachable pool m'.

End Dynamic.

(** ** Example pool *)

Definition example_type_map : TypeMap :=
  <["a.b.Outer" := 0%nat]> (<["a.b.Outer.Inner" := 1%nat]> (<["a.b.Inner" := 2%nat]> ∅)).

Definition example_method (name : string) (rq rs : TypeId) : MethodDescriptorInner :=
  {| mdi_full_name := name; request_ty := rq; response_ty := rs;
     server_streaming := false; client_streaming := true |}.

Definition example_greeter : ServiceDescriptorInner :=
  {| sdi_full_name := "a.b.Greeter";
     sdi_methods := [example_method "a.b.Greeter.Hello" 0 1; example_method "a.b.Greeter.Bye" 1 0] |}.

Definition example_file : FileDescriptorInner :=
  {| fdi_type_map := example_type_map;
     fdi_services :=
       [example_greeter;
        {| sdi_full_name := "a.b.Other";
           sdi_methods := [example_method "a.b.Other.Ping" 0 0] |}] |}.

Definition example_heap : heap := {[1%positive := example_file; 2%positive := example_file]}.

Definition example_fd : FileDescriptor Arc := MkFileDescriptor (MkArc 1%positive).
Definition example_service0 : ServiceDescriptor Arc := MkServiceDescriptor example_fd 0.
Definition example_service1 : ServiceDescriptor Arc := MkServiceDescriptor example_fd 1.

(** A raw service [a.b.Greeter] with two methods whose types resolve in
    [example_type_map], and a variant whose second method names a missing
    type. *)
Definition example_raw_file : Resolve.FileDescriptorProto := {| Resolve.fp_package := Some "a.b" |}.

Definition example_raw_method (name input output : string) (cs : option bool) : Resolve.MethodDescriptorProto :=
  {| Resolve.mp_name := Some name; Resolve.mp_input_type := Some input;
     Resolve.mp_output_type := Some output;
     Resolve.mp_client_streaming := cs; Resolve.mp_server_streaming := None |}.

Definition example_raw_service : Resolve.ServiceDescriptorProto :=
  {| Resolve.sp_name := Some "Greeter";
     Resolve.sp_method := [example_raw_method "Hello" ".a.b.Outer" "Outer.Inner" (Some true);
                           example_raw_method "Bye" "Inner" "Outer" None] |}.

Definition example_bad_raw_service : Resolve.ServiceDescriptorProto :=
  {| Resolve.sp_name := Some "Greeter";
     Resolve.sp_method := [example_raw_method "Hello" ".a.b.Outer" "Outer.Inner" (Some true);
                           example_raw_method "Bye" "Missing" "Gone" None;
                           example_raw_method "Ping" "Absent" "Outer" None] |}.

(** The service [example_raw_service] builds, in a file of its own at
    location 3. *)
Definition example_built_service : ServiceDescriptorInner :=
  {| sdi_full_name := "a.b.Greeter";
     sdi_methods :=
       [{| mdi_full_name := "a.b.Greeter.Hello"; request_ty := 0; response_ty := 1;
           server_streaming := false; client_streaming := true |};
        {| mdi_full_name := "a.b.Greeter.Bye"; request_ty := 2; response_ty := 0;
           server_streaming := false; client_streaming := false |}] |}.

Definition example_built_heap : heap :=
  {[3%positive := {| fdi_type_map := example_type_map; fdi_services := [example_built_service] |}]}.

Definition example_built_handle : ServiceDescriptor Arc :=
  MkServiceDescriptor (MkFileDescriptor (MkArc 3%positive)) 0.

(** ** Example message types *)

Import Dynamic.

Section CodecExamples.
Local Open Scope Z_scope.
Local Open Scope list_scope.

Definition example_field (n : Z) (name : string) (k : Kind) (c : Cardinality) (o : option nat)
    : FieldDescriptor :=
  {| fd_number := n; fd_name := name; fd_kind := k; fd_cardinality := c; fd_oneof := o |}.

(** [t.M]: scalars, a oneof [choice] of fields 3 and 5, a nested message,
    repeated fields, a map from strings to [t.M] and an optional double. *)
Definition example_msg : MessageDescriptor :=
  {| msg_full_name := "t.M"; msg_is_map_entry := false;
     msg_fields :=
       [example_field 1 "a" KInt32 Singular None;
        example_field 2 "s" KString Singular None;
        example_field 3 "x" KInt32 Singular (Some 0%nat);
        example_field 5 "y" KString Singular (Some 0%nat);
        example_field 6 "sub" (KMessage 0) Singular None;
        example_field 7 "r" KSint64 Repeated None;
        example_field 8 "m" (KMessage 1) Repeated None;
        example_field 9 "d" KDouble OptionalPresence None;
        example_field 10 "rs" KString Repeated None] |}.

Definition example_entry : MessageDescriptor :=
  {| msg_full_name := "t.M.MEntry"; msg_is_map_entry := true;
     msg_fields := [example_field 1 "key" KString Singular None;
                    example_field 2 "value" (KMessage 0) Singular None] |}.

Definition example_codec_pool : Pool :=
  {| pool_messages := [example_msg; example_entry]; pool_enums := [] |}.

Definition example_inner : DynamicMessage :=
  MkDynamicMessage 0 [(1, VI32 (-5)); (7, VList [VI64 3; VI64 (-300)])] [].

(** A [t.M] with a nested message, a packed and an unpacked repeated field,
    a two-entry map, a default-valued field and an unknown field 99
    (varint 7) captured from earlier input. *)
Definition example_message : DynamicMessage :=
  MkDynamicMessage 0
    [(1, VI32 0); (2, VString [104; 105]); (5, VString []); (6, VMessage example_inner);
     (7, VList [VI64 (-1); VI64 123456789]);
     (8, VMap [(MKString [97], VMessage example_inner);
               (MKString [], VMessage (MkDynamicMessage 0 [] []))]);
     (9, VF64 0); (10, VList [VString []; VString [65]])]
    [{| uf_number := 99; uf_raw := [152; 6; 7] |}].

(** The quiet NaN [0x7FF8000000000000] as a double's bits. *)
Definition example_nan : Z := 9221120237041090560.

Definition example_nan_message : DynamicMessage := MkDynamicMessage 0 [(9, VF64 example_nan)] [].

(** Field 1 = 1, then field 99 (undeclared) = 7. *)
Definition example_unknown_input : list Z := [8; 1; 152; 6; 7].

End CodecExamples.

(** * Proofs *)

Import Resolve.

Example parse_name_ex : parse_name "my.package.Service" = "Service".
Proof. reflexivity. Qed.
Example parse_namespace_ex : parse_namespace "my.package.Service" = "my.package".
Proof. reflexivity. Qed.
Example resolve_ex :
  Resolve.resolve_type_name (<["a.b.Outer.Inner" := 1%nat]> (<["a.b.Inner" := 2%nat]> ∅)) "a.b.Outer" "Inner" = Ok 1%nat.
Proof. reflexivity. Qed.

Lemma rsplit_once_dot_Some (s a b : string) :
  rsplit_once_dot s = Some (a, b) -> s = a +:+ "." +:+ b /\ no_dot b = true.
Proof.
  revert a b. induction s as [|c s IH]; intros a b Hs; simpl in Hs; [discriminate|].
  destruct (rsplit_once_dot s) as [[a' b']|] eqn:E.
  - injection Hs as <- <-. destruct (IH _ _ eq_refl) as [-> Hb]. split; [reflexivity|exact Hb].
  - destruct (Ascii.eqb c "."%char) eqn:Ec; [|discriminate].
    injection Hs as <- <-. apply Ascii.eqb_eq in Ec. subst c.
    split; [reflexivity|].
    clear IH. induction s as [|c' s' IH']; [reflexivity|].
    simpl in E |- *. destruct (rsplit_once_dot s') as [[]|]; [discriminate|].
    destruct (Ascii.eqb c' "."%char); [discriminate|]. simpl. apply IH'. reflexivity.
Qed.

Lemma rsplit_once_dot_None (s : string) :
  rsplit_once_dot s = None -> no_dot s = true.
Proof.
  induction s as [|c s IH]; intros Hs; [reflexivity|]. simpl in Hs |- *.
  destruct (rsplit_once_dot s) as [[]|]; [discriminate|].
  destruct (Ascii.eqb c "."%char); [discriminate|]. simpl. apply IH. reflexivity.
Qed.

Lemma parse_name_namespace_split (full_name : string) :
  (no_dot full_name = true /\ parse_name full_name = full_name /\ parse_namespace full_name = "") \/
  (full_name = parse_namespace full_name +:+ "." +:+ parse_name full_name /\
   no_dot (parse_name full_name) = true).
Proof.
  unfold parse_name, parse_namespace.
  destruct (rsplit_once_dot full_name) as [[a b]|] eqn:E.
  - right. exact (rsplit_once_dot_Some _ _ _ E).
  - left. repeat split; [|reflexivity..]. exact (rsplit_once_dot_None _ E).
Qed.

Section HandleProofs.
Context {I : Type} `{Borrow I}.

Lemma ServiceDescriptor_eqb_spec (a b : ServiceDescriptor I) :
  ServiceDescriptor_eqb a b = true <->
  borrow_loc (fd_inner (sd_file a)) = borrow_loc (fd_inner (sd_file b)) /\ sd_index a = sd_index b.
Proof.
  unfold ServiceDescriptor_eqb, file_eqb.
  rewrite andb_true_iff, Pos.eqb_eq, Nat.eqb_eq. reflexivity.
Qed.

Lemma MethodDescriptor_eqb_spec (a b : MethodDescriptor I) :
  MethodDescriptor_eqb a b = true <->
  borrow_loc (fd_inner (sd_file (md_service a))) = borrow_loc (fd_inner (sd_file (md_service b))) /\
  sd_index (md_service a) = sd_index (md_service b) /\ md_index a = md_index b.
Proof.
  unfold MethodDescriptor_eqb. rewrite andb_true_iff, ServiceDescriptor_eqb_spec, Nat.eqb_eq.
  tauto.
Qed.

Lemma MethodIter_next_len (it : MethodIter I) :
  (MethodIter_next it = None <-> MethodIter_len it = 0) /\
  (forall m it', MethodIter_next it = Some (m, it') ->
     0 < MethodIter_len it /\ MethodIter_len it' = MethodIter_len it - 1 /\
     m = MkMethodDescriptor (mit_service it) (mit_start it) /\ mit_service it' = mit_service it).
Proof.
  unfold MethodIter_next, MethodIter_len. destruct (Nat.ltb_spec (mit_start it) (mit_end it)).
  - split; [split; [discriminate|lia]|]. intros m it' E. injection E as <- <-. simpl. repeat split; lia.
  - split; [split; [lia|reflexivity]|]. discriminate.
Qed.

Lemma MethodIter_collect_range (fuel : nat) (s : ServiceDescriptor I) (k n : nat) :
  n - k <= fuel ->
  MethodIter_collect fuel (MkMethodIter s k n) = map (MkMethodDescriptor s) (seq k (n - k)).
Proof.
  revert k. induction fuel as [|fuel IH]; intros k Hf; simpl.
  - replace (n - k) with 0 by lia. reflexivity.
  - unfold MethodIter_next. simpl. destruct (Nat.ltb_spec k n).
    + replace (n - k) with (S (n - S k)) by lia. simpl. f_equal. apply IH. lia.
    + replace (n - k) with 0 by lia. reflexivity.
Qed.

End HandleProofs.

(** C8: [parse_name] returns the part of a full name after its last
    separator and [parse_namespace] the part before it ([""] when there is
    none); the [name] of a service or method is the last component of its
    full name and [package_name] of a service is everything before it. *)
Theorem names_are_last_component :
  (forall full_name : string,
     (no_dot full_name = true /\ parse_name full_name = full_name /\
      parse_namespace full_name = "") \/
     (full_name = parse_namespace full_name +:+ "." +:+ parse_name full_name /\
      no_dot (parse_name full_name) = true)) /\
  (forall (I : Type) (B : Borrow I) (h : heap) (s : ServiceDescriptor I) (fn : string),
     ServiceDescriptor_full_name h s = Some fn ->
     ServiceDescriptor_name h s = Some (parse_name fn) /\
     ServiceDescriptor_package_name h s = Some (parse_namespace fn)) /\
  (forall (I : Type) (B : Borrow I) (h : heap) (m : MethodDescriptor I) (fn : string),
     MethodDescriptor_full_name h m = Some fn ->
     MethodDescriptor_name h m = Some (parse_name fn)).
Proof.
  split; [exact parse_name_namespace_split|]. split.
  - intros I0 B h s fn E. unfold ServiceDescriptor_name, ServiceDescriptor_package_name.
    rewrite E. split; reflexivity.
  - intros I0 B h m fn E. unfold MethodDescriptor_name. rewrite E. reflexivity.
Qed.

(** C2 (amended): two service handles are equal iff they point to the same
    shared file state (by address) and have the same index; two method
    handles are equal iff they point to the same file state, have the same
    parent service index and the same method index; handles over distinct
    allocations with identical contents are unequal. *)
Theorem handle_equality_is_identity :
  (forall (I : Type) (B : Borrow I) (a b : ServiceDescriptor I),
     ServiceDescriptor_eqb a b = true <->
     borrow_loc (fd_inner (sd_file a)) = borrow_loc (fd_inner (sd_file b)) /\
     ServiceDescriptor_index a = ServiceDescriptor_index b) /\
  (forall (I : Type) (B : Borrow I) (a b : MethodDescriptor I),
     MethodDescriptor_eqb a b = true <->
     borrow_loc (fd_inner (sd_file (md_service a))) = borrow_loc (fd_inner (sd_file (md_service b))) /\
     ServiceDescriptor_index (md_service a) = ServiceDescriptor_index (md_service b) /\
     MethodDescriptor_index a = MethodDescriptor_index b) /\
  (forall (h : heap) (l1 l2 : loc) (fi : FileDescriptorInner) (si mi : nat),
     l1 <> l2 -> h !! l1 = Some fi -> h !! l2 = Some fi ->
     ServiceDescriptor_eqb (MkServiceDescriptor (MkFileDescriptor (MkArc l1)) si)
                           (MkServiceDescriptor (MkFileDescriptor (MkArc l2)) si) = false /\
     MethodDescriptor_eqb
       (MkMethodDescriptor (MkServiceDescriptor (MkFileDescriptor (MkArc l1)) si) mi)
       (MkMethodDescriptor (MkServiceDescriptor (MkFileDescriptor (MkArc l2)) si) mi) = false).
Proof.
  split; [intros; apply ServiceDescriptor_eqb_spec|]. split; [intros; apply MethodDescriptor_eqb_spec|].
  intros h l1 l2 fi si mi Hne _ _. unfold MethodDescriptor_eqb, ServiceDescriptor_eqb, file_eqb. cbn.
  rewrite (proj2 (Pos.eqb_neq l1 l2) Hne). split; reflexivity.
Qed.

(** C4: [ServiceDescriptor::new] and [MethodDescriptor::new] are documented
    to panic when the index is out of bounds, but they check it only with
    [debug_assert!].  With an index beyond the child count, [new] panics when
    debug assertions are enabled; in a release build it returns the handle,
    whose [index] and parent accessors work, and only the accessors that read
    the service's or method's data panic. *)
Theorem out_of_range_handles_panic_on_use :
  (forall (I : Type) (B : Borrow I) (h : heap) (f : FileDescriptor I)
          (fi : FileDescriptorInner) (index : nat),
     file_inner h f = Some fi -> length (fdi_services fi) <= index ->
     ServiceDescriptor_new true h f index = None /\
     exists s, ServiceDescriptor_new false h f index = Some s /\
       ServiceDescriptor_index s = index /\
       ServiceDescriptor_parent_file s = f /\
       ServiceDescriptor_full_name h s = None /\
       ServiceDescriptor_name h s = None /\
       ServiceDescriptor_package_name h s = None /\
       ServiceDescriptor_methods h s = None) /\
  (forall (I : Type) (B : Borrow I) (h : heap) (s : ServiceDescriptor I)
          (si : ServiceDescriptorInner) (index : nat),
     ServiceDescriptor_inner h s = Some si -> length (sdi_methods si) <= index ->
     MethodDescriptor_new true h s index = None /\
     exists m, MethodDescriptor_new false h s index = Some m /\
       MethodDescriptor_index m = index /\
       MethodDescriptor_parent_service m = s /\
       MethodDescriptor_full_name h m = None /\
       MethodDescriptor_name h m = None /\
       MethodDescriptor_input h m = None /\
       MethodDescriptor_output h m = None /\
       MethodDescriptor_is_client_streaming h m = None /\
       MethodDescriptor_is_server_streaming h m = None).
Proof.
  split.
  - intros I0 B h f fi index Hf Hlen.
    assert (Hs : fdi_services fi !! index = None) by (apply lookup_ge_None; lia).
    split.
    + unfold ServiceDescriptor_new, file_services_len. rewrite Hf. simpl.
      destruct (Nat.ltb_spec index (length (fdi_services fi))); [lia|reflexivity].
    + assert (Hi : ServiceDescriptor_inner h (MkServiceDescriptor f index) = None).
      { unfold ServiceDescriptor_inner, ServiceDescriptor_parent_file. simpl.
        rewrite Hf. simpl. exact Hs. }
      eexists; split; [reflexivity|].
      unfold ServiceDescriptor_name, ServiceDescriptor_package_name.
      unfold ServiceDescriptor_full_name, ServiceDescriptor_methods.
      rewrite Hi. repeat split.
  - intros I0 B h s si index Hs Hlen.
    assert (Hm : sdi_methods si !! index = None) by (apply lookup_ge_None; lia).
    split.
    + unfold MethodDescriptor_new, ServiceDescriptor_methods. rewrite Hs. simpl.
      unfold MethodIter_len; simpl.
      destruct (Nat.ltb_spec index (length (sdi_methods si) - 0)); [lia|reflexivity].
    + assert (Hi : MethodDescriptor_inner h (MkMethodDescriptor s index) = None).
      { unfold MethodDescriptor_inner. simpl. rewrite Hs. exact Hm. }
      eexists; split; [reflexivity|].
      unfold MethodDescriptor_name.
      unfold MethodDescriptor_full_name, MethodDescriptor_input,
        MethodDescriptor_output, MethodDescriptor_is_client_streaming,
        MethodDescriptor_is_server_streaming.
      rewrite Hi. repeat split.
Qed.

(** C9: for a service handle that addresses an existing service,
    [methods()] returns a fresh exact-size iterator starting at index 0 that
    yields, in order, one method handle per method, each with the service as
    its parent and addressing that method; draining it with more calls
    yields nothing more. *)
Theorem methods_enumerates_each_method (I : Type) (B : Borrow I) (h : heap)
    (s : ServiceDescriptor I) (si : ServiceDescriptorInner) :
  ServiceDescriptor_inner h s = Some si ->
  exists it, ServiceDescriptor_methods h s = Some it /\
    mit_start it = 0 /\
    MethodIter_len it = length (sdi_methods si) /\
    MethodIter_to_list it = map (MkMethodDescriptor s) (seq 0 (length (sdi_methods si))) /\
    (forall fuel, length (sdi_methods si) <= fuel ->
       MethodIter_collect fuel it = MethodIter_to_list it) /\
    (forall k mi, sdi_methods si !! k = Some mi ->
       MethodDescriptor_parent_service (MkMethodDescriptor s k) = s /\
       MethodDescriptor_inner h (MkMethodDescriptor s k) = Some mi) /\
    (forall it0 : MethodIter I,
       (MethodIter_next it0 = None <-> MethodIter_len it0 = 0) /\
       (forall m it', MethodIter_next it0 = Some (m, it') ->
          0 < MethodIter_len it0 /\ MethodIter_len it' = MethodIter_len it0 - 1 /\
          m = MkMethodDescriptor (mit_service it0) (mit_start it0) /\
          mit_service it' = mit_service it0)).
Proof.
  intros Hs. eexists. split; [unfold ServiceDescriptor_methods; rewrite Hs; reflexivity|].
  split; [reflexivity|]. split; [unfold MethodIter_len; simpl; lia|].
  assert (Hl : MethodIter_to_list (MkMethodIter s 0 (length (sdi_methods si))) =
               map (MkMethodDescriptor s) (seq 0 (length (sdi_methods si)))).
  { unfold MethodIter_to_list, MethodIter_len. simpl.
    rewrite MethodIter_collect_range by lia. rewrite Nat.sub_0_r. reflexivity. }
  split; [exact Hl|]. split.
  { intros fuel Hf. rewrite Hl. rewrite MethodIter_collect_range by lia.
    rewrite Nat.sub_0_r. reflexivity. }
  split; [|intros; apply MethodIter_next_len].
  intros k mi Hk. split; [reflexivity|].
  unfold MethodDescriptor_inner. simpl. rewrite Hs. exact Hk.
Qed.

(** C10: a borrowed service or method handle addresses the same file state
    and indices as the original, and all accessors agree on the two. *)
Theorem borrow_agrees (I : Type) (B : Borrow I) (h : heap) :
  (forall s : ServiceDescriptor I,
     borrow_loc (fd_inner (sd_file (ServiceDescriptor_borrow s))) = borrow_loc (fd_inner (sd_file s)) /\
     ServiceDescriptor_index (ServiceDescriptor_borrow s) = ServiceDescriptor_index s /\
     ServiceDescriptor_full_name h (ServiceDescriptor_borrow s) = ServiceDescriptor_full_name h s /\
     ServiceDescriptor_name h (ServiceDescriptor_borrow s) = ServiceDescriptor_name h s /\
     ServiceDescriptor_package_name h (ServiceDescriptor_borrow s) = ServiceDescriptor_package_name h s /\
     MethodIter_len <$> ServiceDescriptor_methods h (ServiceDescriptor_borrow s) =
       MethodIter_len <$> ServiceDescriptor_methods h s) /\
  (forall m : MethodDescriptor I,
     borrow_loc (fd_inner (MethodDescriptor_parent_file (MethodDescriptor_borrow m))) =
       borrow_loc (fd_inner (MethodDescriptor_parent_file m)) /\
     ServiceDescriptor_index (md_service (MethodDescriptor_borrow m)) = ServiceDescriptor_index (md_service m) /\
     MethodDescriptor_index (MethodDescriptor_borrow m) = MethodDescriptor_index m /\
     MethodDescriptor_full_name h (MethodDescriptor_borrow m) = MethodDescriptor_full_name h m /\
     MethodDescriptor_name h (MethodDescriptor_borrow m) = MethodDescriptor_name h m /\
     MethodDescriptor_is_client_streaming h (MethodDescriptor_borrow m) =
       MethodDescriptor_is_client_streaming h m /\
     MethodDescriptor_is_server_streaming h (MethodDescriptor_borrow m) =
       MethodDescriptor_is_server_streaming h m /\
     snd <$> MethodDescriptor_input h (MethodDescriptor_borrow m) = snd <$> MethodDescriptor_input h m /\
     snd <$> MethodDescriptor_output h (MethodDescriptor_borrow m) = snd <$> MethodDescriptor_output h m).
Proof.
  assert (Hinner : forall s : ServiceDescriptor I,
             ServiceDescriptor_inner h (ServiceDescriptor_borrow s) = ServiceDescriptor_inner h s)
    by reflexivity.
  assert (Hminner : forall m : MethodDescriptor I,
             MethodDescriptor_inner h (MethodDescriptor_borrow m) = MethodDescriptor_inner h m)
    by reflexivity.
  split.
  - intros s. unfold ServiceDescriptor_full_name, ServiceDescriptor_name,
      ServiceDescriptor_package_name, ServiceDescriptor_methods.
    rewrite Hinner. repeat split.
    destruct (ServiceDescriptor_inner h s); reflexivity.
  - intros m. unfold MethodDescriptor_full_name, MethodDescriptor_name,
      MethodDescriptor_is_client_streaming, MethodDescriptor_is_server_streaming,
      MethodDescriptor_input, MethodDescriptor_output.
    rewrite Hminner. repeat split; destruct (MethodDescriptor_inner h m); reflexivity.
Qed.

Lemma rsplit_once_dot_shorter (s a b : string) :
  rsplit_once_dot s = Some (a, b) -> String.length a < String.length s.
Proof.
  revert a b. induction s as [|c s IH]; intros a b Hs; simpl in Hs; [discriminate|].
  destruct (rsplit_once_dot s) as [[a' b']|] eqn:E.
  - injection Hs as <- <-. simpl. specialize (IH _ _ eq_refl). lia.
  - destruct (Ascii.eqb c "."%char); [|discriminate]. injection Hs as <- <-. simpl. lia.
Qed.

Lemma parse_namespace_shorter (ns : string) :
  ns <> "" -> String.length (parse_namespace ns) < String.length ns.
Proof.
  intros Hne. unfold parse_namespace. destruct (rsplit_once_dot ns) as [[a b]|] eqn:E.
  - exact (rsplit_once_dot_shorter _ _ _ E).
  - destruct ns; [congruence|]. simpl. lia.
Qed.

Lemma resolve_relative_fuel (tm : TypeMap) (name : string) (f1 f2 : nat) (ns : string) :
  String.length ns <= f1 -> String.length ns <= f2 ->
  resolve_relative f1 tm ns name = resolve_relative f2 tm ns name.
Proof.
  revert f2 ns. induction f1 as [|f1 IH]; intros f2 ns H1 H2.
  - destruct ns; [|simpl in H1; lia]. destruct f2; reflexivity.
  - destruct f2 as [|f2].
    + destruct ns; [|simpl in H2; lia]. reflexivity.
    + simpl. destruct (tm !! make_full_name ns name); [reflexivity|].
      destruct (String.eqb_spec ns ""); [reflexivity|].
      pose proof (parse_namespace_shorter ns n). apply IH; lia.
Qed.

Lemma enclosing_scopes_aux_fuel (f1 f2 : nat) (ns : string) :
  String.length ns <= f1 -> String.length ns <= f2 ->
  enclosing_scopes_aux f1 ns = enclosing_scopes_aux f2 ns.
Proof.
  revert f2 ns. induction f1 as [|f1 IH]; intros f2 ns H1 H2.
  - destruct ns; [|simpl in H1; lia]. destruct f2; reflexivity.
  - destruct f2 as [|f2].
    + destruct ns; [|simpl in H2; lia]. reflexivity.
    + simpl. f_equal. destruct (String.eqb_spec ns ""); [reflexivity|].
      pose proof (parse_namespace_shorter ns n). apply IH; lia.
Qed.

Lemma enclosing_scopes_step (ns : string) :
  enclosing_scopes ns =
  ns :: (if String.eqb ns "" then [] else enclosing_scopes (parse_namespace ns)).
Proof.
  unfold enclosing_scopes. destruct (String.eqb_spec ns "") as [->|Hne]; [reflexivity|].
  pose proof (parse_namespace_shorter ns Hne).
  destruct (String.length ns) as [|k] eqn:Hl; [lia|]. simpl.
  destruct (String.eqb_spec ns ""); [congruence|].
  f_equal. apply enclosing_scopes_aux_fuel; lia.
Qed.

Lemma resolve_relative_step (tm : TypeMap) (ns name : string) :
  is_absolute name = false ->
  resolve_type_name tm ns name =
  match tm !! make_full_name ns name with
  | Some t => Ok t
  | None => if String.eqb ns "" then Err (TypeNotFound name)
            else resolve_type_name tm (parse_namespace ns) name
  end.
Proof.
  intros Hrel.
  assert (Hr : forall ns', resolve_type_name tm ns' name =
                           resolve_relative (String.length ns') tm ns' name).
  { intros ns'. unfold resolve_type_name. destruct name as [|c rest]; [reflexivity|].
    simpl in Hrel. rewrite Hrel. reflexivity. }
  rewrite !Hr. destruct (String.eqb_spec ns "") as [->|Hne].
  - reflexivity.
  - pose proof (parse_namespace_shorter ns Hne).
    destruct (String.length ns) as [|k] eqn:Hl; [lia|]. simpl.
    destruct (tm !! make_full_name ns name); [reflexivity|].
    destruct (String.eqb_spec ns ""); [congruence|].
    apply resolve_relative_fuel; lia.
Qed.

Lemma resolve_first_match (tm : TypeMap) (name : string) (ns : string) :
  is_absolute name = false ->
  (forall t, resolve_type_name tm ns name = Ok t <->
     exists pre sc post, enclosing_scopes ns = (pre ++ sc :: post)%list /\
       tm !! make_full_name sc name = Some t /\
       Forall (fun sc' => tm !! make_full_name sc' name = None) pre) /\
  (forall e, resolve_type_name tm ns name = Err e <->
     e = TypeNotFound name /\
     Forall (fun sc' => tm !! make_full_name sc' name = None) (enclosing_scopes ns)).
Proof.
  intros Hrel. remember (String.length ns) as n eqn:Hn. revert ns Hn.
  induction n as [n IH] using lt_wf_ind. intros ns Hn.
  rewrite resolve_relative_step by exact Hrel. rewrite enclosing_scopes_step.
  destruct (tm !! make_full_name ns name) as [t0|] eqn:Hl.
  - split.
    + intros t. split.
      * intros E. injection E as <-. eexists [], ns, _. split; [reflexivity|]. split; [exact Hl|constructor].
      * intros (pre & sc & post & Hs & Hsc & Hpre). destruct pre as [|p pre].
        -- injection Hs as <- _. congruence.
        -- injection Hs as -> _. inversion Hpre; congruence.
    + intros e. split; [discriminate|]. intros [_ HF]. inversion HF; congruence.
  - destruct (String.eqb_spec ns "") as [->|Hne].
    + split.
      * intros t. split; [discriminate|]. intros (pre & sc & post & Hs & Hsc & Hpre).
        destruct pre as [|p [|]]; simpl in Hs; injection Hs as ? ?; subst;
          try congruence; try discriminate; inversion Hpre; congruence.
      * intros e. split.
        -- intros E. injection E as <-. split; [reflexivity|]. constructor; [exact Hl|constructor].
        -- intros [-> _]. reflexivity.
    + pose proof (parse_namespace_shorter ns Hne) as Hlt.
      destruct (IH (String.length (parse_namespace ns)) ltac:(lia) (parse_namespace ns) eq_refl)
        as [IHok IHerr].
      split.
      * intros t. rewrite IHok. split.
        -- intros (pre & sc & post & Hs & Hsc & Hpre). exists (ns :: pre), sc, post.
           split; [rewrite Hs; reflexivity|]. split; [exact Hsc|constructor; assumption].
        -- intros (pre & sc & post & Hs & Hsc & Hpre). destruct pre as [|p pre].
           ++ injection Hs as <- _. congruence.
           ++ injection Hs as -> Hs. inversion Hpre; subst. exists pre, sc, post. auto.
      * intros e. rewrite IHerr. split.
        -- intros [He HF]. split; [exact He|constructor; assumption].
        -- intros [He HF]. inversion HF; subst. auto.
Qed.

Lemma collect_results_map_Ok {E A B} (f : A -> result E B) (l : list A) (out : list B) :
  collect_results (map f l) = Ok out ->
  length out = length l /\
  forall k x y, l !! k = Some x -> out !! k = Some y -> f x = Ok y.
Proof.
  revert out. induction l as [|x l IH]; intros out Hc; simpl in Hc.
  - injection Hc as <-. split; [reflexivity|]. intros k x y Hx. inversion Hx.
  - destruct (f x) as [b|e] eqn:Hf; [|discriminate]. simpl in Hc.
    destruct (collect_results (map f l)) as [out'|e] eqn:Hr; [|discriminate]. simpl in Hc.
    injection Hc as <-. destruct (IH out' eq_refl) as [Hlen Hk]. split; [simpl; lia|].
    intros [|k] x' y Hx Hy; simpl in Hx, Hy.
    + injection Hx as <-. injection Hy as <-. exact Hf.
    + exact (Hk k x' y Hx Hy).
Qed.

Lemma collect_results_map_Err {E A B} (f : A -> result E B) (l : list A) (k : nat) (x : A) (e : E) :
  l !! k = Some x -> f x = Err e -> exists e', collect_results (map f l) = Err e'.
Proof.
  revert k. induction l as [|y l IH]; intros k Hx Hf; [inversion Hx|].
  simpl. destruct k as [|k]; simpl in Hx.
  - injection Hx as ->. rewrite Hf. eexists; reflexivity.
  - destruct (f y) as [b|e']; simpl; [|eexists; reflexivity].
    destruct (IH k Hx Hf) as [e' ->]. eexists; reflexivity.
Qed.


(** C3: an absolute name is looked up directly; a relative name resolves to
    the first scope, from [namespace] outward to the root, in which it is
    defined, and fails with [TypeNotFound] when no scope defines it; the
    scopes of [a.b.Outer] are [a.b.Outer], [a.b], [a], [""]; [Inner] from
    [a.b.Outer] is [a.b.Outer.Inner], also when [a.b.Inner] exists, and the
    absolute [.a.b.Outer.Inner] resolves to it from any scope; method
    input and output types are resolved this way from the service's full
    name when the service descriptor is built. *)
Theorem resolve_type_name_scoping :
  (forall (tm : TypeMap) (namespace rest : string),
     resolve_type_name tm namespace (String "." rest) = get_by_name tm rest) /\
  (forall (tm : TypeMap) (namespace name : string),
     is_absolute name = false ->
     (forall t, resolve_type_name tm namespace name = Ok t <->
        exists pre sc post, enclosing_scopes namespace = (pre ++ sc :: post)%list /\
          tm !! make_full_name sc name = Some t /\
          Forall (fun sc' => tm !! make_full_name sc' name = None) pre) /\
     (forall e, resolve_type_name tm namespace name = Err e <->
        e = TypeNotFound name /\
        Forall (fun sc' => tm !! make_full_name sc' name = None) (enclosing_scopes namespace))) /\
  (forall namespace : string,
     enclosing_scopes namespace =
     namespace :: (if String.eqb namespace "" then []
                   else enclosing_scopes (parse_namespace namespace))) /\
  enclosing_scopes "a.b.Outer" = ["a.b.Outer"; "a.b"; "a"; ""] /\
  resolve_type_name example_type_map "a.b.Outer" "Inner" = Ok 1%nat /\
  (forall namespace : string,
     resolve_type_name example_type_map namespace ".a.b.Outer.Inner" = Ok 1%nat) /\
  (forall raw_file raw_service (tm : TypeMap) (si : ServiceDescriptorInner),
     ServiceDescriptorInner_from_raw raw_file raw_service tm = Ok si ->
     length (sdi_methods si) = length (sp_method raw_service) /\
     forall k raw_method mi, sp_method raw_service !! k = Some raw_method ->
       sdi_methods si !! k = Some mi ->
       resolve_type_name tm (sdi_full_name si) (opt_str (mp_input_type raw_method)) =
         Ok (request_ty mi) /\
       resolve_type_name tm (sdi_full_name si) (opt_str (mp_output_type raw_method)) =
         Ok (response_ty mi)) /\
  (forall raw_file raw_service (tm : TypeMap) k raw_method e,
     sp_method raw_service !! k = Some raw_method ->
     resolve_type_name tm
       (make_full_name (opt_str (fp_package raw_file)) (opt_str (sp_name raw_service)))
       (opt_str (mp_input_type raw_method)) = Err e ->
     exists e', ServiceDescriptorInner_from_raw raw_file raw_service tm = Err e').
Proof.
  split; [reflexivity|]. split; [intros; apply resolve_first_match; assumption|].
  split; [exact enclosing_scopes_step|].
  split; [reflexivity|]. split; [reflexivity|].
  split; [intros; reflexivity|]. split.
  - intros raw_file raw_service tm si Hs. unfold ServiceDescriptorInner_from_raw in Hs.
    destruct (collect_results _) as [methods|e] eqn:Hc; [|discriminate].
    simpl in Hs. injection Hs as <-. simpl.
    destruct (collect_results_map_Ok _ _ _ Hc) as [Hlen Hk]. split; [exact Hlen|].
    intros k rm mi Hrm Hmi. specialize (Hk k rm mi Hrm Hmi).
    unfold MethodDescriptorInner_from_raw in Hk.
    destruct (resolve_type_name _ _ (opt_str (mp_input_type rm))) as [rq|]; [|discriminate].
    simpl in Hk.
    destruct (resolve_type_name _ _ (opt_str (mp_output_type rm))) as [rs|]; [|discriminate].
    simpl in Hk. injection Hk as <-. split; reflexivity.
  - intros raw_file raw_service tm k rm e Hrm He. unfold ServiceDescriptorInner_from_raw.
    edestruct (collect_results_map_Err
      (fun raw_method => MethodDescriptorInner_from_raw
         (make_full_name (opt_str (fp_package raw_file)) (opt_str (sp_name raw_service)))
         raw_file raw_service raw_method tm) _ k rm e Hrm) as [e' He'].
    + unfold MethodDescriptorInner_from_raw. rewrite He. reflexivity.
    + rewrite He'. eexists; reflexivity.
Qed.

(** C2 counterexample: the first method of service 0 and the first method
    of service 1 of one file share the file state and the index 0, and are
    both valid handles, yet they compare unequal. *)
Lemma method_eq_same_file_same_index_counterexample :
  MethodDescriptor_inner example_heap (MkMethodDescriptor example_service0 0) <> None /\
  MethodDescriptor_inner example_heap (MkMethodDescriptor example_service1 0) <> None /\
  borrow_loc (fd_inner (MethodDescriptor_parent_file (MkMethodDescriptor example_service0 0))) =
  borrow_loc (fd_inner (MethodDescriptor_parent_file (MkMethodDescriptor example_service1 0))) /\
  MethodDescriptor_index (MkMethodDescriptor example_service0 0) =
  MethodDescriptor_index (MkMethodDescriptor example_service1 0) /\
  MethodDescriptor_eqb (MkMethodDescriptor example_service0 0)
                       (MkMethodDescriptor example_service1 0) = false.
Proof. repeat split; vm_compute; congruence. Qed.

Lemma handle_equality_is_identity_witness :
  example_heap !! 1%positive = Some example_file /\
  example_heap !! 2%positive = Some example_file /\
  ServiceDescriptor_eqb (MkServiceDescriptor (MkFileDescriptor (MkArc 1%positive)) 0)
                        (MkServiceDescriptor (MkFileDescriptor (MkArc 2%positive)) 0) = false.
Proof.
  split; [reflexivity|]. split; [reflexivity|].
  apply (proj2 (proj2 handle_equality_is_identity) example_heap 1%positive 2%positive example_file 0 0);
    [discriminate|reflexivity|reflexivity].
Defined.

(** In a release build, [ServiceDescriptor::new] with index 2 on a file
    with two services, and [MethodDescriptor::new] with index 1 on a service
    with one method, return a handle instead of panicking. *)
Lemma new_out_of_range_release_returns :
  file_services_len example_heap example_fd = Some 2 /\
  ServiceDescriptor_new false example_heap example_fd 2 = Some (MkServiceDescriptor example_fd 2) /\
  MethodIter_len <$> ServiceDescriptor_methods example_heap example_service1 = Some 1 /\
  MethodDescriptor_new false example_heap example_service1 1 =
    Some (MkMethodDescriptor example_service1 1).
Proof. repeat split. Qed.

Lemma out_of_range_handles_panic_on_use_witness :
  file_inner example_heap example_fd = Some example_file /\
  ServiceDescriptor_new true example_heap example_fd 2 = None.
Proof.
  split; [vm_compute; reflexivity|].
  apply (proj1 (proj1 out_of_range_handles_panic_on_use Arc Borrow_Arc example_heap example_fd example_file 2
                  ltac:(vm_compute; reflexivity) ltac:(simpl; lia))).
Defined.

Lemma names_are_last_component_witness :
  ServiceDescriptor_full_name example_heap example_service0 = Some "a.b.Greeter" /\
  ServiceDescriptor_name example_heap example_service0 = Some (parse_name "a.b.Greeter") /\
  parse_name "a.b.Greeter" = "Greeter".
Proof.
  split; [reflexivity|]. split; [|reflexivity].
  apply (proj1 (proj1 (proj2 names_are_last_component) Arc Borrow_Arc example_heap example_service0
                  "a.b.Greeter" ltac:(vm_compute; reflexivity))).
Defined.

Lemma methods_enumerates_each_method_witness :
  ServiceDescriptor_inner example_heap example_service0 = Some example_greeter /\
  exists it, ServiceDescriptor_methods example_heap example_service0 = Some it /\
    MethodIter_to_list it = [MkMethodDescriptor example_service0 0; MkMethodDescriptor example_service0 1].
Proof.
  split; [vm_compute; reflexivity|].
  destruct (methods_enumerates_each_method Arc Borrow_Arc example_heap example_service0
              example_greeter ltac:(vm_compute; reflexivity)) as (it & Hm & _ & _ & Hl & _).
  exists it. split; [exact Hm|]. rewrite Hl. reflexivity.
Defined.

Lemma resolve_type_name_scoping_witness :
  is_absolute "Inner" = false /\
  resolve_type_name example_type_map "a.b.Outer" "Inner" = Ok 1%nat.
Proof.
  split; [vm_compute; reflexivity|].
  destruct (proj1 (proj2 resolve_type_name_scoping) example_type_map "a.b.Outer" "Inner"
              ltac:(vm_compute; reflexivity)) as [Hok _].
  apply (proj2 (Hok 1%nat)). exists [], "a.b.Outer", ["a.b"; "a"; ""].
  split; [reflexivity|]. split; [reflexivity|constructor].
Defined.

(** ** Wire format round trips *)

Lemma lor_disjoint_add (a b : Z) : Z.land a b = 0%Z -> Z.lor a b = (a + b)%Z.
Proof. intros H. rewrite <- Z.add_lor_land, H. lia. Qed.

Lemma land_low_shiftl (acc x s : Z) :
  (0 <= s)%Z -> (0 <= acc < 2 ^ s)%Z -> Z.land acc (Z.shiftl x s) = 0%Z.
Proof.
  intros Hs Hacc. apply Z.bits_inj'. intros n Hn. rewrite Z.land_spec, Z.bits_0.
  destruct (Z.lt_ge_cases n s) as [Hlt|Hge].
  - rewrite Z.shiftl_spec_low by lia. apply andb_false_r.
  - assert (Z.testbit acc n = false) as ->; [|reflexivity].
    destruct (Z.eq_dec acc 0%Z) as [->|Hne]; [apply Z.bits_0|].
    apply Z.bits_above_log2; [lia|].
    assert (Z.log2 acc < s)%Z by (apply Z.log2_lt_pow2; lia). lia.
Qed.

Lemma lor_shiftl_add (acc x s : Z) :
  (0 <= s)%Z -> (0 <= acc < 2 ^ s)%Z -> Z.lor acc (Z.shiftl x s) = (acc + x * 2 ^ s)%Z.
Proof.
  intros Hs Hacc. rewrite lor_disjoint_add by (apply land_low_shiftl; lia).
  rewrite Z.shiftl_mul_pow2 by lia. reflexivity.
Qed.

Lemma varint_byte_low (v : Z) : Z.land (Z.lor (Z.land v 127) 128) 127 = (v mod 128)%Z.
Proof.
  rewrite Z.land_lor_distr_l, <- Z.land_assoc. change (Z.land 127 127) with 127%Z.
  change (Z.land 128 127) with 0%Z. rewrite Z.lor_0_r.
  change 127%Z with (Z.ones 7). rewrite Z.land_ones by lia. reflexivity.
Qed.

Lemma varint_byte_value (v : Z) : Z.lor (Z.land v 127) 128 = (v mod 128 + 128)%Z.
Proof.
  rewrite lor_disjoint_add.
  - change 127%Z with (Z.ones 7). rewrite Z.land_ones by lia. reflexivity.
  - rewrite <- Z.land_assoc. change (Z.land 127 128) with 0%Z. apply Z.land_0_r.
Qed.

Lemma decode_varint_aux_encode (i : nat) (acc v : Z) (rest : list Z) :
  (i <= 10)%nat ->
  (0 <= acc < 2 ^ (70 - 7 * Z.of_nat i))%Z ->
  (0 <= v < 2 ^ (64 - (70 - 7 * Z.of_nat i)))%Z ->
  decode_varint_aux i acc (70 - 7 * Z.of_nat i) (encode_varint_aux i v ++ rest) =
  Ok ((acc + v * 2 ^ (70 - 7 * Z.of_nat i))%Z, rest).
Proof.
  revert acc v. induction i as [|i IH]; intros acc v Hi Hacc Hv.
  - simpl in Hv. lia.
  - cbn [encode_varint_aux decode_varint_aux].
    set (s := (70 - 7 * Z.of_nat (S i))%Z) in *.
    assert (Hs : (0 <= s)%Z) by lia.
    destruct (Z.ltb_spec v 128) as [Hv128|Hv128].
    + simpl. destruct (Z.ltb_spec v 128); [|lia].
      rewrite lor_shiftl_add by lia.
      change 127%Z with (Z.ones 7). rewrite Z.land_ones by lia. rewrite Z.mod_small by lia.
      destruct (Z.eqb_spec s 63) as [E|E]; simpl.
      * assert (i = 0%nat) by lia. subst i. subst s. simpl in Hv.
        destruct (Z.ltb_spec 1 v); [lia|]. reflexivity.
      * reflexivity.
    + simpl. rewrite varint_byte_value. destruct (Z.ltb_spec (v mod 128 + 128) 128).
      { pose proof (Z.mod_pos_bound v 128). lia. }
      assert (Hi' : (i <= 10)%nat) by lia.
      assert (Hsi : (s + 7 = 70 - 7 * Z.of_nat i)%Z) by (subst s; lia).
      rewrite Hsi.
      replace (Z.land (v mod 128 + 128) 127) with (v mod 128)%Z.
      2:{ rewrite <- varint_byte_value. symmetry. apply varint_byte_low. }
      rewrite lor_shiftl_add by (try lia; pose proof (Z.mod_pos_bound v 128); lia).
      rewrite Z.shiftr_div_pow2 by lia. change (2 ^ 7)%Z with 128%Z.
      pose proof (Z.mod_pos_bound v 128).
      assert (Hpow : (2 ^ (s + 7) = 2 ^ s * 128)%Z) by (rewrite Z.pow_add_r by lia; reflexivity).
      rewrite IH; [| lia | rewrite <- Hsi, Hpow; nia |].
      * f_equal. f_equal. rewrite <- Hsi, Hpow.
        rewrite (Z.div_mod v 128) at 3 by lia. ring.
      * split; [apply Z.div_pos; lia|]. rewrite <- Hsi.
        apply Z.div_lt_upper_bound; [lia|].
        destruct (Nat.eq_dec i 0) as [->|Hi0]; [subst s; simpl in Hv; lia|].
        replace (64 - s)%Z with (64 - (s + 7) + 7)%Z in Hv by lia.
        rewrite Z.pow_add_r in Hv by lia. lia.
Qed.

Lemma decode_varint_encode (v : Z) (rest : list Z) :
  (0 <= v < 2 ^ 64)%Z -> decode_varint (encode_varint v ++ rest) = Ok (v, rest).
Proof.
  intros Hv. unfold decode_varint, encode_varint.
  assert (H1 : (0 <= 0 < 2 ^ (70 - 7 * Z.of_nat 10))%Z) by (simpl; lia).
  assert (H2 : (0 <= v < 2 ^ (64 - (70 - 7 * Z.of_nat 10)))%Z) by (simpl; lia).
  pose proof (decode_varint_aux_encode 10 0 v rest ltac:(lia) H1 H2) as E.
  change (70 - 7 * Z.of_nat 10)%Z with 0%Z in E. rewrite E. f_equal. f_equal. lia.
Qed.

Lemma encode_varint_nonempty (v : Z) : encode_varint v <> [].
Proof. unfold encode_varint. cbn [encode_varint_aux]. destruct (v <? 128)%Z; discriminate. Qed.

Lemma decode_fixed_encode (n : nat) (v : Z) (rest : list Z) :
  (0 <= v < 2 ^ (8 * Z.of_nat n))%Z -> decode_fixed n (encode_fixed n v ++ rest) = Ok (v, rest).
Proof.
  revert v. induction n as [|n IH]; intros v Hv.
  - simpl in Hv. simpl. f_equal. f_equal. lia.
  - simpl. rewrite IH.
    + simpl. f_equal. f_equal. rewrite lor_shiftl_add.
      * change 255%Z with (Z.ones 8). rewrite Z.land_ones, Z.shiftr_div_pow2 by lia.
        change (2 ^ 8)%Z with 256%Z. rewrite (Z.div_mod v 256) at 3 by lia. ring.
      * lia.
      * change 255%Z with (Z.ones 8). rewrite Z.land_ones by lia.
        change (2 ^ 8)%Z with 256%Z. apply Z.mod_pos_bound. lia.
    + rewrite Z.shiftr_div_pow2 by lia. change (2 ^ 8)%Z with 256%Z. split.
      * apply Z.div_pos; lia.
      * apply Z.div_lt_upper_bound; [lia|].
        replace (8 * Z.of_nat (S n))%Z with (8 * Z.of_nat n + 8)%Z in Hv by lia.
        rewrite Z.pow_add_r in Hv by lia. lia.
Qed.

Lemma length_encode_fixed (n : nat) (v : Z) : length (encode_fixed n v) = n.
Proof. revert v. induction n; intros v; simpl; [reflexivity|]. rewrite IHn. reflexivity. Qed.

Lemma decode_key_encode (number : Z) (wt : WireType) (rest : list Z) :
  (1 <= number < 2 ^ 29)%Z -> decode_key (encode_key number wt ++ rest) = Ok (number, wt, rest).
Proof.
  intros Hn. unfold decode_key, encode_key.
  assert (Hc : (0 <= wire_type_code wt < 8)%Z) by (destruct wt; simpl; lia).
  assert (Hk : Z.lor (Z.shiftl number 3) (wire_type_code wt) = (number * 8 + wire_type_code wt)%Z).
  { rewrite Z.lor_comm, lor_shiftl_add by (change (2 ^ 3)%Z with 8%Z; lia).
    change (2 ^ 3)%Z with 8%Z. lia. }
  rewrite Hk. rewrite decode_varint_encode by lia. simpl.
  destruct (Z.ltb_spec 4294967295 (number * 8 + wire_type_code wt)); [lia|].
  assert (Hl : Z.land (number * 8 + wire_type_code wt) 7 = wire_type_code wt).
  { change 7%Z with (Z.ones 3). rewrite Z.land_ones by lia. change (2 ^ 3)%Z with 8%Z.
    rewrite Z.add_comm, Z.mod_add by lia. apply Z.mod_small. lia. }
  rewrite Hl.
  assert (Hw : wire_type_of_code (wire_type_code wt) = Ok wt) by (destruct wt; reflexivity).
  rewrite Hw. simpl.
  assert (Hs : Z.shiftr (number * 8 + wire_type_code wt) 3 = number).
  { rewrite Z.shiftr_div_pow2 by lia. change (2 ^ 3)%Z with 8%Z.
    rewrite Z.div_add_l by lia. rewrite Z.div_small by lia. lia. }
  rewrite Hs. destruct (Z.ltb_spec number 1); [lia|]. reflexivity.
Qed.

Lemma decode_length_delimited_encode (payload rest : list Z) :
  (Z.of_nat (length payload) < 2 ^ 64)%Z ->
  decode_length_delimited (encode_length_delimited payload ++ rest) = Ok (payload, rest).
Proof.
  intros Hl. unfold decode_length_delimited, encode_length_delimited.
  rewrite <- app_assoc, decode_varint_encode by lia. simpl.
  rewrite length_app. destruct (Z.ltb_spec (Z.of_nat (length payload + length rest)) (Z.of_nat (length payload))); [lia|].
  rewrite Nat2Z.id. rewrite take_app_length, drop_app_length. reflexivity.
Qed.

(** A payload the writer can produce. *)
Lemma read_record_encode (number : Z) (p : Payload) (rest : list Z) :
  (1 <= number < 2 ^ 29)%Z -> payload_ok p ->
  read_record (encode_record number p ++ rest) =
  Ok ({| wr_number := number; wr_payload := p; wr_raw := encode_record number p |}, rest).
Proof.
  intros Hn Hp. unfold read_record, encode_record.
  rewrite <- app_assoc, decode_key_encode by exact Hn.
  unfold mbind, result_mbind, result_bind at 1.
  assert (Hpl : exists rest', read_payload (payload_wire_type p) (encode_payload p ++ rest) = Ok (p, rest') /\ rest' = rest).
  { exists rest. split; [|reflexivity].
    destruct p; cbn [payload_ok] in Hp; cbn [encode_payload payload_wire_type read_payload].
    - rewrite decode_varint_encode by exact Hp. reflexivity.
    - rewrite decode_fixed_encode by (simpl; lia). reflexivity.
    - rewrite decode_length_delimited_encode by exact Hp. reflexivity.
    - rewrite decode_fixed_encode by (simpl; lia). reflexivity. }
  destruct Hpl as [rest' [Hpl ->]].
  unfold mbind, result_mbind in Hpl. rewrite Hpl. cbn [result_bind].
  f_equal. f_equal. f_equal.
  rewrite app_assoc, length_app.
  replace (length (encode_key number (payload_wire_type p) ++ encode_payload p) + length rest - length rest)%nat
    with (length (encode_key number (payload_wire_type p) ++ encode_payload p)) by lia.
  apply take_app_length.
Qed.

(** ** Codec proofs *)

Import Dynamic.
Open Scope Z_scope.
Open Scope list_scope.

Lemma result_bind_Ok {E A B} (r : result E A) (k : A -> result E B) (x : B) :
  result_bind r k = Ok x -> exists a, r = Ok a /\ k a = Ok x.
Proof. destruct r; simpl; [eauto | discriminate]. Qed.

Ltac bind_inv H :=
  let a := fresh "a" in let Ha := fresh "Ha" in
  unfold mbind, result_mbind in H;
  apply result_bind_Ok in H; destruct H as [a [Ha H]].

Lemma decode_varint_aux_consume (n : nat) (acc s : Z) (bytes : list Z) (v : Z) (rest : list Z) :
  decode_varint_aux n acc s bytes = Ok (v, rest) ->
  exists c, bytes = c ++ rest /\ c <> [] /\
            forall rest', decode_varint_aux n acc s (c ++ rest') = Ok (v, rest').
Proof.
  revert acc s bytes. induction n as [|n IH]; intros acc s bytes H; [discriminate|].
  destruct bytes as [|b r]; [discriminate|].
  cbn [decode_varint_aux] in H |- *.
  destruct (b <? 128) eqn:Hb.
  - destruct (_ && _) eqn:Hc; [discriminate|]. injection H as <- <-.
    exists [b]. split; [reflexivity|]. split; [discriminate|]. intros rest'.
    cbn [app]. rewrite Hb, Hc. reflexivity.
  - apply IH in H. destruct H as [c [-> [Hc Hr]]].
    exists (b :: c). split; [reflexivity|]. split; [discriminate|].
    intros rest'. cbn [app]. rewrite Hb. apply Hr.
Qed.

Lemma decode_varint_consume (bytes : list Z) (v : Z) (rest : list Z) :
  decode_varint bytes = Ok (v, rest) ->
  exists c, bytes = c ++ rest /\ c <> [] /\ forall rest', decode_varint (c ++ rest') = Ok (v, rest').
Proof. apply decode_varint_aux_consume. Qed.

Lemma decode_fixed_consume (n : nat) (bytes : list Z) (v : Z) (rest : list Z) :
  decode_fixed n bytes = Ok (v, rest) ->
  exists c, bytes = c ++ rest /\ length c = n /\ forall rest', decode_fixed n (c ++ rest') = Ok (v, rest').
Proof.
  revert bytes v rest. induction n as [|n IH]; intros bytes v rest H.
  - cbn in H. injection H as <- <-. exists []. split; [reflexivity|]. split; [reflexivity|].
    intros rest'. reflexivity.
  - destruct bytes as [|b r]; [discriminate|]. cbn [decode_fixed] in H.
    bind_inv H. destruct a as [p r']. cbn in H. injection H as <- <-.
    apply IH in Ha. destruct Ha as [c [-> [Hc Hr]]].
    exists (b :: c). split; [reflexivity|]. split; [simpl; lia|].
    intros rest'. cbn [app decode_fixed]. unfold mbind, result_mbind. rewrite Hr. reflexivity.
Qed.

Lemma decode_length_delimited_consume (bytes b rest : list Z) :
  decode_length_delimited bytes = Ok (b, rest) ->
  exists c, bytes = c ++ rest /\ (length b < length c)%nat /\
            forall rest', decode_length_delimited (c ++ rest') = Ok (b, rest').
Proof.
  unfold decode_length_delimited. intros H. bind_inv H. destruct a as [len r].
  apply decode_varint_consume in Ha. destruct Ha as [c1 [-> [Hc1 Hr1]]].
  destruct (Z.ltb_spec (Z.of_nat (length r)) len) as [Hlt|Hge]; [discriminate|].
  injection H as <- <-.
  set (k := Z.to_nat len).
  assert (Hk : (k <= length r)%nat) by (unfold k; lia).
  exists (c1 ++ take k r). split.
  { rewrite <- app_assoc, take_drop. reflexivity. }
  split.
  { rewrite length_app, length_take. destruct c1; [congruence|]. simpl. lia. }
  intros rest'. rewrite <- app_assoc. unfold mbind, result_mbind. rewrite Hr1. cbn [result_bind].
  rewrite length_app, length_take.
  destruct (Z.ltb_spec (Z.of_nat (Nat.min k (length r) + length rest')) len) as [Hlt'|Hge'];
    [unfold k in *; lia|].
  fold k. rewrite take_app_length' by (rewrite length_take; lia).
  rewrite drop_app_length' by (rewrite length_take; lia). reflexivity.
Qed.

Lemma decode_key_consume (bytes : list Z) (number : Z) (wt : WireType) (rest : list Z) :
  decode_key bytes = Ok (number, wt, rest) ->
  exists c, bytes = c ++ rest /\ c <> [] /\ forall rest', decode_key (c ++ rest') = Ok (number, wt, rest').
Proof.
  unfold decode_key. intros H. bind_inv H. destruct a as [key r].
  apply decode_varint_consume in Ha. destruct Ha as [c [-> [Hc Hr]]].
  cbn [result_bind] in H.
  destruct (4294967295 <? key) eqn:E1; [discriminate|].
  bind_inv H. destruct (Z.shiftr key 3 <? 1) eqn:E2; [discriminate|].
  injection H as <- <- <-.
  exists c. split; [reflexivity|]. split; [exact Hc|]. intros rest'.
  unfold mbind, result_mbind. rewrite Hr. cbn [result_bind]. rewrite E1.
  unfold mbind, result_mbind in Ha |- *. rewrite Ha. cbn [result_bind]. rewrite E2. reflexivity.
Qed.

Lemma read_payload_consume (wt : WireType) (bytes : list Z) (p : Payload) (rest : list Z) :
  read_payload wt bytes = Ok (p, rest) ->
  exists c, bytes = c ++ rest /\
            (forall rest', read_payload wt (c ++ rest') = Ok (p, rest')) /\
            (forall b, p = PLengthDelimited b -> (length b < length c)%nat).
Proof.
  intros H. destruct wt; cbn [read_payload] in H |- *; try discriminate;
    bind_inv H; destruct a as [x r]; cbn in H; injection H as <- <-.
  - apply decode_varint_consume in Ha. destruct Ha as [c [-> [_ Hr]]].
    exists c. split; [reflexivity|]. split; [|discriminate].
    intros rest'. unfold mbind, result_mbind. rewrite Hr. reflexivity.
  - apply decode_fixed_consume in Ha. destruct Ha as [c [-> [_ Hr]]].
    exists c. split; [reflexivity|]. split; [|discriminate].
    intros rest'. unfold mbind, result_mbind. rewrite Hr. reflexivity.
  - apply decode_length_delimited_consume in Ha. destruct Ha as [c [-> [Hl Hr]]].
    exists c. split; [reflexivity|]. split; [|intros b Hb; injection Hb as <-; exact Hl].
    intros rest'. unfold mbind, result_mbind. rewrite Hr. reflexivity.
  - apply decode_fixed_consume in Ha. destruct Ha as [c [-> [_ Hr]]].
    exists c. split; [reflexivity|]. split; [|discriminate].
    intros rest'. unfold mbind, result_mbind. rewrite Hr. reflexivity.
Qed.

(** A record occupies exactly its raw bytes, whatever follows them. *)
Lemma read_record_consume (bytes : list Z) (r : WireRecord) (rest : list Z) :
  read_record bytes = Ok (r, rest) ->
  bytes = wr_raw r ++ rest /\ wr_raw r <> [] /\
  (forall rest', read_record (wr_raw r ++ rest') = Ok (r, rest')) /\
  (forall b, wr_payload r = PLengthDelimited b -> (length b < length (wr_raw r))%nat).
Proof.
  unfold read_record. intros H. bind_inv H. destruct a as [[number wt] r1].
  apply decode_key_consume in Ha. destruct Ha as [c1 [-> [Hc1 Hk]]].
  cbn [result_bind] in H. bind_inv H. destruct a as [p r2].
  apply read_payload_consume in Ha. destruct Ha as [c2 [-> [Hp Hb]]].
  injection H as <- <-. cbn [wr_raw wr_payload].
  assert (Hraw : forall rest', take (length (c1 ++ c2 ++ rest') - length rest') (c1 ++ c2 ++ rest') = c1 ++ c2).
  { intros rest'. rewrite app_assoc, length_app.
    replace (length (c1 ++ c2) + length rest' - length rest')%nat with (length (c1 ++ c2)) by lia.
    apply take_app_length. }
  rewrite Hraw. split; [rewrite app_assoc; reflexivity|].
  split; [destruct c1; [congruence|discriminate]|].
  split.
  - intros rest'. rewrite <- app_assoc. unfold mbind, result_mbind. rewrite Hk. cbn [result_bind].
    unfold mbind, result_mbind in Hp. rewrite Hp. cbn [result_bind]. rewrite Hraw. reflexivity.
  - intros b Hpb. specialize (Hb b Hpb). rewrite length_app. lia.
Qed.

Lemma merge_loop_nil (fuel : nat) (pool : Pool) (m : DynamicMessage) :
  merge_loop fuel pool [] m = Ok m.
Proof. destruct fuel; reflexivity. Qed.

(** [merge_record] only calls the decoder on the payload of a
    length-delimited record. *)
Lemma merge_record_ext (dec1 dec2 : DynamicMessage -> list Z -> result DecodeError DynamicMessage)
    (pool : Pool) (r : WireRecord) (m : DynamicMessage) :
  (forall b, wr_payload r = PLengthDelimited b -> forall em, dec1 em b = dec2 em b) ->
  merge_record dec1 pool r m = merge_record dec2 pool r m.
Proof.
  intros H. unfold merge_record. destruct m as [d fields unknown].
  destruct (get_message pool d) as [md|]; [|reflexivity].
  destruct (find_field md (wr_number r)) as [fd|]; [|reflexivity].
  destruct (wr_payload r) as [v|v|b|v] eqn:Ep;
    [reflexivity| reflexivity| |reflexivity].
  specialize (H b eq_refl). destruct (is_map pool fd).
  - destruct (map_entry_kinds pool fd) as [[[eid kk] vk]|]; [|reflexivity].
    rewrite H. reflexivity.
  - destruct (fd_cardinality fd); destruct (fd_kind fd); cbv zeta; try rewrite H; reflexivity.
Qed.

(** Any fuel at least the input length gives the same result. *)
Lemma merge_loop_fuel (f1 f2 : nat) (pool : Pool) (bytes : list Z) (m : DynamicMessage) :
  (length bytes <= f1)%nat -> (length bytes <= f2)%nat ->
  merge_loop f1 pool bytes m = merge_loop f2 pool bytes m.
Proof.
  revert f2 bytes m. induction f1 as [|f1 IH]; intros f2 bytes m H1 H2.
  - destruct bytes; [rewrite !merge_loop_nil; reflexivity|simpl in H1; lia].
  - destruct bytes as [|x xs]; [rewrite !merge_loop_nil; reflexivity|].
    destruct f2 as [|f2]; [simpl in H2; lia|].
    cbn [merge_loop]. destruct (read_record (x :: xs)) as [[r rest]|e] eqn:E; [|reflexivity].
    unfold mbind, result_mbind. cbn [result_bind].
    apply read_record_consume in E. destruct E as [Hb [Hne [_ Hpl]]].
    assert (Hlen : (length (x :: xs) = length (wr_raw r) + length rest)%nat)
      by (rewrite Hb, length_app; reflexivity).
    assert (Hraw : (1 <= length (wr_raw r))%nat) by (destruct (wr_raw r); [congruence|simpl; lia]).
    rewrite (merge_record_ext (fun em b => merge_loop f1 pool b em) (fun em b => merge_loop f2 pool b em)).
    + destruct (merge_record _ pool r m) as [m'|e]; [|reflexivity]. cbn [result_bind].
      apply IH; lia.
    + intros b Hp em. specialize (Hpl b Hp). apply IH; lia.
Qed.

(** Decoding a concatenation continues from the message decoded so far. *)
Lemma merge_loop_app (fuel : nat) (pool : Pool) (b1 b2 : list Z) (m m1 : DynamicMessage) :
  merge_loop fuel pool b1 m = Ok m1 -> (length (b1 ++ b2) <= fuel)%nat ->
  merge_loop fuel pool (b1 ++ b2) m = merge_loop fuel pool b2 m1.
Proof.
  revert b1 m. induction fuel as [|f IH]; intros b1 m H Hl.
  - destruct b1; [|simpl in Hl; lia]. rewrite merge_loop_nil in H. injection H as <-. reflexivity.
  - destruct b1 as [|x xs]; [rewrite merge_loop_nil in H; injection H as <-; reflexivity|].
    cbn [merge_loop] in H. bind_inv H. destruct a as [r rest]. cbn [result_bind] in H.
    bind_inv H.
    apply read_record_consume in Ha. destruct Ha as [Hb [Hne [Hrd _]]].
    assert (Hraw : (1 <= length (wr_raw r))%nat) by (destruct (wr_raw r); [congruence|simpl; lia]).
    assert (Hlen : (length ((x :: xs) ++ b2) = length (wr_raw r) + length rest + length b2)%nat)
      by (rewrite Hb, !length_app; lia).
    rewrite Hb, <- app_assoc.
    destruct (wr_raw r) as [|y ys] eqn:Er; [congruence|].
    cbn [app merge_loop]. rewrite (app_comm_cons ys (rest ++ b2) y), Hrd. cbn [result_bind].
    unfold mbind, result_mbind in Ha0 |- *. cbn [result_bind]. rewrite Ha0. cbn [result_bind].
    rewrite (IH rest a H) by (rewrite length_app in *; simpl in *; lia).
    destruct b2 as [|z zs]; [rewrite !merge_loop_nil; reflexivity|].
    transitivity (merge_loop (S f) pool (z :: zs) m1); [|reflexivity].
    apply merge_loop_fuel; simpl in *; lia.
Qed.

(** ** Scalar round trips *)

Lemma mod_pow2_mod (z : Z) (a b : Z) :
  0 <= a <= b -> (z mod 2 ^ b) mod 2 ^ a = z mod 2 ^ a.
Proof.
  intros Hab. apply Z.mod_mod_divide.
  exists (2 ^ (b - a)). rewrite <- Z.pow_add_r by lia. f_equal. lia.
Qed.

Lemma sign_wrap (z w : Z) :
  0 <= w -> - 2 ^ w <= z < 2 ^ w ->
  (let x := z mod 2 ^ (w + 1) in if 2 ^ w <=? x then x - 2 ^ (w + 1) else x) = z.
Proof.
  intros Hw Hz. cbv zeta. rewrite Z.pow_add_r by lia. rewrite Z.pow_1_r.
  destruct (Z_lt_le_dec z 0) as [Hn|Hp].
  - rewrite <- (Z.mod_unique z (2 ^ w * 2) (-1) (z + 2 ^ w * 2)) by lia.
    destruct (Z.leb_spec (2 ^ w) (z + 2 ^ w * 2)); lia.
  - rewrite Z.mod_small by lia. destruct (Z.leb_spec (2 ^ w) z); lia.
Qed.

Lemma to_i32_wrap (z : Z) (b : Z) : 32 <= b -> - 2 ^ 31 <= z < 2 ^ 31 -> to_i32 (z mod 2 ^ b) = z.
Proof.
  intros Hb Hz. unfold to_i32. rewrite mod_pow2_mod by lia.
  apply (sign_wrap z 31); lia.
Qed.

Lemma to_i64_wrap (z : Z) : - 2 ^ 63 <= z < 2 ^ 63 -> to_i64 (z mod 2 ^ 64) = z.
Proof.
  intros Hz. unfold to_i64. rewrite Z.mod_mod by lia. apply (sign_wrap z 63); lia.
Qed.

Lemma lnot_eq (a : Z) : Z.lnot a = - a - 1.
Proof. pose proof (Z.add_lnot_diag a). lia. Qed.

Lemma zigzag_value (z w : Z) :
  0 < w -> - 2 ^ w <= z < 2 ^ w ->
  Z.lxor (Z.shiftl z 1) (Z.shiftr z w) mod 2 ^ (w + 1) = (if 0 <=? z then 2 * z else - 2 * z - 1).
Proof.
  intros Hw Hz. rewrite Z.shiftl_mul_pow2, Z.pow_1_r by lia. rewrite Z.shiftr_div_pow2 by lia.
  rewrite Z.pow_add_r, Z.pow_1_r by lia.
  destruct (Z.leb_spec 0 z) as [Hp|Hn].
  - rewrite (Z.div_small z) by lia. rewrite Z.lxor_0_r. rewrite Z.mod_small by lia. lia.
  - rewrite <- (Z.div_unique z (2 ^ w) (-1) (z + 2 ^ w)) by lia.
    rewrite Z.lxor_m1_r, lnot_eq. rewrite Z.mod_small by lia. lia.
Qed.

Lemma land_one (a : Z) : Z.land a 1 = a mod 2.
Proof. change (Z.land a 1) with (Z.land a (Z.ones 1)). rewrite Z.land_ones by lia. reflexivity. Qed.

Lemma unzigzag_value (z : Z) :
  unzigzag (if 0 <=? z then 2 * z else - 2 * z - 1) = z.
Proof.
  unfold unzigzag. destruct (Z.leb_spec 0 z) as [Hp|Hn].
  - rewrite Z.shiftr_div_pow2, Z.pow_1_r by lia.
    replace (2 * z) with (z * 2) by lia. rewrite Z.div_mul by lia.
    replace (Z.land (z * 2) 1) with 0.
    + rewrite Z.lxor_0_r. reflexivity.
    + rewrite land_one, Z.mod_mul by lia. reflexivity.
  - rewrite Z.shiftr_div_pow2, Z.pow_1_r by lia.
    rewrite <- (Z.div_unique (- 2 * z - 1) 2 (- z - 1) 1) by lia.
    replace (Z.land (- 2 * z - 1) 1) with 1.
    + rewrite Z.lxor_m1_r, lnot_eq. lia.
    + rewrite land_one. apply (Z.mod_unique _ 2 (- z - 1)); lia.
Qed.

Lemma in_range_spec (lo hi b : Z) : in_range lo hi b = true <-> lo <= b <= hi.
Proof. unfold in_range. rewrite andb_true_iff, !Z.leb_le. reflexivity. Qed.

Lemma zigzag32_value (z : Z) :
  - 2 ^ 31 <= z < 2 ^ 31 -> zigzag32 z = (if 0 <=? z then 2 * z else - 2 * z - 1).
Proof. intros Hz. apply (zigzag_value z 31); lia. Qed.

Lemma zigzag64_value (z : Z) :
  - 2 ^ 63 <= z < 2 ^ 63 -> zigzag64 z = (if 0 <=? z then 2 * z else - 2 * z - 1).
Proof. intros Hz. apply (zigzag_value z 63); lia. Qed.

(** Every scalar value reads back from the payload it is written to. *)
Lemma scalar_roundtrip (k : Kind) (v : Value) (n : Z) :
  value_is_valid k v = true -> (forall id, k <> KMessage id) ->
  decode_scalar k n (scalar_payload k v) = Ok v /\
  payload_wire_type (scalar_payload k v) = kind_wire_type k /\
  (kind_wire_type k <> WLengthDelimited -> payload_ok (scalar_payload k v)).
Proof.
  intros Hv Hk.
  destruct k; try (exfalso; eapply Hk; reflexivity); destruct v; cbn in Hv; try discriminate;
    try (apply in_range_spec in Hv);
    cbn [scalar_payload decode_scalar payload_wire_type kind_wire_type payload_ok].
  - split; [reflexivity|]. split; [reflexivity|]. intros _. lia.
  - split; [reflexivity|]. split; [reflexivity|]. intros _. lia.
  - rewrite to_i32_wrap by lia. split; [reflexivity|]. split; [reflexivity|]. intros _.
    apply Z.mod_pos_bound. lia.
  - rewrite to_i64_wrap by lia. split; [reflexivity|]. split; [reflexivity|]. intros _.
    apply Z.mod_pos_bound. lia.
  - rewrite Z.mod_small by lia. split; [reflexivity|]. split; [reflexivity|]. intros _. lia.
  - split; [reflexivity|]. split; [reflexivity|]. intros _. lia.
  - rewrite zigzag32_value by lia. rewrite Z.mod_small by (destruct (Z.leb_spec 0 z); lia).
    rewrite unzigzag_value. split; [reflexivity|]. split; [reflexivity|]. intros _.
    destruct (Z.leb_spec 0 z); lia.
  - rewrite zigzag64_value by lia.
    rewrite unzigzag_value. split; [reflexivity|]. split; [reflexivity|]. intros _.
    destruct (Z.leb_spec 0 z); lia.
  - split; [reflexivity|]. split; [reflexivity|]. intros _. lia.
  - split; [reflexivity|]. split; [reflexivity|]. intros _. lia.
  - rewrite to_i32_wrap by lia. split; [reflexivity|]. split; [reflexivity|]. intros _.
    apply Z.mod_pos_bound. lia.
  - rewrite to_i64_wrap by lia. split; [reflexivity|]. split; [reflexivity|]. intros _.
    apply Z.mod_pos_bound. lia.
  - split; [destruct b; reflexivity|]. split; [reflexivity|]. intros _. destruct b; lia.
  - apply andb_true_iff in Hv. destruct Hv as [_ Hu]. rewrite Hu.
    split; [reflexivity|]. split; [reflexivity|]. intros H; exfalso; apply H; reflexivity.
  - split; [reflexivity|]. split; [reflexivity|]. intros H; exfalso; apply H; reflexivity.
  - rewrite to_i32_wrap by lia. split; [reflexivity|]. split; [reflexivity|]. intros _.
    apply Z.mod_pos_bound. lia.
Qed.

Lemma encode_payload_nonempty (p : Payload) : encode_payload p <> [].
Proof.
  destruct p; cbn [encode_payload].
  - apply encode_varint_nonempty.
  - discriminate.
  - unfold encode_length_delimited. pose proof (encode_varint_nonempty (Z.of_nat (length bytes))).
    destruct (encode_varint _); [congruence|discriminate].
  - discriminate.
Qed.

Lemma value_payload_scalar (pool : Pool) (k : Kind) (v : Value) :
  (forall m, v <> VMessage m) -> value_payload pool k v = scalar_payload k v.
Proof. intros H. destruct v; try reflexivity. exfalso. eapply H. reflexivity. Qed.

Lemma valid_not_message (k : Kind) (v : Value) :
  value_is_valid k v = true -> (forall id, k <> KMessage id) -> forall m, v <> VMessage m.
Proof. intros Hv Hk m ->. destruct k; try discriminate. eapply Hk. reflexivity. Qed.

Lemma packable_not_message (k : Kind) : packable k = true -> forall id, k <> KMessage id.
Proof. intros Hp id ->. discriminate. Qed.

Lemma read_packed_element_encode (k : Kind) (v : Value) (rest : list Z) :
  packable k = true -> value_is_valid k v = true ->
  read_packed_element k (encode_payload (scalar_payload k v) ++ rest) = Ok (scalar_payload k v, rest).
Proof.
  intros Hp Hv. destruct (scalar_roundtrip k v 0 Hv (packable_not_message k Hp)) as [_ [Hwt Hok]].
  assert (Hld : kind_wire_type k <> WLengthDelimited) by (destruct k; discriminate).
  specialize (Hok Hld). unfold read_packed_element. rewrite <- Hwt.
  destruct (scalar_payload k v) as [x|x|b|x]; cbn [payload_wire_type encode_payload payload_ok] in *.
  - rewrite decode_varint_encode by exact Hok. reflexivity.
  - rewrite decode_fixed_encode by (simpl; lia). reflexivity.
  - congruence.
  - rewrite decode_fixed_encode by (simpl; lia). reflexivity.
Qed.

Lemma packed_bytes_length (k : Kind) (vp : Kind -> Value -> Payload) (l : list Value) :
  (length l <= length (packed_bytes k vp l))%nat.
Proof.
  induction l as [|x l IH]; simpl; [lia|]. rewrite length_app.
  pose proof (encode_payload_nonempty (vp k x)). destruct (encode_payload (vp k x)); [congruence|].
  simpl. lia.
Qed.

Lemma decode_packed_encode (pool : Pool) (k : Kind) (n : Z) (l : list Value) (fuel : nat) :
  packable k = true -> Forall (fun x => value_is_valid k x = true) l -> (length l <= fuel)%nat ->
  decode_packed fuel k n (packed_bytes k (value_payload pool) l) = Ok l.
Proof.
  intros Hp Hl. revert fuel. induction Hl as [|x l Hx Hl IH]; intros fuel Hf; [destruct fuel; reflexivity|].
  destruct fuel as [|fuel]; [simpl in Hf; lia|].
  cbn [packed_bytes]. rewrite value_payload_scalar by (apply (valid_not_message k); [exact Hx|apply packable_not_message, Hp]).
  pose proof (encode_payload_nonempty (scalar_payload k x)) as Hne.
  destruct (encode_payload (scalar_payload k x)) as [|y ys] eqn:Ee; [congruence|].
  cbn [app decode_packed]. rewrite (app_comm_cons ys), <- Ee, read_packed_element_encode by assumption.
  unfold mbind, result_mbind. cbn [result_bind].
  destruct (scalar_roundtrip k x n Hx (packable_not_message k Hp)) as [Hd _].
  rewrite Hd. cbn [result_bind]. rewrite IH by (simpl in Hf; lia). reflexivity.
Qed.

(** ** Structure of values *)

Lemma Value_ind2 (P : Value -> Prop)
  (Hmsg : forall d fields u, Forall (fun e => P e.2) fields -> P (VMessage (MkDynamicMessage d fields u)))
  (Hlist : forall l, Forall P l -> P (VList l))
  (Hmap : forall l, Forall (fun e => P e.2) l -> P (VMap l))
  (Hscalar : forall v, (forall m, v <> VMessage m) -> (forall l, v <> VList l) -> (forall l, v <> VMap l) -> P v) :
  forall v, P v.
Proof.
  fix F 1. intros v. destruct v as [b|z|z|z|z|z|z|s|s|z|[d fields u]|l|l].
  all: try (apply Hscalar; intros; discriminate).
  - apply Hmsg. induction fields as [|[n x] fs IH]; constructor; [apply F|exact IH].
  - apply Hlist. induction l as [|x l IH]; constructor; [apply F|exact IH].
  - apply Hmap. induction l as [|[k x] l IH]; constructor; [apply F|exact IH].
Qed.

Lemma value_wf_message (pool : Pool) (d : nat) (fields : list (Z * Value)) (u : list UnknownField) :
  value_wf pool (VMessage (MkDynamicMessage d fields u)) =
  message_local_ok pool d fields u && forallb (fun e => value_wf pool e.2) fields.
Proof.
  simpl. f_equal. induction fields as [|[n x] fs IH]; simpl; [reflexivity|]. rewrite IH. reflexivity.
Qed.

Lemma value_wf_list (pool : Pool) (l : list Value) :
  value_wf pool (VList l) = forallb (value_wf pool) l.
Proof. simpl. induction l as [|x l IH]; simpl; [reflexivity|]. rewrite IH. reflexivity. Qed.

Lemma value_wf_map (pool : Pool) (l : list (MapKey * Value)) :
  value_wf pool (VMap l) = forallb (fun e => value_wf pool e.2) l.
Proof. simpl. induction l as [|[k x] l IH]; simpl; [reflexivity|]. rewrite IH. reflexivity. Qed.

Lemma value_no_nan_message (d : nat) (fields : list (Z * Value)) (u : list UnknownField) :
  value_no_nan (VMessage (MkDynamicMessage d fields u)) = forallb (fun e => value_no_nan e.2) fields.
Proof. simpl. induction fields as [|[n x] fs IH]; simpl; [reflexivity|]. rewrite IH. reflexivity. Qed.

Lemma value_no_nan_list (l : list Value) : value_no_nan (VList l) = forallb value_no_nan l.
Proof. simpl. induction l as [|x l IH]; simpl; [reflexivity|]. rewrite IH. reflexivity. Qed.

Lemma value_no_nan_map (l : list (MapKey * Value)) :
  value_no_nan (VMap l) = forallb (fun e => value_no_nan e.2) l.
Proof. simpl. induction l as [|[k x] l IH]; simpl; [reflexivity|]. rewrite IH. reflexivity. Qed.

Lemma maps_keys_unique_message (d : nat) (fields : list (Z * Value)) (u : list UnknownField) :
  maps_keys_unique (VMessage (MkDynamicMessage d fields u)) = forallb (fun e => maps_keys_unique e.2) fields.
Proof. simpl. induction fields as [|[n x] fs IH]; simpl; [reflexivity|]. rewrite IH. reflexivity. Qed.

Lemma maps_keys_unique_list (l : list Value) : maps_keys_unique (VList l) = forallb maps_keys_unique l.
Proof. simpl. induction l as [|x l IH]; simpl; [reflexivity|]. rewrite IH. reflexivity. Qed.

Lemma maps_keys_unique_map (l : list (MapKey * Value)) :
  maps_keys_unique (VMap l) = keys_unique l && forallb (fun e => maps_keys_unique e.2) l.
Proof. simpl. f_equal. induction l as [|[k x] l IH]; simpl; [reflexivity|]. rewrite IH. reflexivity. Qed.

(** ** Present fields *)

Lemma lookup_field_below (n : Z) (acc : list (Z * Value)) :
  Forall (fun e => e.1 < n) acc -> lookup_field n acc = None.
Proof.
  induction 1 as [|[n' x] acc Hlt _ IH]; [reflexivity|]. simpl in *.
  destruct (Z.eqb_spec n n'); [lia|exact IH].
Qed.

Lemma lookup_field_last (n : Z) (x : Value) (acc : list (Z * Value)) :
  Forall (fun e => e.1 < n) acc -> lookup_field n (acc ++ [(n, x)]) = Some x.
Proof.
  induction 1 as [|[n' y] acc Hlt _ IH]; simpl; [rewrite Z.eqb_refl; reflexivity|].
  simpl in Hlt. destruct (Z.eqb_spec n n'); [lia|exact IH].
Qed.

Lemma insert_field_below (n : Z) (v : Value) (acc cur : list (Z * Value)) :
  Forall (fun e => e.1 < n) acc -> Forall (fun e => e.1 = n) cur -> (length cur <= 1)%nat ->
  insert_field n v (acc ++ cur) = acc ++ [(n, v)].
Proof.
  intros Hacc Hcur Hlen. induction Hacc as [|[n' y] acc Hlt _ IH].
  - destruct cur as [|[n' y] [|]]; simpl in *; [reflexivity| |lia].
    inversion Hcur; subst; simpl in *. rewrite Z.ltb_irrefl, Z.eqb_refl. reflexivity.
  - simpl in *. destruct (Z.ltb_spec n n'); [lia|]. destruct (Z.eqb_spec n n'); [lia|].
    rewrite IH. reflexivity.
Qed.

Lemma clear_oneof_free (md : MessageDescriptor) (fd : FieldDescriptor) (acc cur : list (Z * Value)) :
  Forall (fun e => fd_oneof fd = None \/ member_oneof md e.1 <> fd_oneof fd) acc ->
  Forall (fun e => e.1 = fd_number fd) cur ->
  clear_oneof md fd (acc ++ cur) = acc ++ cur.
Proof.
  intros Hacc Hcur. unfold clear_oneof. destruct (fd_oneof fd) as [o|] eqn:Eo; [|reflexivity].
  assert (Hall : forall l : list (Z * Value), (forall e, In e l -> (e.1 =? fd_number fd) || negb (bool_decide (member_oneof md e.1 = Some o)) = true) ->
            List.filter (fun e => (e.1 =? fd_number fd) || negb (bool_decide (member_oneof md e.1 = Some o))) l = l).
  { induction l as [|e l IH]; intros H; [reflexivity|]. simpl. rewrite H by (left; reflexivity).
    rewrite IH by (intros e' He'; apply H; right; exact He'). reflexivity. }
  apply Hall. intros [n x] Hin. apply in_app_or in Hin. destruct Hin as [Hin|Hin].
  - rewrite List.Forall_forall in Hacc. destruct (Hacc _ Hin) as [H|H]; [discriminate|].
    simpl in H |- *. rewrite bool_decide_false by exact H. apply orb_true_r.
  - rewrite List.Forall_forall in Hcur. specialize (Hcur _ Hin). simpl in Hcur |- *.
    rewrite Hcur, Z.eqb_refl. reflexivity.
Qed.

(** Setting a field numbered above every present field, outside their
    oneofs, appends it. *)
Lemma set_raw_append (md : MessageDescriptor) (fd : FieldDescriptor) (v : Value) (acc cur : list (Z * Value)) :
  Forall (fun e => e.1 < fd_number fd) acc ->
  Forall (fun e => fd_oneof fd = None \/ member_oneof md e.1 <> fd_oneof fd) acc ->
  Forall (fun e => e.1 = fd_number fd) cur -> (length cur <= 1)%nat ->
  set_raw md fd v (acc ++ cur) = acc ++ [(fd_number fd, v)].
Proof.
  intros Hlt Hfree Hcur Hlen. unfold set_raw. rewrite clear_oneof_free by assumption.
  apply insert_field_below; assumption.
Qed.

(** ** Encoding then decoding a message *)

Lemma value_payload_message (pool : Pool) (k : Kind) (mx : DynamicMessage) :
  value_payload pool k (VMessage mx) = PLengthDelimited (DynamicMessage_encode pool mx).
Proof. destruct mx; reflexivity. Qed.

Lemma normalize_value_message (pool : Pool) (mx : DynamicMessage) :
  normalize_value pool (VMessage mx) = VMessage (normalize pool mx).
Proof. destruct mx; reflexivity. Qed.

Lemma normalize_value_scalar (pool : Pool) (v : Value) :
  (forall m, v <> VMessage m) -> (forall l, v <> VList l) -> (forall l, v <> VMap l) ->
  normalize_value pool v = v.
Proof.
  intros H1 H2 H3. destruct v; try reflexivity;
    exfalso; [eapply H1|eapply H2|eapply H3]; reflexivity.
Qed.

Lemma encode_record_length_ld (n : Z) (b : list Z) :
  (length b + 2 <= length (encode_record n (PLengthDelimited b)))%nat.
Proof.
  unfold encode_record. cbn [encode_payload payload_wire_type]. unfold encode_length_delimited.
  rewrite !length_app.
  pose proof (encode_varint_nonempty (Z.lor (Z.shiftl n 3) (wire_type_code WLengthDelimited))).
  pose proof (encode_varint_nonempty (Z.of_nat (length b))).
  unfold encode_key.
  destruct (encode_varint (Z.lor _ _)); [congruence|].
  destruct (encode_varint (Z.of_nat _)); [congruence|]. simpl. lia.
Qed.

Lemma encode_record_nonempty (n : Z) (p : Payload) : encode_record n p <> [].
Proof.
  unfold encode_record, encode_key.
  pose proof (encode_varint_nonempty (Z.lor (Z.shiftl n 3) (wire_type_code (payload_wire_type p)))).
  destruct (encode_varint _); [congruence|discriminate].
Qed.

Lemma find_field_number (md : MessageDescriptor) (n : Z) (fd : FieldDescriptor) :
  find_field md n = Some fd -> fd_number fd = n /\ In fd (msg_fields md).
Proof.
  unfold find_field. intros H. destruct (find_some _ _ H) as [Hin Heq].
  apply Z.eqb_eq in Heq. split; assumption.
Qed.

Lemma pool_wf_field (pool : Pool) (d : nat) (md : MessageDescriptor) (n : Z) (fd : FieldDescriptor) :
  pool_wf pool = true -> get_message pool d = Some md -> find_field md n = Some fd ->
  fd_number fd = n /\ 1 <= n < 2 ^ 29 /\ (is_map pool fd = true -> map_field_ok pool fd = true).
Proof.
  intros Hp Hmd Hfd. destruct (find_field_number md n fd Hfd) as [Hn Hin].
  unfold pool_wf in Hp. rewrite forallb_forall in Hp.
  assert (Hmdin : In md (pool_messages pool)).
  { unfold get_message in Hmd. apply list_elem_of_In. eapply list_elem_of_lookup_2. exact Hmd. }
  specialize (Hp md Hmdin). rewrite forallb_forall in Hp. specialize (Hp fd Hin).
  apply andb_true_iff in Hp. destruct Hp as [Hr Hm]. apply in_range_spec in Hr.
  split; [exact Hn|]. split; [lia|]. intros Hmap. rewrite Hmap in Hm. exact Hm.
Qed.

Section Roundtrip.

Variable pool : Pool.
Hypothesis Hpool : pool_wf pool = true.

Lemma merge_loop_record (f : nat) (number : Z) (p : Payload) (rest : list Z) (m : DynamicMessage) :
  1 <= number < 2 ^ 29 -> payload_ok p ->
  merge_loop (S f) pool (encode_record number p ++ rest) m =
  result_bind
    (merge_record (fun em b => merge_loop f pool b em) pool
       {| wr_number := number; wr_payload := p; wr_raw := encode_record number p |} m)
    (fun m' => merge_loop f pool rest m').
Proof.
  intros Hn Hp. pose proof (read_record_encode number p rest Hn Hp) as Hr.
  pose proof (encode_record_nonempty number p) as Hne.
  destruct (encode_record number p) as [|y ys] eqn:E; [congruence|].
  cbn [app merge_loop]. rewrite (app_comm_cons ys rest y), Hr. reflexivity.
Qed.

Lemma set_raw_append_nil (md : MessageDescriptor) (fd : FieldDescriptor) (v : Value) (acc : list (Z * Value)) :
  Forall (fun e => e.1 < fd_number fd) acc ->
  Forall (fun e => fd_oneof fd = None \/ member_oneof md e.1 <> fd_oneof fd) acc ->
  set_raw md fd v acc = acc ++ [(fd_number fd, v)].
Proof.
  intros H1 H2. rewrite <- (app_nil_r acc) at 1. apply set_raw_append; auto.
Qed.

Lemma not_repeated_not_map (fd : FieldDescriptor) :
  fd_cardinality fd <> Repeated -> is_map pool fd = false.
Proof. unfold is_map. destruct (fd_cardinality fd); [reflexivity|reflexivity|congruence]. Qed.

Lemma kind_cases (k : Kind) : (exists id, k = KMessage id) \/ (forall id, k <> KMessage id).
Proof. destruct k; try (right; discriminate). left. eauto. Qed.

(** A singular field: one record, set into the message. *)
Lemma singular_roundtrip (d : nat) (md : MessageDescriptor) (n : Z) (fd : FieldDescriptor)
    (fv : Value) (acc : list (Z * Value)) (fuel : nat) :
  get_message pool d = Some md -> find_field md n = Some fd ->
  fd_cardinality fd <> Repeated ->
  value_is_valid (fd_kind fd) fv = true ->
  (forall mx, fv = VMessage mx -> forall f, (length (DynamicMessage_encode pool mx) <= f)%nat ->
     Z.of_nat (length (DynamicMessage_encode pool mx)) < 2 ^ 64 ->
     merge_loop f pool (DynamicMessage_encode pool mx) (MkDynamicMessage (dm_desc mx) [] []) =
     Ok (normalize pool mx)) ->
  Forall (fun e => e.1 < n) acc ->
  Forall (fun e => fd_oneof fd = None \/ member_oneof md e.1 <> fd_oneof fd) acc ->
  (length (encode_record n (value_payload pool (fd_kind fd) fv)) <= fuel)%nat ->
  Z.of_nat (length (encode_record n (value_payload pool (fd_kind fd) fv))) < 2 ^ 64 ->
  merge_loop fuel pool (encode_record n (value_payload pool (fd_kind fd) fv)) (MkDynamicMessage d acc []) =
  Ok (MkDynamicMessage d (acc ++ [(n, normalize_value pool fv)]) []).
Proof.
  intros Hmd Hfd Hcard Hv Hsub Hlt Hfree Hfuel Hbound.
  destruct (pool_wf_field pool d md n fd Hpool Hmd Hfd) as [Hnum [Hn _]].
  rewrite <- Hnum in Hlt.
  destruct fuel as [|f].
  { pose proof (encode_record_nonempty n (value_payload pool (fd_kind fd) fv)).
    destruct (encode_record _ _); [congruence|simpl in Hfuel; lia]. }
  pose proof (not_repeated_not_map fd Hcard) as Hnotmap.
  destruct (kind_cases (fd_kind fd)) as [[id Hid]|Hnm].
  - rewrite Hid in Hv |- *. destruct fv as [| | | | | | | | | |mx| |]; try discriminate.
    cbn [value_is_valid] in Hv. apply Nat.eqb_eq in Hv. subst id.
    rewrite value_payload_message in *.
    pose proof (encode_record_length_ld n (DynamicMessage_encode pool mx)).
    rewrite <- (app_nil_r (encode_record n _)).
    rewrite merge_loop_record by (cbn [payload_ok]; lia).
    unfold merge_record. rewrite Hmd. cbn [wr_number wr_payload]. rewrite Hfd, Hnotmap.
    rewrite Hnum in Hlt.
    destruct (fd_cardinality fd); [| |congruence]; rewrite Hid; cbv zeta;
      rewrite lookup_field_below by exact Hlt;
      unfold mbind, result_mbind;
      rewrite (Hsub mx eq_refl f) by lia; cbn [result_bind];
      rewrite <- Hnum in Hlt; rewrite set_raw_append_nil by assumption;
      rewrite merge_loop_nil, Hnum, normalize_value_message; reflexivity.
  - assert (Hnotmsg : forall m, fv <> VMessage m) by (apply (valid_not_message (fd_kind fd)); assumption).
    rewrite value_payload_scalar in * by exact Hnotmsg.
    destruct (scalar_roundtrip (fd_kind fd) fv n Hv Hnm) as [Hdec [Hwt Hok]].
    assert (Hpok : payload_ok (scalar_payload (fd_kind fd) fv)).
    { destruct (scalar_payload (fd_kind fd) fv) as [x|x|b|x] eqn:Ep;
        try (apply Hok; rewrite <- Hwt; discriminate).
      pose proof (encode_record_length_ld n b). cbn [payload_ok]. lia. }
    rewrite <- (app_nil_r (encode_record n _)).
    rewrite merge_loop_record by assumption.
    unfold merge_record. rewrite Hmd. cbn [wr_number wr_payload]. rewrite Hfd, Hnotmap.
    rewrite Hnum in Hlt.
    remember (fd_kind fd) as k eqn:Ek.
    destruct (fd_cardinality fd); [| |congruence];
      (destruct k; try (exfalso; eapply Hnm; reflexivity));
      unfold mbind, result_mbind; rewrite Hdec; cbn [result_bind];
      rewrite <- Hnum in Hlt; rewrite set_raw_append_nil by assumption;
      rewrite merge_loop_nil, Hnum, normalize_value_scalar by (auto; intros ? ?; subst; discriminate);
      reflexivity.
Qed.

Lemma normalize_value_scalars (l : list Value) (k : Kind) :
  Forall (fun x => value_is_valid k x = true) l -> (forall id, k <> KMessage id) ->
  map (normalize_value pool) l = l.
Proof.
  intros Hl Hk. induction Hl as [|x l Hx _ IH]; [reflexivity|]. simpl. rewrite IH.
  rewrite normalize_value_scalar; [reflexivity| |intros ? ->; destruct k; discriminate|intros ? ->; destruct k; discriminate].
  apply (valid_not_message k); assumption.
Qed.

(** A packed repeated field: one record holding every element. *)
Lemma packed_roundtrip (d : nat) (md : MessageDescriptor) (n : Z) (fd : FieldDescriptor)
    (l : list Value) (acc : list (Z * Value)) (fuel : nat) :
  get_message pool d = Some md -> find_field md n = Some fd ->
  fd_cardinality fd = Repeated -> is_map pool fd = false -> packable (fd_kind fd) = true ->
  Forall (fun x => value_is_valid (fd_kind fd) x = true) l ->
  Forall (fun e => e.1 < n) acc ->
  Forall (fun e => fd_oneof fd = None \/ member_oneof md e.1 <> fd_oneof fd) acc ->
  (length (encode_record n (PLengthDelimited (packed_bytes (fd_kind fd) (value_payload pool) l))) <= fuel)%nat ->
  Z.of_nat (length (encode_record n (PLengthDelimited (packed_bytes (fd_kind fd) (value_payload pool) l)))) < 2 ^ 64 ->
  merge_loop fuel pool (encode_record n (PLengthDelimited (packed_bytes (fd_kind fd) (value_payload pool) l)))
    (MkDynamicMessage d acc []) =
  Ok (MkDynamicMessage d (acc ++ [(n, normalize_value pool (VList l))]) []).
Proof.
  intros Hmd Hfd Hcard Hnotmap Hpk Hl Hlt Hfree Hfuel Hbound.
  destruct (pool_wf_field pool d md n fd Hpool Hmd Hfd) as [Hnum [Hn _]].
  pose proof (encode_record_length_ld n (packed_bytes (fd_kind fd) (value_payload pool) l)).
  destruct fuel as [|f]; [lia|].
  rewrite <- (app_nil_r (encode_record n _)).
  rewrite merge_loop_record by (cbn [payload_ok]; lia).
  unfold merge_record. rewrite Hmd. cbn [wr_number wr_payload]. rewrite Hfd, Hnotmap, Hcard.
  cbv zeta. rewrite lookup_field_below by exact Hlt.
  pose proof (decode_packed_encode pool (fd_kind fd) n l
                (length (packed_bytes (fd_kind fd) (value_payload pool) l)) Hpk Hl
                (packed_bytes_length _ _ _)) as Hdec.
  cbn [normalize_value]. rewrite (normalize_value_scalars l (fd_kind fd) Hl (packable_not_message _ Hpk)).
  rewrite <- Hnum in Hlt, Hdec |- *.
  destruct (fd_kind fd); try discriminate; rewrite Hpk;
    unfold mbind, result_mbind; rewrite Hdec; cbn [result_bind app];
    rewrite set_raw_append_nil by assumption; apply merge_loop_nil.
Qed.

Lemma scalar_payload_ok (n : Z) (k : Kind) (v : Value) :
  value_is_valid k v = true -> (forall id, k <> KMessage id) ->
  Z.of_nat (length (encode_record n (scalar_payload k v))) < 2 ^ 64 ->
  payload_ok (scalar_payload k v).
Proof.
  intros Hv Hnm Hbound.
  destruct (scalar_roundtrip k v n Hv Hnm) as [_ [Hwt Hok]].
  destruct (scalar_payload k v) as [x|x|b|x] eqn:Ep;
    try (apply Hok; rewrite <- Hwt; discriminate).
  pose proof (encode_record_length_ld n b). cbn [payload_ok]. lia.
Qed.

(** One record of an unpacked repeated field, appended to the elements
    read so far. *)
Lemma repeated_element_step (d : nat) (md : MessageDescriptor) (n : Z) (fd : FieldDescriptor)
    (x : Value) (acc cur : list (Z * Value)) (pre : list Value) (f : nat) (rest : list Z) :
  get_message pool d = Some md -> find_field md n = Some fd ->
  fd_cardinality fd = Repeated -> is_map pool fd = false -> packable (fd_kind fd) = false ->
  value_is_valid (fd_kind fd) x = true ->
  (forall mx, x = VMessage mx -> forall f, (length (DynamicMessage_encode pool mx) <= f)%nat ->
     Z.of_nat (length (DynamicMessage_encode pool mx)) < 2 ^ 64 ->
     merge_loop f pool (DynamicMessage_encode pool mx) (MkDynamicMessage (dm_desc mx) [] []) =
     Ok (normalize pool mx)) ->
  Forall (fun e => e.1 < n) acc ->
  Forall (fun e => fd_oneof fd = None \/ member_oneof md e.1 <> fd_oneof fd) acc ->
  (cur = [] /\ pre = []) \/ cur = [(n, VList pre)] ->
  (length (encode_record n (value_payload pool (fd_kind fd) x)) <= S f)%nat ->
  Z.of_nat (length (encode_record n (value_payload pool (fd_kind fd) x))) < 2 ^ 64 ->
  merge_loop (S f) pool (encode_record n (value_payload pool (fd_kind fd) x) ++ rest)
    (MkDynamicMessage d (acc ++ cur) []) =
  merge_loop f pool rest (MkDynamicMessage d (acc ++ [(n, VList (pre ++ [normalize_value pool x]))]) []).
Proof.
  intros Hmd Hfd Hcard Hnotmap Hpk Hv Hsub Hlt Hfree Hcur Hfuel Hbound.
  destruct (pool_wf_field pool d md n fd Hpool Hmd Hfd) as [Hnum [Hn _]].
  assert (Hold : match lookup_field n (acc ++ cur) with Some (VList l) => l | _ => [] end = pre).
  { destruct Hcur as [[-> ->]| ->].
    - rewrite app_nil_r, lookup_field_below by exact Hlt. reflexivity.
    - rewrite lookup_field_last by exact Hlt. reflexivity. }
  assert (Hset : forall v, set_raw md fd v (acc ++ cur) = acc ++ [(n, v)]).
  { intros v. rewrite <- Hnum in Hlt |- *. apply set_raw_append; try assumption.
    - destruct Hcur as [[-> _]| ->]; repeat constructor; simpl; congruence.
    - destruct Hcur as [[-> _]| ->]; simpl; lia. }
  destruct (kind_cases (fd_kind fd)) as [[id Hid]|Hnm].
  - rewrite Hid in Hv |- *. destruct x as [| | | | | | | | | |mx| |]; try discriminate.
    cbn [value_is_valid] in Hv. apply Nat.eqb_eq in Hv. subst id.
    rewrite value_payload_message in *.
    pose proof (encode_record_length_ld n (DynamicMessage_encode pool mx)).
    rewrite merge_loop_record by (cbn [payload_ok]; lia).
    unfold merge_record. rewrite Hmd. cbn [wr_number wr_payload]. rewrite Hfd, Hnotmap, Hcard.
    cbv zeta. rewrite Hold, Hid.
    unfold mbind, result_mbind.
    rewrite (Hsub mx eq_refl f) by lia. cbn [result_bind].
    rewrite Hset, normalize_value_message. reflexivity.
  - assert (Hnotmsg : forall m, x <> VMessage m) by (apply (valid_not_message (fd_kind fd)); assumption).
    rewrite value_payload_scalar in * by exact Hnotmsg.
    pose proof (scalar_payload_ok n (fd_kind fd) x Hv Hnm Hbound) as Hpok.
    destruct (scalar_roundtrip (fd_kind fd) x n Hv Hnm) as [Hdec _].
    rewrite merge_loop_record by assumption.
    unfold merge_record. rewrite Hmd. cbn [wr_number wr_payload]. rewrite Hfd, Hnotmap, Hcard.
    cbv zeta. rewrite Hold.
    rewrite normalize_value_scalar by (auto; intros ? ?; subst; destruct (fd_kind fd); discriminate).
    remember (fd_kind fd) as k eqn:Ek.
    destruct k; try discriminate; try (exfalso; eapply Hnm; reflexivity);
      destruct (scalar_payload _ x) eqn:Ep;
      unfold mbind, result_mbind; cbn [packable]; rewrite Hdec; cbn [result_bind];
      rewrite Hset; reflexivity.
Qed.

(** The records of an unpacked repeated field, appended to the elements
    read so far. *)
Lemma unpacked_roundtrip (d : nat) (md : MessageDescriptor) (n : Z) (fd : FieldDescriptor)
    (l : list Value) (acc : list (Z * Value)) :
  get_message pool d = Some md -> find_field md n = Some fd ->
  fd_cardinality fd = Repeated -> is_map pool fd = false -> packable (fd_kind fd) = false ->
  Forall (fun x => value_is_valid (fd_kind fd) x = true) l ->
  (forall mx, In (VMessage mx) l -> forall f, (length (DynamicMessage_encode pool mx) <= f)%nat ->
     Z.of_nat (length (DynamicMessage_encode pool mx)) < 2 ^ 64 ->
     merge_loop f pool (DynamicMessage_encode pool mx) (MkDynamicMessage (dm_desc mx) [] []) =
     Ok (normalize pool mx)) ->
  Forall (fun e => e.1 < n) acc ->
  Forall (fun e => fd_oneof fd = None \/ member_oneof md e.1 <> fd_oneof fd) acc ->
  forall cur pre fuel,
  (cur = [] /\ pre = []) \/ cur = [(n, VList pre)] ->
  (length (list_bytes n (fd_kind fd) (value_payload pool) l) <= fuel)%nat ->
  Z.of_nat (length (list_bytes n (fd_kind fd) (value_payload pool) l)) < 2 ^ 64 ->
  merge_loop fuel pool (list_bytes n (fd_kind fd) (value_payload pool) l)
    (MkDynamicMessage d (acc ++ cur) []) =
  Ok (MkDynamicMessage d (acc ++ match l with
                                 | [] => cur
                                 | _ => [(n, VList (pre ++ map (normalize_value pool) l))]
                                 end) []).
Proof.
  intros Hmd Hfd Hcard Hnotmap Hpk Hl Hsub Hlt Hfree.
  induction Hl as [|x l Hx Hl IH]; intros cur pre fuel Hcur Hfuel Hbound.
  { apply merge_loop_nil. }
  cbn [list_bytes] in *. rewrite length_app in Hfuel, Hbound.
  pose proof (encode_record_nonempty n (value_payload pool (fd_kind fd) x)).
  assert (Hpos : (0 < length (encode_record n (value_payload pool (fd_kind fd) x)))%nat).
  { destruct (encode_record n _); [congruence|simpl; lia]. }
  destruct fuel as [|f]; [lia|].
  rewrite (repeated_element_step d md n fd x acc cur pre f) by
    (try assumption; try (intros mx Hmx; apply Hsub; left; congruence); lia).
  rewrite (IH (fun mx Hin => Hsub mx (or_intror Hin)) [(n, VList (pre ++ [normalize_value pool x]))]
             (pre ++ [normalize_value pool x]) f (or_intror eq_refl)) by lia.
  destruct l as [|y l]; [reflexivity|].
  cbn [map]. rewrite <- app_assoc. reflexivity.
Qed.

Lemma bytes_eqb_spec (a b : list Z) : bytes_eqb a b = true <-> a = b.
Proof.
  revert b. induction a as [|x a IH]; intros [|y b]; simpl; try (split; congruence).
  rewrite andb_true_iff, Z.eqb_eq, IH. split; [intros [-> ->]; reflexivity|intros H; injection H; auto].
Qed.

Lemma mapkey_eqb_spec (a b : MapKey) : mapkey_eqb a b = true <-> a = b.
Proof.
  destruct a, b; simpl; try (split; congruence);
    rewrite ?Bool.eqb_true_iff, ?Z.eqb_eq, ?bytes_eqb_spec; split; congruence.
Qed.

Lemma map_lookup_None {A} (k : MapKey) (l : list (MapKey * A)) :
  map_lookup k l = None <-> ~ In k (map fst l).
Proof.
  induction l as [|[k' v] l IH]; simpl; [tauto|].
  destruct (mapkey_eqb k k') eqn:E.
  - apply mapkey_eqb_spec in E. subst. split; [discriminate|tauto].
  - rewrite IH. split; [|tauto]. intros H [H'|H']; [|tauto].
    subst. pose proof (proj2 (mapkey_eqb_spec k k) eq_refl). congruence.
Qed.

Lemma map_lookup_Some_In {A} (k : MapKey) (v : A) (l : list (MapKey * A)) :
  map_lookup k l = Some v -> In k (map fst l).
Proof.
  induction l as [|[k' v'] l IH]; simpl; [discriminate|].
  destruct (mapkey_eqb k k') eqn:E; [apply mapkey_eqb_spec in E; left; congruence|].
  intros H. right. exact (IH H).
Qed.

Lemma keys_unique_NoDup (l : list (MapKey * Value)) : keys_unique l = true <-> NoDup (map fst l).
Proof.
  induction l as [|[k v] l IH]; simpl.
  - split; [constructor|reflexivity].
  - rewrite NoDup_cons. destruct (map_lookup k l) eqn:E.
    + split; [discriminate|]. intros [H _]. exfalso. apply H.
      apply list_elem_of_In. exact (map_lookup_Some_In k _ l E).
    + rewrite IH. apply map_lookup_None in E.
      split; [intros H; split; [rewrite list_elem_of_In; exact E|exact H]|tauto].
Qed.

Lemma map_insert_fresh (k : MapKey) (v : Value) (l : list (MapKey * Value)) :
  map_lookup k l = None -> map_insert k v l = l ++ [(k, v)].
Proof.
  induction l as [|[k' v'] l IH]; simpl; [reflexivity|].
  destruct (mapkey_eqb k k'); [discriminate|]. intros H. rewrite IH by exact H. reflexivity.
Qed.

Lemma value_key_key_value (k : MapKey) : value_key (key_value k) = Some k.
Proof. destruct k; reflexivity. Qed.

Lemma map_entry_kinds_inv (fd : FieldDescriptor) (eid : nat) (kk vk : Kind) :
  map_entry_kinds pool fd = Some (eid, kk, vk) -> map_field_ok pool fd = true ->
  exists emd kf vf, fd_kind fd = KMessage eid /\ get_message pool eid = Some emd /\
    find_field emd 1 = Some kf /\ find_field emd 2 = Some vf /\
    fd_kind kf = kk /\ fd_kind vf = vk /\
    fd_cardinality kf <> Repeated /\ fd_cardinality vf <> Repeated /\
    fd_oneof vf = None /\ map_key_kind kk = true.
Proof.
  intros Hk Hok. unfold map_field_ok in Hok. rewrite Hk in Hok. unfold map_entry_kinds in Hk.
  destruct (fd_kind fd) as [| | | | | | | | | | | | | | |id|]; try discriminate.
  destruct (get_message pool id) as [emd|] eqn:Emd; [|discriminate]. cbn in Hk.
  destruct (find_field emd 1) as [kf|] eqn:Ekf; [|discriminate]. cbn in Hk.
  destruct (find_field emd 2) as [vf|] eqn:Evf; [|discriminate]. cbn in Hk.
  injection Hk as <- <- <-. rewrite Emd, Ekf, Evf in Hok.
  apply andb_true_iff in Hok as [Hok Hkk]. apply andb_true_iff in Hok as [Hkf Hvf].
  unfold entry_field_ok in Hkf, Hvf.
  exists emd, kf, vf. repeat split; try assumption.
  - destruct (fd_cardinality kf); [discriminate|discriminate|discriminate].
  - destruct (fd_cardinality vf); [discriminate|discriminate|discriminate].
  - destruct (fd_oneof vf); [|reflexivity]. rewrite andb_false_r in Hvf. discriminate.
Qed.

Lemma key_value_not_message (key : MapKey) : forall m, key_value key <> VMessage m.
Proof. destruct key; discriminate. Qed.

Lemma normalize_key_value (key : MapKey) : normalize_value pool (key_value key) = key_value key.
Proof. destruct key; reflexivity. Qed.

(** A map entry is read back as the two-field entry message. *)
Lemma map_entry_roundtrip (fd : FieldDescriptor) (eid : nat) (kk vk : Kind)
    (key : MapKey) (x : Value) (fuel : nat) :
  map_entry_kinds pool fd = Some (eid, kk, vk) -> map_field_ok pool fd = true ->
  value_is_valid kk (key_value key) = true -> value_is_valid vk x = true ->
  (forall mx, x = VMessage mx -> forall f, (length (DynamicMessage_encode pool mx) <= f)%nat ->
     Z.of_nat (length (DynamicMessage_encode pool mx)) < 2 ^ 64 ->
     merge_loop f pool (DynamicMessage_encode pool mx) (MkDynamicMessage (dm_desc mx) [] []) =
     Ok (normalize pool mx)) ->
  (length (encode_record 1 (scalar_payload kk (key_value key)) ++
           encode_record 2 (value_payload pool vk x)) <= fuel)%nat ->
  Z.of_nat (length (encode_record 1 (scalar_payload kk (key_value key)) ++
                    encode_record 2 (value_payload pool vk x))) < 2 ^ 64 ->
  merge_loop fuel pool
    (encode_record 1 (scalar_payload kk (key_value key)) ++ encode_record 2 (value_payload pool vk x))
    (MkDynamicMessage eid [] []) =
  Ok (MkDynamicMessage eid [(1, key_value key); (2, normalize_value pool x)] []).
Proof.
  intros Hk Hok Hkv Hxv Hsub Hfuel Hbound.
  destruct (map_entry_kinds_inv fd eid kk vk Hk Hok)
    as (emd & kf & vf & _ & Hemd & Hkf & Hvf & <- & <- & Hkc & Hvc & Hvo & _).
  rewrite length_app in Hfuel, Hbound.
  rewrite <- (value_payload_scalar pool (fd_kind kf) (key_value key) (key_value_not_message key)).
  rewrite <- (value_payload_scalar pool (fd_kind kf) (key_value key) (key_value_not_message key)) in Hfuel, Hbound.
  rewrite (merge_loop_app fuel pool _ _ _ (MkDynamicMessage eid ([] ++ [(1, normalize_value pool (key_value key))]) [])).
  - rewrite normalize_key_value.
    change [(1, key_value key); (2, normalize_value pool x)] with
      ([(1, key_value key)] ++ [(2, normalize_value pool x)]).
    apply (singular_roundtrip eid emd 2 vf x [(1, key_value key)] fuel); try assumption; try lia.
    all: repeat constructor; try exact Hvo; try (left; exact Hvo); try (simpl; lia).
  - apply (singular_roundtrip eid emd 1 kf (key_value key) [] fuel); try assumption; try lia;
      try constructor.
    intros mx Hmx. exfalso. exact (key_value_not_message key mx Hmx).
  - rewrite length_app. lia.
Qed.

(** One entry of a map field, inserted after the entries read so far. *)
Lemma map_element_step (d : nat) (md : MessageDescriptor) (n : Z) (fd : FieldDescriptor)
    (eid : nat) (kk vk : Kind) (key : MapKey) (x : Value)
    (acc cur : list (Z * Value)) (pre : list (MapKey * Value)) (f : nat) (rest : list Z) :
  get_message pool d = Some md -> find_field md n = Some fd -> is_map pool fd = true ->
  map_entry_kinds pool fd = Some (eid, kk, vk) ->
  value_is_valid kk (key_value key) = true -> value_is_valid vk x = true ->
  (forall mx, x = VMessage mx -> forall f, (length (DynamicMessage_encode pool mx) <= f)%nat ->
     Z.of_nat (length (DynamicMessage_encode pool mx)) < 2 ^ 64 ->
     merge_loop f pool (DynamicMessage_encode pool mx) (MkDynamicMessage (dm_desc mx) [] []) =
     Ok (normalize pool mx)) ->
  ~ In key (map fst pre) ->
  Forall (fun e => e.1 < n) acc ->
  Forall (fun e => fd_oneof fd = None \/ member_oneof md e.1 <> fd_oneof fd) acc ->
  (cur = [] /\ pre = []) \/ cur = [(n, VMap pre)] ->
  (length (encode_record n (PLengthDelimited
     (encode_record 1 (scalar_payload kk (key_value key)) ++ encode_record 2 (value_payload pool vk x))))
     <= S f)%nat ->
  Z.of_nat (length (encode_record n (PLengthDelimited
     (encode_record 1 (scalar_payload kk (key_value key)) ++ encode_record 2 (value_payload pool vk x)))))
     < 2 ^ 64 ->
  merge_loop (S f) pool (encode_record n (PLengthDelimited
     (encode_record 1 (scalar_payload kk (key_value key)) ++ encode_record 2 (value_payload pool vk x)))
     ++ rest) (MkDynamicMessage d (acc ++ cur) []) =
  merge_loop f pool rest (MkDynamicMessage d (acc ++ [(n, VMap (pre ++ [(key, normalize_value pool x)]))]) []).
Proof.
  intros Hmd Hfd Hmap Hk Hkv Hxv Hsub Hfresh Hlt Hfree Hcur Hfuel Hbound.
  destruct (pool_wf_field pool d md n fd Hpool Hmd Hfd) as [Hnum [Hn Hmok]].
  specialize (Hmok Hmap).
  assert (Hold : match lookup_field n (acc ++ cur) with Some (VMap l) => l | _ => [] end = pre).
  { destruct Hcur as [[-> ->]| ->].
    - rewrite app_nil_r, lookup_field_below by exact Hlt. reflexivity.
    - rewrite lookup_field_last by exact Hlt. reflexivity. }
  assert (Hset : forall v, set_raw md fd v (acc ++ cur) = acc ++ [(n, v)]).
  { intros v. rewrite <- Hnum in Hlt |- *. apply set_raw_append; try assumption.
    - destruct Hcur as [[-> _]| ->]; repeat constructor; simpl; congruence.
    - destruct Hcur as [[-> _]| ->]; simpl; lia. }
  pose proof (encode_record_length_ld n (encode_record 1 (scalar_payload kk (key_value key)) ++
                                          encode_record 2 (value_payload pool vk x))).
  rewrite merge_loop_record by (cbn [payload_ok]; lia).
  unfold merge_record. rewrite Hmd. cbn [wr_number wr_payload]. rewrite Hfd, Hmap, Hk.
  unfold mbind, result_mbind.
  rewrite (map_entry_roundtrip fd eid kk vk key x f) by (try assumption; lia).
  cbn [result_bind dm_fields]. cbv zeta.
  assert (E1 : lookup_field 1 [(1, key_value key); (2, normalize_value pool x)] = Some (key_value key))
    by reflexivity.
  assert (E2 : lookup_field 2 [(1, key_value key); (2, normalize_value pool x)] = Some (normalize_value pool x))
    by reflexivity.
  rewrite E1, E2, value_key_key_value, Hold, Hset.
  rewrite map_insert_fresh by (apply map_lookup_None; exact Hfresh).
  reflexivity.
Qed.

(** The entries of a map field, inserted after the entries read so far. *)
Lemma map_roundtrip (d : nat) (md : MessageDescriptor) (n : Z) (fd : FieldDescriptor)
    (eid : nat) (kk vk : Kind) (l : list (MapKey * Value)) (acc : list (Z * Value)) :
  get_message pool d = Some md -> find_field md n = Some fd -> is_map pool fd = true ->
  map_entry_kinds pool fd = Some (eid, kk, vk) ->
  Forall (fun e => value_is_valid kk (key_value e.1) && value_is_valid vk e.2 = true) l ->
  (forall k mx, In (k, VMessage mx) l -> forall f, (length (DynamicMessage_encode pool mx) <= f)%nat ->
     Z.of_nat (length (DynamicMessage_encode pool mx)) < 2 ^ 64 ->
     merge_loop f pool (DynamicMessage_encode pool mx) (MkDynamicMessage (dm_desc mx) [] []) =
     Ok (normalize pool mx)) ->
  Forall (fun e => e.1 < n) acc ->
  Forall (fun e => fd_oneof fd = None \/ member_oneof md e.1 <> fd_oneof fd) acc ->
  forall cur pre fuel,
  (cur = [] /\ pre = []) \/ cur = [(n, VMap pre)] ->
  NoDup (map fst pre ++ map fst l) ->
  (length (map_entries_bytes n kk vk (value_payload pool) l) <= fuel)%nat ->
  Z.of_nat (length (map_entries_bytes n kk vk (value_payload pool) l)) < 2 ^ 64 ->
  merge_loop fuel pool (map_entries_bytes n kk vk (value_payload pool) l)
    (MkDynamicMessage d (acc ++ cur) []) =
  Ok (MkDynamicMessage d (acc ++ match l with
                                 | [] => cur
                                 | _ => [(n, VMap (pre ++ map (fun '(k, x) => (k, normalize_value pool x)) l))]
                                 end) []).
Proof.
  intros Hmd Hfd Hmap Hk Hl Hsub Hlt Hfree.
  induction Hl as [|[key x] l Hx Hl IH]; intros cur pre fuel Hcur Hnd Hfuel Hbound.
  { apply merge_loop_nil. }
  cbn [map_entries_bytes] in *. rewrite length_app in Hfuel, Hbound.
  apply andb_true_iff in Hx as [Hkv Hxv].
  match goal with |- merge_loop _ _ (encode_record n ?p ++ _) _ = _ =>
    pose proof (encode_record_nonempty n p) end.
  match goal with H : encode_record n ?p <> [] |- _ =>
    assert (Hpos : (0 < length (encode_record n p))%nat) by (destruct (encode_record n p); [congruence|simpl; lia]) end.
  destruct fuel as [|f]; [lia|].
  cbn [map fst] in Hnd.
  rewrite (map_element_step d md n fd eid kk vk key x acc cur pre f) by
    (try assumption; try (intros mx Hmx; subst x; apply (Hsub key); left; reflexivity);
     try (intros Hin; apply NoDup_app in Hnd as (_ & Hdis & _);
          apply (Hdis key); [apply list_elem_of_In; exact Hin|left]);
     lia).
  rewrite (IH (fun k mx Hin => Hsub k mx (or_intror Hin)) [(n, VMap (pre ++ [(key, normalize_value pool x)]))]
             (pre ++ [(key, normalize_value pool x)]) f (or_intror eq_refl)) by
    (try lia; rewrite map_app, <- app_assoc; exact Hnd).
  destruct l as [|y l]; [reflexivity|].
  cbn [map]. rewrite <- app_assoc. reflexivity.
Qed.

(** One present field that encodes to some records. *)
Lemma field_roundtrip (d : nat) (md : MessageDescriptor) (n : Z) (fd : FieldDescriptor)
    (fv : Value) (acc : list (Z * Value)) (fuel : nat) :
  get_message pool d = Some md -> find_field md n = Some fd ->
  field_value_valid pool fd fv = true -> value_is_empty pool fd fv = false ->
  (forall mx, (fv = VMessage mx \/ (exists l, fv = VList l /\ In (VMessage mx) l) \/
               (exists l k, fv = VMap l /\ In (k, VMessage mx) l)) ->
     forall f, (length (DynamicMessage_encode pool mx) <= f)%nat ->
     Z.of_nat (length (DynamicMessage_encode pool mx)) < 2 ^ 64 ->
     merge_loop f pool (DynamicMessage_encode pool mx) (MkDynamicMessage (dm_desc mx) [] []) =
     Ok (normalize pool mx)) ->
  Forall (fun e => e.1 < n) acc ->
  Forall (fun e => fd_oneof fd = None \/ member_oneof md e.1 <> fd_oneof fd) acc ->
  (length (field_bytes pool (value_payload pool) md n fv) <= fuel)%nat ->
  Z.of_nat (length (field_bytes pool (value_payload pool) md n fv)) < 2 ^ 64 ->
  merge_loop fuel pool (field_bytes pool (value_payload pool) md n fv) (MkDynamicMessage d acc []) =
  Ok (MkDynamicMessage d (acc ++ [(n, normalize_value pool fv)]) []).
Proof.
  intros Hmd Hfd Hvalid Hne Hsub Hlt Hfree Hfuel Hbound.
  unfold field_bytes in Hfuel, Hbound |- *. rewrite Hfd, Hne in *.
  unfold field_value_valid in Hvalid. unfold value_is_empty in Hne.
  destruct (is_map pool fd) eqn:Hmap.
  - destruct (map_entry_kinds pool fd) as [[[eid kk] vk]|] eqn:Hk; [|discriminate].
    destruct fv as [| | | | | | | | | | | |l]; try discriminate.
    destruct l as [|e l]; [discriminate|].
    apply andb_true_iff in Hvalid as [Hvalid Huniq].
    rewrite <- (app_nil_r acc) at 1.
    rewrite (map_roundtrip d md n fd eid kk vk (e :: l) acc Hmd Hfd Hmap Hk) with (pre := []);
      try assumption; try lia.
    + reflexivity.
    + apply List.Forall_forall. intros e' He'. rewrite forallb_forall in Hvalid. exact (Hvalid e' He').
    + intros k mx Hin. apply Hsub. right. right. exists (e :: l), k. split; [reflexivity|exact Hin].
    + left. split; reflexivity.
    + apply keys_unique_NoDup. exact Huniq.
  - destruct (fd_cardinality fd) eqn:Hcard.
    1-2: apply (singular_roundtrip d md n fd fv acc fuel); try assumption;
         [congruence|intros mx Hmx; apply Hsub; left; exact Hmx].
    destruct fv as [| | | | | | | | | | |l|]; try discriminate.
    destruct l as [|x l]; [discriminate|].
    assert (Hl : Forall (fun y => value_is_valid (fd_kind fd) y = true) (x :: l)).
    { apply List.Forall_forall. intros y Hy. rewrite forallb_forall in Hvalid. exact (Hvalid y Hy). }
    destruct (packable (fd_kind fd)) eqn:Hpk.
    + apply (packed_roundtrip d md n fd (x :: l) acc fuel); assumption.
    + rewrite <- (app_nil_r acc) at 1.
      rewrite (unpacked_roundtrip d md n fd (x :: l) acc Hmd Hfd Hcard Hmap Hpk Hl) with (pre := []);
        try assumption; try lia.
      * reflexivity.
      * intros mx Hin. apply Hsub. right. left. exists (x :: l). split; [reflexivity|exact Hin].
      * left. split; reflexivity.
Qed.

Lemma sorted_numbers_cons (n : Z) (v : Value) (l : list (Z * Value)) :
  sorted_numbers ((n, v) :: l) = true -> Forall (fun e => n < e.1) l /\ sorted_numbers l = true.
Proof.
  revert n v. induction l as [|[n2 v2] l IH]; intros n v H; [split; [constructor|reflexivity]|].
  cbn [sorted_numbers] in H. apply andb_true_iff in H as [H12 Hs].
  apply Z.ltb_lt in H12. split; [|exact Hs].
  destruct (IH n2 v2 Hs) as [Hl _]. constructor; [exact H12|].
  eapply List.Forall_impl; [|exact Hl]. simpl. intros e He. lia.
Qed.

Lemma oneof_exclusive_cons (md : MessageDescriptor) (n : Z) (v : Value) (l : list (Z * Value)) :
  oneof_exclusive md ((n, v) :: l) = true ->
  Forall (fun e => member_oneof md n = None \/ member_oneof md e.1 <> member_oneof md n) l /\
  oneof_exclusive md l = true.
Proof.
  cbn [oneof_exclusive]. intros H. apply andb_true_iff in H as [Ho Hl]. split; [|exact Hl].
  destruct (member_oneof md n) as [o|] eqn:Eo.
  - apply List.Forall_forall. intros e He. right. rewrite forallb_forall in Ho.
    specialize (Ho e He). apply negb_true_iff, bool_decide_eq_false in Ho. exact Ho.
  - apply List.Forall_forall. intros e _. left. reflexivity.
Qed.

Lemma member_oneof_field (md : MessageDescriptor) (n : Z) (fd : FieldDescriptor) :
  find_field md n = Some fd -> member_oneof md n = fd_oneof fd.
Proof. intros H. unfold member_oneof. rewrite H. reflexivity. Qed.

Lemma field_is_empty_entry (d : nat) (md : MessageDescriptor) (n : Z) (fd : FieldDescriptor) (v : Value) :
  get_message pool d = Some md -> find_field md n = Some fd ->
  field_is_empty pool d n v = value_is_empty pool fd v.
Proof. intros Hmd Hfd. unfold field_is_empty, entry_is_empty. rewrite Hmd, Hfd. reflexivity. Qed.

Lemma field_bytes_empty (md : MessageDescriptor) (n : Z) (fd : FieldDescriptor) (v : Value) :
  find_field md n = Some fd -> value_is_empty pool fd v = true ->
  field_bytes pool (value_payload pool) md n v = [].
Proof. intros Hfd He. unfold field_bytes. rewrite Hfd, He. reflexivity. Qed.

(** The present fields, in number order, appended to the fields read so far. *)
Lemma fields_roundtrip (d : nat) (md : MessageDescriptor) (fs : list (Z * Value)) :
  get_message pool d = Some md ->
  sorted_numbers fs = true -> oneof_exclusive md fs = true ->
  Forall (fun e => match find_field md e.1 with
                   | Some fd => field_value_valid pool fd e.2 = true
                   | None => False end) fs ->
  Forall (fun e => forall mx, (e.2 = VMessage mx \/ (exists l, e.2 = VList l /\ In (VMessage mx) l) \/
               (exists l k, e.2 = VMap l /\ In (k, VMessage mx) l)) ->
     forall f, (length (DynamicMessage_encode pool mx) <= f)%nat ->
     Z.of_nat (length (DynamicMessage_encode pool mx)) < 2 ^ 64 ->
     merge_loop f pool (DynamicMessage_encode pool mx) (MkDynamicMessage (dm_desc mx) [] []) =
     Ok (normalize pool mx)) fs ->
  forall acc fuel,
  Forall (fun a => Forall (fun e => a.1 < e.1) fs) acc ->
  Forall (fun a => Forall (fun e => member_oneof md a.1 = None \/
                                    member_oneof md e.1 <> member_oneof md a.1) fs) acc ->
  (length (fields_bytes (field_bytes pool (value_payload pool) md) fs) <= fuel)%nat ->
  Z.of_nat (length (fields_bytes (field_bytes pool (value_payload pool) md) fs)) < 2 ^ 64 ->
  merge_loop fuel pool (fields_bytes (field_bytes pool (value_payload pool) md) fs)
    (MkDynamicMessage d acc []) =
  Ok (MkDynamicMessage d (acc ++ normalize_fields (normalize_value pool) (field_is_empty pool d) fs) []).
Proof.
  intros Hmd. induction fs as [|[n fv] fs IH];
    intros Hsort Hone Hvalid Hsub acc fuel Hlt Hfree Hfuel Hbound.
  { rewrite app_nil_r. apply merge_loop_nil. }
  apply sorted_numbers_cons in Hsort as [Hsn Hsort].
  apply oneof_exclusive_cons in Hone as [Hon Hone].
  inversion Hvalid as [|? ? Hv Hvalid']; subst.
  inversion Hsub as [|? ? Hs Hsub']; subst.
  cbn [fst snd] in Hv, Hs.
  destruct (find_field md n) as [fd|] eqn:Hfd; [|contradiction].
  cbn [fields_bytes normalize_fields] in *. rewrite length_app in Hfuel, Hbound.
  rewrite (field_is_empty_entry d md n fd fv Hmd Hfd).
  assert (Hlt' : Forall (fun a => Forall (fun e => a.1 < e.1) fs) acc).
  { eapply List.Forall_impl; [|exact Hlt]. intros a Ha. inversion Ha; assumption. }
  assert (Hfree' : Forall (fun a => Forall (fun e => member_oneof md a.1 = None \/
                                    member_oneof md e.1 <> member_oneof md a.1) fs) acc).
  { eapply List.Forall_impl; [|exact Hfree]. intros a Ha. inversion Ha; assumption. }
  destruct (value_is_empty pool fd fv) eqn:He.
  - rewrite (field_bytes_empty md n fd fv Hfd He), app_nil_l.
    apply IH; try assumption; lia.
  - rewrite (merge_loop_app fuel pool _ _ _ (MkDynamicMessage d (acc ++ [(n, normalize_value pool fv)]) [])).
    + rewrite (IH Hsort Hone Hvalid' Hsub' (acc ++ [(n, normalize_value pool fv)]) fuel); try lia.
      * rewrite <- app_assoc. reflexivity.
      * apply Forall_app. split; [exact Hlt'|]. constructor; [exact Hsn|constructor].
      * apply Forall_app. split; [exact Hfree'|]. constructor; [exact Hon|constructor].
    + apply (field_roundtrip d md n fd fv acc fuel); try assumption; try lia.
      * eapply List.Forall_impl; [|exact Hlt]. intros a Ha. inversion Ha; assumption.
      * eapply List.Forall_impl; [|exact Hfree]. intros a Ha. inversion Ha as [|? ? Ho]; subst.
        cbn [fst] in Ho. rewrite (member_oneof_field md n fd Hfd) in Ho.
        destruct (fd_oneof fd) as [o|]; [right|left; reflexivity].
        destruct Ho as [Ho|Ho]; congruence.
    + rewrite length_app. lia.
Qed.

(** Captured unknown fields are read back as the same unknown fields. *)
Lemma unknowns_roundtrip (d : nat) (md : MessageDescriptor) (fields : list (Z * Value))
    (us acc : list UnknownField) (fuel : nat) :
  get_message pool d = Some md -> Forall (fun u => unknown_field_ok md u = true) us ->
  (length (concat (map uf_raw us)) <= fuel)%nat ->
  merge_loop fuel pool (concat (map uf_raw us)) (MkDynamicMessage d fields acc) =
  Ok (MkDynamicMessage d fields (acc ++ us)).
Proof.
  intros Hmd Hus. revert acc fuel. induction Hus as [|u us Hu Hus IH]; intros acc fuel Hfuel.
  { rewrite app_nil_r. apply merge_loop_nil. }
  cbn [map concat] in *. rewrite length_app in Hfuel.
  unfold unknown_field_ok in Hu.
  destruct (read_record (uf_raw u)) as [[r [|y rest]]|] eqn:Hr; try discriminate.
  apply andb_true_iff in Hu as [Hnum Hnf]. apply Z.eqb_eq in Hnum.
  destruct (find_field md (uf_number u)) eqn:Hff; [discriminate|].
  destruct (read_record_consume _ _ _ Hr) as (Hraw & Hne & Hread & _).
  rewrite app_nil_r in Hraw.
  assert (Hpos : (0 < length (uf_raw u))%nat) by (rewrite Hraw; destruct (wr_raw r); [congruence|simpl; lia]).
  destruct fuel as [|f]; [lia|].
  destruct (uf_raw u ++ concat (map uf_raw us)) as [|z zs] eqn:Eb.
  { rewrite Hraw in Eb. destruct (wr_raw r); [congruence|discriminate]. }
  cbn [merge_loop]. rewrite <- Eb. rewrite Hraw, Hread.
  unfold mbind, result_mbind. cbn [result_bind]. unfold merge_record. rewrite Hmd, Hnum, Hff.
  cbn [result_bind]. rewrite <- Hnum, <- Hraw.
  destruct u as [un uraw]. cbn [uf_number uf_raw] in *.
  rewrite Hnum, IH by lia. rewrite <- app_assoc. reflexivity.
Qed.

Lemma encode_message (d : nat) (fields : list (Z * Value)) (u : list UnknownField) :
  DynamicMessage_encode pool (MkDynamicMessage d fields u) =
  match get_message pool d with
  | None => []
  | Some md => fields_bytes (field_bytes pool (value_payload pool) md) fields
  end ++ concat (map uf_raw u).
Proof. reflexivity. Qed.

Lemma normalize_message (d : nat) (fields : list (Z * Value)) (u : list UnknownField) :
  normalize pool (MkDynamicMessage d fields u) =
  MkDynamicMessage d (normalize_fields (normalize_value pool) (field_is_empty pool d) fields) u.
Proof. reflexivity. Qed.

(** Every well-formed message, and every message inside a well-formed value,
    is read back from its encoding as its normal form. *)
Lemma message_roundtrip (v : Value) :
  value_wf pool v = true ->
  forall mx, (v = VMessage mx \/ (exists l, v = VList l /\ In (VMessage mx) l) \/
              (exists l k, v = VMap l /\ In (k, VMessage mx) l)) ->
  forall f, (length (DynamicMessage_encode pool mx) <= f)%nat ->
  Z.of_nat (length (DynamicMessage_encode pool mx)) < 2 ^ 64 ->
  merge_loop f pool (DynamicMessage_encode pool mx) (MkDynamicMessage (dm_desc mx) [] []) =
  Ok (normalize pool mx).
Proof.
  induction v as [d fields u IH|l IH|l IH|v Hm Hl Hmp] using Value_ind2; intros Hwf mx Hchild.
  - destruct Hchild as [Hmx|[[l [Hl _]]|[l [k [Hl _]]]]]; [|discriminate|discriminate].
    injection Hmx as <-. intros f Hf Hbound.
    rewrite value_wf_message in Hwf. apply andb_true_iff in Hwf as [Hloc Hsubwf].
    unfold message_local_ok in Hloc.
    destruct (get_message pool d) as [md|] eqn:Hmd; [|discriminate].
    apply andb_true_iff in Hloc as [Hloc Hunk]. apply andb_true_iff in Hloc as [Hloc Hone].
    apply andb_true_iff in Hloc as [Hsort Hval].
    rewrite encode_message, Hmd in Hf, Hbound |- *. rewrite length_app in Hf, Hbound.
    cbn [dm_desc]. rewrite normalize_message.
    rewrite (merge_loop_app f pool _ _ _
               (MkDynamicMessage d ([] ++ normalize_fields (normalize_value pool) (field_is_empty pool d) fields) [])).
    + rewrite (unknowns_roundtrip d md _ u [] f Hmd) by
        (try lia; apply List.Forall_forall; intros x Hx; rewrite forallb_forall in Hunk; exact (Hunk x Hx)).
      reflexivity.
    + apply (fields_roundtrip d md fields Hmd Hsort Hone); try constructor; try lia.
      * apply List.Forall_forall. intros e He. rewrite forallb_forall in Hval. specialize (Hval e He).
        destruct (find_field md e.1); [exact Hval|discriminate].
      * apply List.Forall_forall. intros e He mx' Hc. rewrite List.Forall_forall in IH.
        apply (IH e He); [|exact Hc]. rewrite forallb_forall in Hsubwf. exact (Hsubwf e He).
    + rewrite length_app. lia.
  - destruct Hchild as [Hmx|[[l' [Hl Hin]]|[l' [k [Hl _]]]]]; [discriminate| |discriminate].
    injection Hl as <-. rewrite List.Forall_forall in IH.
    rewrite value_wf_list, forallb_forall in Hwf.
    apply (IH _ Hin (Hwf _ Hin)). left. reflexivity.
  - destruct Hchild as [Hmx|[[l' [Hl _]]|[l' [k [Hl Hin]]]]]; [discriminate|discriminate|].
    injection Hl as <-. rewrite List.Forall_forall in IH.
    rewrite value_wf_map, forallb_forall in Hwf.
    apply (IH _ Hin (Hwf _ Hin)). left. reflexivity.
  - destruct Hchild as [Hmx|[[l' [Hl' _]]|[l' [k [Hl' _]]]]]; exfalso; [eapply Hm|eapply Hl|eapply Hmp]; eassumption.
Qed.

End Roundtrip.

(** ** Normal forms and equality *)

Lemma value_is_empty_normalize (pool : Pool) (fd : FieldDescriptor) (v : Value) :
  value_is_empty pool fd (normalize_value pool v) = value_is_empty pool fd v.
Proof.
  unfold value_is_empty, supports_presence.
  destruct v as [b|z|z|z|z|z|z|s|s|z|[d fs u]|l|l]; cbn [normalize_value]; try reflexivity;
    destruct (is_map pool fd); try (destruct l; reflexivity);
    destruct (fd_cardinality fd); try (destruct l; reflexivity); try reflexivity;
    destruct (fd_kind fd); destruct (fd_oneof fd); reflexivity.
Qed.

Lemma field_is_empty_normalize (pool : Pool) (d : nat) (n : Z) (v : Value) :
  field_is_empty pool d n (normalize_value pool v) = field_is_empty pool d n v.
Proof.
  unfold field_is_empty, entry_is_empty.
  destruct (get_message pool d); [|reflexivity]. destruct (find_field _ n); [|reflexivity].
  apply value_is_empty_normalize.
Qed.

Lemma normalize_fields_idem (nv : Value -> Value) (ie : Z -> Value -> bool) (fs : list (Z * Value)) :
  Forall (fun e => nv (nv e.2) = nv e.2 /\ ie e.1 (nv e.2) = ie e.1 e.2) fs ->
  normalize_fields nv ie (normalize_fields nv ie fs) = normalize_fields nv ie fs.
Proof.
  induction 1 as [|[n fv] fs [H1 H2] _ IH]; [reflexivity|]. cbn [fst snd] in *.
  cbn [normalize_fields]. destruct (ie n fv) eqn:E; [exact IH|].
  cbn [normalize_fields]. rewrite H2, H1, IH. reflexivity.
Qed.

(** Normalising is idempotent. *)
Lemma normalize_value_idem (pool : Pool) (v : Value) :
  normalize_value pool (normalize_value pool v) = normalize_value pool v.
Proof.
  induction v as [d fields u IH|l IH|l IH|v Hm Hl Hmp] using Value_ind2.
  - cbn [normalize_value]. rewrite normalize_fields_idem; [reflexivity|].
    eapply List.Forall_impl; [|exact IH]. intros e He. split; [exact He|].
    apply field_is_empty_normalize.
  - cbn [normalize_value]. rewrite map_map. f_equal.
    induction IH as [|x l Hx _ IHl]; [reflexivity|]. cbn [map]. rewrite Hx, IHl. reflexivity.
  - cbn [normalize_value]. rewrite map_map. f_equal.
    induction IH as [|[k x] l Hx _ IHl]; [reflexivity|]. cbn [map]. cbn [snd] in Hx.
    rewrite Hx, IHl. reflexivity.
  - rewrite (normalize_value_scalar pool v Hm Hl Hmp). apply normalize_value_scalar; assumption.
Qed.

Lemma normalize_idem (pool : Pool) (m : DynamicMessage) :
  normalize_value pool (VMessage (normalize pool m)) = normalize_value pool (VMessage m).
Proof.
  destruct m as [d fields u]. rewrite normalize_message.
  change (VMessage (MkDynamicMessage d (normalize_fields (normalize_value pool) (field_is_empty pool d) fields) u))
    with (normalize_value pool (VMessage (MkDynamicMessage d fields u))).
  apply normalize_value_idem.
Qed.

Lemma bytes_eqb_refl (a : list Z) : bytes_eqb a a = true.
Proof. apply bytes_eqb_spec. reflexivity. Qed.

Lemma map_lookup_In_NoDup (k : MapKey) (v : Value) (l : list (MapKey * Value)) :
  NoDup (map fst l) -> In (k, v) l -> map_lookup k l = Some v.
Proof.
  induction l as [|[k' v'] l IH]; intros Hnd Hin; [destruct Hin|].
  cbn [map fst] in Hnd. apply NoDup_cons in Hnd as [Hnotin Hnd]. cbn [map_lookup].
  destruct Hin as [Heq|Hin].
  - injection Heq as -> ->. rewrite (proj2 (mapkey_eqb_spec k k) eq_refl). reflexivity.
  - destruct (mapkey_eqb k k') eqn:E.
    + apply mapkey_eqb_spec in E. subst k'. exfalso. apply Hnotin.
      apply list_elem_of_In. apply (in_map fst) in Hin. exact Hin.
    + exact (IH Hnd Hin).
Qed.

Lemma value_eqb_map (l1 l2 : list (MapKey * Value)) :
  value_eqb (VMap l1) (VMap l2) =
  Nat.eqb (length l1) (length l2) &&
  forallb (fun e => match map_lookup e.1 l2 with Some v2 => value_eqb e.2 v2 | None => false end) l1.
Proof.
  cbn [value_eqb]. f_equal. induction l1 as [|[k v] l1 IH]; [reflexivity|].
  cbn [forallb fst snd]. rewrite <- IH. destruct (map_lookup k l2); reflexivity.
Qed.

(** [value_eqb] is reflexive on values without NaN whose maps have distinct
    keys. *)
Lemma value_eqb_refl (v : Value) :
  value_no_nan v = true -> maps_keys_unique v = true -> value_eqb v v = true.
Proof.
  induction v as [d fields u IH|l IH|l IH|v Hm Hl Hmp] using Value_ind2; intros Hnan Huniq.
  - rewrite value_no_nan_message in Hnan. rewrite maps_keys_unique_message in Huniq.
    cbn [value_eqb]. rewrite Nat.eqb_refl. cbn [andb].
    apply andb_true_iff. split.
    + induction IH as [|[n x] fs Hx _ IHfs]; [reflexivity|].
      cbn [forallb fst snd] in Hnan, Huniq, Hx.
      apply andb_true_iff in Hnan as [Hn1 Hn2]. apply andb_true_iff in Huniq as [Hu1 Hu2].
      cbn. rewrite Z.eqb_refl, (Hx Hn1 Hu1). exact (IHfs Hn2 Hu2).
    + clear. induction u as [|x u IHu]; [reflexivity|]. cbn.
      unfold unknown_eqb. rewrite Z.eqb_refl, bytes_eqb_refl. exact IHu.
  - rewrite value_no_nan_list in Hnan. rewrite maps_keys_unique_list in Huniq.
    cbn [value_eqb]. induction IH as [|x l Hx _ IHl]; [reflexivity|].
    cbn [forallb] in Hnan, Huniq.
    apply andb_true_iff in Hnan as [Hn1 Hn2]. apply andb_true_iff in Huniq as [Hu1 Hu2].
    cbn. rewrite (Hx Hn1 Hu1). exact (IHl Hn2 Hu2).
  - rewrite value_no_nan_map in Hnan. rewrite maps_keys_unique_map in Huniq.
    apply andb_true_iff in Huniq as [Hkeys Huniq].
    apply keys_unique_NoDup in Hkeys.
    rewrite value_eqb_map, Nat.eqb_refl. cbn [andb].
    apply forallb_forall. intros [k x] Hin.
    cbv beta. cbn [fst snd]. rewrite (map_lookup_In_NoDup k x l Hkeys Hin).
    rewrite List.Forall_forall in IH. rewrite forallb_forall in Hnan, Huniq.
    exact (IH _ Hin (Hnan _ Hin) (Huniq _ Hin)).
  - destruct v as [b|z|z|z|z|z|z|s|s|z|mx|l|l]; cbn [value_eqb value_no_nan] in *;
      try (exfalso; eauto; fail).
    + apply Bool.eqb_reflx.
    + apply Z.eqb_refl.
    + apply Z.eqb_refl.
    + apply Z.eqb_refl.
    + apply Z.eqb_refl.
    + unfold f32_eqb. rewrite Hnan, Z.eqb_refl. reflexivity.
    + unfold f64_eqb. rewrite Hnan, Z.eqb_refl. reflexivity.
    + apply bytes_eqb_refl.
    + apply bytes_eqb_refl.
    + apply Z.eqb_refl.
    + exfalso. eapply Hm. reflexivity.
    + exfalso. eapply Hl. reflexivity.
    + exfalso. eapply Hmp. reflexivity.
Qed.

Lemma normalize_fields_In (nv : Value -> Value) (ie : Z -> Value -> bool) (fs : list (Z * Value))
    (Q : Z -> Value -> Prop) :
  (forall e, In e fs -> Q e.1 (nv e.2)) -> forall e, In e (normalize_fields nv ie fs) -> Q e.1 e.2.
Proof.
  induction fs as [|[n fv] fs IH]; intros H e Hin; [destruct Hin|].
  cbn [normalize_fields] in Hin. destruct (ie n fv).
  - apply IH; [intros e' He'; apply H; right; exact He'|exact Hin].
  - destruct Hin as [<-|Hin]; [apply (H (n, fv)); left; reflexivity|].
    apply IH; [intros e' He'; apply H; right; exact He'|exact Hin].
Qed.

Lemma value_no_nan_normalize (pool : Pool) (v : Value) :
  value_no_nan v = true -> value_no_nan (normalize_value pool v) = true.
Proof.
  induction v as [d fields u IH|l IH|l IH|v Hm Hl Hmp] using Value_ind2; intros Hn.
  - cbn [normalize_value]. rewrite value_no_nan_message in Hn |- *.
    rewrite List.Forall_forall in IH. rewrite forallb_forall in Hn |- *.
    apply (normalize_fields_In _ _ fields (fun _ x => value_no_nan x = true)).
    intros e He. exact (IH e He (Hn e He)).
  - cbn [normalize_value]. rewrite value_no_nan_list in Hn |- *.
    rewrite List.Forall_forall in IH. rewrite forallb_forall in Hn |- *.
    intros y Hy. apply in_map_iff in Hy as (x & <- & Hx). exact (IH x Hx (Hn x Hx)).
  - cbn [normalize_value]. rewrite value_no_nan_map in Hn |- *.
    rewrite List.Forall_forall in IH. rewrite forallb_forall in Hn |- *.
    intros y Hy. apply in_map_iff in Hy as ([k x] & <- & Hx). exact (IH (k, x) Hx (Hn (k, x) Hx)).
  - rewrite normalize_value_scalar by assumption. exact Hn.
Qed.

Lemma keys_unique_map_values (f : Value -> Value) (l : list (MapKey * Value)) :
  keys_unique (map (fun '(k, x) => (k, f x)) l) = keys_unique l.
Proof.
  apply Bool.eq_iff_eq_true. rewrite !keys_unique_NoDup, map_map.
  assert (E : map (fun e => fst (let '(k, x) := e in (k, f x))) l = map fst l).
  { apply map_ext. intros [k x]. reflexivity. }
  rewrite E. reflexivity.
Qed.

Lemma maps_keys_unique_normalize (pool : Pool) (v : Value) :
  maps_keys_unique v = true -> maps_keys_unique (normalize_value pool v) = true.
Proof.
  induction v as [d fields u IH|l IH|l IH|v Hm Hl Hmp] using Value_ind2; intros Hn.
  - cbn [normalize_value]. rewrite maps_keys_unique_message in Hn |- *.
    rewrite List.Forall_forall in IH. rewrite forallb_forall in Hn |- *.
    apply (normalize_fields_In _ _ fields (fun _ x => maps_keys_unique x = true)).
    intros e He. exact (IH e He (Hn e He)).
  - cbn [normalize_value]. rewrite maps_keys_unique_list in Hn |- *.
    rewrite List.Forall_forall in IH. rewrite forallb_forall in Hn |- *.
    intros y Hy. apply in_map_iff in Hy as (x & <- & Hx). exact (IH x Hx (Hn x Hx)).
  - cbn [normalize_value]. rewrite maps_keys_unique_map in Hn |- *.
    apply andb_true_iff in Hn as [Hk Hn]. rewrite keys_unique_map_values, Hk. cbn [andb].
    rewrite List.Forall_forall in IH. rewrite forallb_forall in Hn |- *.
    intros y Hy. apply in_map_iff in Hy as ([k x] & <- & Hx). exact (IH (k, x) Hx (Hn (k, x) Hx)).
  - rewrite normalize_value_scalar by assumption.
    destruct v; try reflexivity; exfalso; [eapply Hm|eapply Hl|eapply Hmp]; reflexivity.
Qed.

(** Well-formed messages hold maps with distinct keys. *)
Lemma wf_maps_keys_unique (pool : Pool) (v : Value) :
  value_wf pool v = true ->
  (forall k, value_is_valid k v = true -> maps_keys_unique v = true) /\
  (forall fd, field_value_valid pool fd v = true -> maps_keys_unique v = true).
Proof.
  induction v as [d fields u IH|l IH|l IH|v Hm Hl Hmp] using Value_ind2; intros Hwf.
  - assert (H : maps_keys_unique (VMessage (MkDynamicMessage d fields u)) = true).
    { rewrite value_wf_message in Hwf. apply andb_true_iff in Hwf as [Hloc Hsub].
      unfold message_local_ok in Hloc. destruct (get_message pool d) as [md|]; [|discriminate].
      apply andb_true_iff in Hloc as [Hloc _]. apply andb_true_iff in Hloc as [Hloc _].
      apply andb_true_iff in Hloc as [_ Hval].
      rewrite maps_keys_unique_message, forallb_forall. intros e He.
      rewrite List.Forall_forall in IH. rewrite forallb_forall in Hval, Hsub.
      specialize (Hval e He). destruct (find_field md e.1) as [fd|]; [|discriminate].
      exact (proj2 (IH e He (Hsub e He)) fd Hval). }
    split; intros; exact H.
  - rewrite value_wf_list, forallb_forall in Hwf. rewrite List.Forall_forall in IH.
    split; [intros k Hk; destruct k; discriminate|].
    intros fd Hfd. unfold field_value_valid in Hfd.
    destruct (is_map pool fd); [destruct (map_entry_kinds pool fd) as [[[? ?] ?]|]; discriminate|].
    destruct (fd_cardinality fd); [destruct (fd_kind fd); discriminate|destruct (fd_kind fd); discriminate|].
    rewrite maps_keys_unique_list, forallb_forall. rewrite forallb_forall in Hfd.
    intros x Hx. exact (proj1 (IH x Hx (Hwf x Hx)) _ (Hfd x Hx)).
  - rewrite value_wf_map, forallb_forall in Hwf. rewrite List.Forall_forall in IH.
    split; [intros k Hk; destruct k; discriminate|].
    intros fd Hfd. unfold field_value_valid in Hfd.
    destruct (is_map pool fd).
    + destruct (map_entry_kinds pool fd) as [[[eid kk] vk]|]; [|discriminate].
      apply andb_true_iff in Hfd as [Hval Hk]. rewrite forallb_forall in Hval.
      rewrite maps_keys_unique_map, Hk. cbn [andb]. rewrite forallb_forall. intros e He.
      specialize (Hval e He). apply andb_true_iff in Hval as [_ Hv].
      exact (proj1 (IH e He (Hwf e He)) _ Hv).
    + destruct (fd_cardinality fd); destruct (fd_kind fd); discriminate.
  - assert (H : maps_keys_unique v = true).
    { destruct v; try reflexivity; exfalso; [eapply Hm|eapply Hl|eapply Hmp]; reflexivity. }
    split; intros; exact H.
Qed.

(** C1 (amended): for a well-formed pool and a well-formed message without
    NaN floats (and an encoding shorter than 2^64 bytes), decoding the
    encoding succeeds and yields the message's normal form: the message with
    default-valued fields without presence and empty repeated and map fields
    dropped, everything else (nested messages, map entries, repeated
    elements, captured unknown fields) as it was.  The result is equal to the
    original under [DynamicMessage_eqb]. *)
Theorem decode_encode_roundtrip (pool : Pool) (m : DynamicMessage) :
  pool_wf pool = true -> message_wf pool m = true -> value_no_nan (VMessage m) = true ->
  Z.of_nat (length (DynamicMessage_encode pool m)) < 2 ^ 64 ->
  exists m', DynamicMessage_decode pool (dm_desc m) (DynamicMessage_encode pool m) = Ok m' /\
             m' = normalize pool m /\ DynamicMessage_eqb pool m' m = true.
Proof.
  intros Hpool Hwf Hnan Hbound. exists (normalize pool m). split; [|split; [reflexivity|]].
  - unfold DynamicMessage_decode, DynamicMessage_merge, DynamicMessage_new.
    unfold mbind, result_mbind.
    rewrite (message_roundtrip pool Hpool (VMessage m) Hwf m (or_introl eq_refl)) by (auto; lia).
    reflexivity.
  - unfold DynamicMessage_eqb. rewrite normalize_idem.
    apply value_eqb_refl.
    + apply value_no_nan_normalize. exact Hnan.
    + apply maps_keys_unique_normalize.
      destruct m as [d fields u].
      apply (proj1 (wf_maps_keys_unique pool _ Hwf) (KMessage d)). cbn. apply Nat.eqb_refl.
Qed.

Lemma decode_encode_roundtrip_witness :
  pool_wf example_codec_pool = true /\ message_wf example_codec_pool example_message = true /\
  value_no_nan (VMessage example_message) = true /\
  Z.of_nat (length (DynamicMessage_encode example_codec_pool example_message)) < 2 ^ 64 /\
  exists m', DynamicMessage_decode example_codec_pool (dm_desc example_message)
               (DynamicMessage_encode example_codec_pool example_message) = Ok m' /\
             m' = normalize example_codec_pool example_message /\
             DynamicMessage_eqb example_codec_pool m' example_message = true.
Proof.
  split; [vm_compute; reflexivity|]. split; [vm_compute; reflexivity|].
  split; [vm_compute; reflexivity|]. split; [vm_compute; reflexivity|].
  apply decode_encode_roundtrip; vm_compute; reflexivity.
Defined.

(** C1 counterexample: a message whose optional double field holds a NaN
    is well formed; decoding its encoding succeeds, but the result is not
    equal to the message, since NaN is unequal to itself. *)
Lemma decode_encode_nan_counterexample :
  pool_wf example_codec_pool = true /\ message_wf example_codec_pool example_nan_message = true /\
  DynamicMessage_decode example_codec_pool 0 (DynamicMessage_encode example_codec_pool example_nan_message) =
    Ok example_nan_message /\
  DynamicMessage_eqb example_codec_pool example_nan_message example_nan_message = false.
Proof. repeat split; vm_compute; reflexivity. Qed.

(** ** Oneof exclusivity *)

Lemma sorted_numbers_cons_intro (n : Z) (v : Value) (l : list (Z * Value)) :
  Forall (fun e => n < e.1) l -> sorted_numbers l = true -> sorted_numbers ((n, v) :: l) = true.
Proof.
  intros Hl Hs. destruct l as [|[n2 v2] l]; [reflexivity|].
  inversion Hl as [|? ? H12 _]; subst. cbn [fst] in H12.
  change (sorted_numbers ((n, v) :: (n2, v2) :: l)) with ((n <? n2) && sorted_numbers ((n2, v2) :: l)).
  rewrite Hs, (proj2 (Z.ltb_lt n n2) H12). reflexivity.
Qed.

Lemma Forall_filter_sub {A} (P : A -> Prop) (p : A -> bool) (l : list A) :
  Forall P l -> Forall P (List.filter p l).
Proof.
  intros H. apply List.Forall_forall. intros x Hx. apply filter_In in Hx as [Hx _].
  rewrite List.Forall_forall in H. exact (H x Hx).
Qed.

Lemma sorted_numbers_filter (p : Z * Value -> bool) (l : list (Z * Value)) :
  sorted_numbers l = true -> sorted_numbers (List.filter p l) = true.
Proof.
  induction l as [|[n v] l IH]; intros Hs; [reflexivity|].
  apply sorted_numbers_cons in Hs as [Hlt Hs]. cbn [List.filter].
  destruct (p (n, v)); [|exact (IH Hs)].
  apply sorted_numbers_cons_intro; [apply Forall_filter_sub; exact Hlt|exact (IH Hs)].
Qed.

Lemma forallb_Forall {A} (q : A -> bool) (l : list A) : forallb q l = true <-> Forall (fun x => q x = true) l.
Proof. rewrite forallb_forall, List.Forall_forall. reflexivity. Qed.

Lemma oneof_exclusive_filter (md : MessageDescriptor) (p : Z * Value -> bool) (l : list (Z * Value)) :
  oneof_exclusive md l = true -> oneof_exclusive md (List.filter p l) = true.
Proof.
  induction l as [|[n v] l IH]; intros He; [reflexivity|].
  cbn [oneof_exclusive] in He. apply andb_true_iff in He as [Hh Ht].
  cbn [List.filter]. destruct (p (n, v)); [|exact (IH Ht)].
  cbn [oneof_exclusive]. rewrite (IH Ht), andb_true_r.
  destruct (member_oneof md n); [|reflexivity].
  apply forallb_Forall. apply Forall_filter_sub. apply forallb_Forall. exact Hh.
Qed.

Lemma insert_field_Forall (P : Z * Value -> Prop) (n : Z) (v : Value) (l : list (Z * Value)) :
  Forall P l -> P (n, v) -> Forall P (insert_field n v l).
Proof.
  induction 1 as [|[n' v'] l Hh Ht IH]; intros Hn; cbn [insert_field]; [repeat constructor; exact Hn|].
  destruct (n <? n'); [constructor; [exact Hn|constructor; assumption]|].
  destruct (n =? n'); [constructor; assumption|].
  constructor; [exact Hh|exact (IH Hn)].
Qed.

Lemma insert_field_sorted (n : Z) (v : Value) (l : list (Z * Value)) :
  sorted_numbers l = true -> sorted_numbers (insert_field n v l) = true.
Proof.
  induction l as [|[n' v'] l IH]; intros Hs; [reflexivity|].
  pose proof (sorted_numbers_cons _ _ _ Hs) as [Hlt Hs'].
  cbn [insert_field]. destruct (Z.ltb_spec n n').
  - apply sorted_numbers_cons_intro; [constructor; [exact H|]|exact Hs].
    eapply List.Forall_impl; [|exact Hlt]. intros e He. cbv beta in *. lia.
  - destruct (Z.eqb_spec n n').
    + subst. apply sorted_numbers_cons_intro; assumption.
    + apply sorted_numbers_cons_intro; [|exact (IH Hs')].
      apply insert_field_Forall; [exact Hlt|]. cbn [fst]. lia.
Qed.

(** Inserting a field whose oneof siblings are all absent keeps the oneofs
    exclusive. *)
Lemma insert_field_exclusive (md : MessageDescriptor) (n : Z) (v : Value) (l : list (Z * Value)) :
  sorted_numbers l = true -> oneof_exclusive md l = true ->
  Forall (fun e => e.1 = n \/ member_oneof md n = None \/ member_oneof md e.1 <> member_oneof md n) l ->
  oneof_exclusive md (insert_field n v l) = true.
Proof.
  induction l as [|[n' v'] l IH]; intros Hs He Hc.
  { cbn. destruct (member_oneof md n); reflexivity. }
  pose proof (sorted_numbers_cons _ _ _ Hs) as [Hlt Hs'].
  cbn [oneof_exclusive] in He. apply andb_true_iff in He as [Hh Ht].
  inversion Hc as [|? ? Hc1 Hc']; subst. cbn [fst] in Hc1.
  assert (Hfar : forall l' : list (Z * Value), Forall (fun e : Z * Value => n < e.1) l' ->
            Forall (fun e : Z * Value => e.1 = n \/ member_oneof md n = None \/ member_oneof md e.1 <> member_oneof md n) l' ->
            match member_oneof md n with
            | Some o => forallb (fun e => negb (bool_decide (member_oneof md e.1 = Some o))) l'
            | None => true end = true).
  { intros l' Hl1 Hl2. destruct (member_oneof md n) as [o|] eqn:Eo; [|reflexivity].
    apply forallb_Forall. apply List.Forall_forall. intros e He.
    rewrite List.Forall_forall in Hl1, Hl2. specialize (Hl1 e He). specialize (Hl2 e He).
    apply negb_true_iff, bool_decide_eq_false. destruct Hl2 as [Hl2|[Hl2|Hl2]]; [lia|discriminate|exact Hl2]. }
  cbn [insert_field]. destruct (Z.ltb_spec n n').
  - cbn [oneof_exclusive]. apply andb_true_iff. split.
    + apply Hfar; constructor; cbn [fst]; try assumption.
      * eapply List.Forall_impl; [|exact Hlt]. intros e Hx. cbv beta in *. lia.
    + cbn [oneof_exclusive]. rewrite Hh, Ht. reflexivity.
  - destruct (Z.eqb_spec n n').
    + subst n'. cbn [oneof_exclusive]. rewrite Ht, andb_true_r. apply Hfar; assumption.
    + cbn [oneof_exclusive]. rewrite (IH Hs' Ht Hc'), andb_true_r.
      destruct (member_oneof md n') as [o|] eqn:Eo; [|reflexivity].
      apply forallb_Forall. apply insert_field_Forall; [apply forallb_Forall; exact Hh|].
      cbn [fst]. apply negb_true_iff, bool_decide_eq_false.
      destruct Hc1 as [Hc1|[Hc1|Hc1]]; [lia|congruence|congruence].
Qed.

(** Merging one record either captures it as an unknown field or sets one
    declared field through [set_raw]. *)
Lemma merge_record_shape (dec : DynamicMessage -> list Z -> result DecodeError DynamicMessage)
    (pool : Pool) (r : WireRecord) (m m' : DynamicMessage) (md : MessageDescriptor) :
  get_message pool (dm_desc m) = Some md -> merge_record dec pool r m = Ok m' ->
  dm_desc m' = dm_desc m /\
  ((dm_fields m' = dm_fields m /\ find_field md (wr_number r) = None /\
    dm_unknown m' = dm_unknown m ++ [{| uf_number := wr_number r; uf_raw := wr_raw r |}]) \/
   (dm_unknown m' = dm_unknown m /\
    exists fd v, find_field md (wr_number r) = Some fd /\ dm_fields m' = set_raw md fd v (dm_fields m))).
Proof.
  destruct m as [d fields unknown]. cbn [dm_desc dm_fields dm_unknown]. intros Hmd H.
  unfold merge_record in H. rewrite Hmd in H. cbv zeta in H.
  destruct (find_field md (wr_number r)) as [fd|] eqn:Hf.
  - repeat (unfold mbind, result_mbind in H; cbv zeta in H; first
      [ discriminate H
      | injection H as <-; cbn [dm_desc dm_fields dm_unknown]; split; [reflexivity|right];
        split; [reflexivity|]; eexists _, _; split; [reflexivity|reflexivity]
      | match type of H with
        | result_bind ?x _ = Ok _ => let a := fresh "a" in destruct x as [a|?] eqn:?; cbn [result_bind] in H
        | context [match ?x with _ => _ end] => destruct x eqn:?
        | context [if ?x then _ else _] => destruct x eqn:?
        end ]).
  - injection H as <-. cbn [dm_desc dm_fields dm_unknown]. split; [reflexivity|left]. auto.
Qed.

Lemma merge_loop_invariant (pool : Pool) (P : list Z -> DynamicMessage -> Prop) :
  (forall bs r rest m1 m2 dec, P bs m1 -> read_record bs = Ok (r, rest) ->
     merge_record dec pool r m1 = Ok m2 -> P rest m2) ->
  forall fuel bytes m m', P bytes m -> merge_loop fuel pool bytes m = Ok m' -> P [] m'.
Proof.
  intros Hstep fuel. induction fuel as [|f IH]; intros bytes m m' Hp H.
  - destruct bytes; [injection H as <-; exact Hp|discriminate].
  - destruct bytes as [|b bs]; [injection H as <-; exact Hp|].
    cbn [merge_loop] in H. bind_inv H. destruct a as [r rest]. bind_inv H.
    apply (IH rest a m'); [eapply Hstep; eassumption|exact H].
Qed.


(** Setting a field through [set_raw] keeps the fields sorted and the
    oneofs exclusive. *)
Lemma set_raw_invariant (md : MessageDescriptor) (fd : FieldDescriptor) (v : Value) (l : list (Z * Value)) :
  find_field md (fd_number fd) = Some fd ->
  sorted_numbers l = true -> oneof_exclusive md l = true ->
  sorted_numbers (set_raw md fd v l) = true /\ oneof_exclusive md (set_raw md fd v l) = true.
Proof.
  intros Hfd Hs He. pose proof (member_oneof_field md _ fd Hfd) as Hmo.
  unfold set_raw, clear_oneof. destruct (fd_oneof fd) as [o|] eqn:Eo.
  - split; [apply insert_field_sorted, sorted_numbers_filter, Hs|].
    apply insert_field_exclusive;
      [apply sorted_numbers_filter, Hs|apply oneof_exclusive_filter, He|].
    apply List.Forall_forall. intros e Hin. apply filter_In in Hin as [_ Hp].
    apply orb_true_iff in Hp as [Hp|Hp]; [left; apply Z.eqb_eq, Hp|].
    right. right. rewrite Hmo. apply negb_true_iff, bool_decide_eq_false in Hp. exact Hp.
  - split; [apply insert_field_sorted, Hs|].
    apply insert_field_exclusive; try assumption.
    apply List.Forall_forall. intros e _. right. left. exact Hmo.
Qed.

Lemma find_field_self (md : MessageDescriptor) (n : Z) (fd : FieldDescriptor) :
  find_field md n = Some fd -> find_field md (fd_number fd) = Some fd.
Proof. intros H. destruct (find_field_number md n fd H) as [-> _]. exact H. Qed.

Lemma remove_field_invariant (md : MessageDescriptor) (n : Z) (l : list (Z * Value)) :
  sorted_numbers l = true -> oneof_exclusive md l = true ->
  sorted_numbers (remove_field n l) = true /\ oneof_exclusive md (remove_field n l) = true.
Proof.
  intros Hs He. unfold remove_field.
  split; [apply sorted_numbers_filter, Hs|apply oneof_exclusive_filter, He].
Qed.

(** Every reachable message is bound to a descriptor of the pool, its fields
    are in number order and each oneof has at most one member present. *)
Lemma reachable_invariant (pool : Pool) (m : DynamicMessage) :
  reachable pool m ->
  exists md, get_message pool (dm_desc m) = Some md /\
             sorted_numbers (dm_fields m) = true /\ oneof_exclusive md (dm_fields m) = true.
Proof.
  induction 1 as [d md Hmd|m m' n v _ (md & Hmd & Hs & He) Hset|m n _ (md & Hmd & Hs & He)
                 |m m' bytes _ (md & Hmd & Hs & He) Hmerge].
  - exists md. split; [exact Hmd|split; reflexivity].
  - destruct m as [d fields u]. cbn [dm_desc dm_fields] in *.
    unfold DynamicMessage_set_field in Hset. rewrite Hmd in Hset.
    destruct (find_field md n) as [fd|] eqn:Hfd; [|discriminate].
    destruct (field_value_valid pool fd v); [|discriminate]. injection Hset as <-.
    exists md. split; [exact Hmd|]. apply set_raw_invariant; try assumption.
    apply (find_field_self md n). exact Hfd.
  - exists md. destruct m as [d fields u]. cbn [dm_desc dm_fields] in *.
    split; [exact Hmd|]. apply remove_field_invariant; assumption.
  - unfold DynamicMessage_merge in Hmerge.
    apply (merge_loop_invariant pool
             (fun _ m1 => get_message pool (dm_desc m1) = Some md /\
                          sorted_numbers (dm_fields m1) = true /\ oneof_exclusive md (dm_fields m1) = true))
      in Hmerge.
    + exists md. exact Hmerge.
    + intros bs r rest m1 m2 dec (H1 & H2 & H3) _ Hr.
      destruct (merge_record_shape dec pool r m1 m2 md H1 Hr) as [Hd [(Hf & _ & _)|(_ & fd & x & Hfd & Hf)]];
        rewrite Hd, Hf; split; try assumption.
      * split; assumption.
      * apply set_raw_invariant; try assumption. apply (find_field_self md (wr_number r)). exact Hfd.
    + split; [exact Hmd|split; assumption].
Qed.

Lemma lookup_insert_field_same (n : Z) (v : Value) (l : list (Z * Value)) :
  lookup_field n (insert_field n v l) = Some v.
Proof.
  induction l as [|[n' v'] l IH]; cbn [insert_field lookup_field]; [rewrite Z.eqb_refl; reflexivity|].
  destruct (n <? n'); [cbn [lookup_field]; rewrite Z.eqb_refl; reflexivity|].
  destruct (Z.eqb_spec n n'); cbn [lookup_field]; [rewrite Z.eqb_refl; reflexivity|].
  destruct (Z.eqb_spec n n'); [contradiction|exact IH].
Qed.

Lemma lookup_insert_field_other (a n : Z) (v : Value) (l : list (Z * Value)) :
  a <> n -> lookup_field a (insert_field n v l) = lookup_field a l.
Proof.
  intros Hne. induction l as [|[n' v'] l IH]; cbn [insert_field lookup_field].
  - destruct (Z.eqb_spec a n); [contradiction|reflexivity].
  - destruct (n <? n'); cbn [lookup_field].
    + destruct (Z.eqb_spec a n); [contradiction|reflexivity].
    + destruct (Z.eqb_spec n n'); cbn [lookup_field].
      * subst n'. destruct (Z.eqb_spec a n); [contradiction|reflexivity].
      * destruct (a =? n'); [reflexivity|exact IH].
Qed.

Lemma lookup_filter_none (a : Z) (p : Z * Value -> bool) (l : list (Z * Value)) :
  (forall x, p (a, x) = false) -> lookup_field a (List.filter p l) = None.
Proof.
  intros Hp. induction l as [|[n x] l IH]; [reflexivity|]. cbn [List.filter].
  destruct (p (n, x)) eqn:E; [|exact IH].
  cbn [lookup_field]. destruct (Z.eqb_spec a n); [subst; congruence|exact IH].
Qed.

(** C5: every message reachable through the API (created for a descriptor,
    then changed by [set_field], [clear_field] and [merge]) has at most one
    present member in each oneof of its descriptor; and setting a member [a]
    of a oneof and then another member [b] of the same oneof leaves [b]
    present with its value and [a] absent. *)
Theorem oneof_at_most_one (pool : Pool) :
  (forall m, reachable pool m ->
     exists md, get_message pool (dm_desc m) = Some md /\ oneof_exclusive md (dm_fields m) = true) /\
  (forall m m1 m2 md a b fa fb o va vb,
     get_message pool (dm_desc m) = Some md ->
     find_field md a = Some fa -> find_field md b = Some fb ->
     fd_oneof fa = Some o -> fd_oneof fb = Some o -> a <> b ->
     DynamicMessage_set_field pool m a va = Ok m1 ->
     DynamicMessage_set_field pool m1 b vb = Ok m2 ->
     lookup_field a (dm_fields m2) = None /\ lookup_field b (dm_fields m2) = Some vb /\
     DynamicMessage_has_field pool m2 a = false).
Proof.
  split.
  - intros m Hr. destruct (reachable_invariant pool m Hr) as (md & Hmd & _ & He). eauto.
  - intros m m1 m2 md a b fa fb o va vb Hmd Hfa Hfb Hoa Hob Hab H1 H2.
    destruct m as [d fields u]. cbn [dm_desc] in Hmd.
    unfold DynamicMessage_set_field in H1. rewrite Hmd, Hfa in H1.
    destruct (field_value_valid pool fa va); [|discriminate]. injection H1 as <-.
    unfold DynamicMessage_set_field in H2. rewrite Hmd, Hfb in H2.
    destruct (field_value_valid pool fb vb); [|discriminate]. injection H2 as <-.
    destruct (find_field_number md b fb Hfb) as [Hnb _].
    assert (Heq : set_raw md fb vb (set_raw md fa va fields) = insert_field b vb (List.filter
              (fun e => (e.1 =? b) || negb (bool_decide (member_oneof md e.1 = Some o)))
              (set_raw md fa va fields))).
    { unfold set_raw at 1. unfold clear_oneof at 1. rewrite Hob, Hnb. reflexivity. }
    cbn [dm_fields]. rewrite Heq.
    assert (Hnone : lookup_field a (insert_field b vb (List.filter
              (fun e => (e.1 =? b) || negb (bool_decide (member_oneof md e.1 = Some o)))
              (set_raw md fa va fields))) = None).
    { rewrite lookup_insert_field_other by exact Hab.
      apply lookup_filter_none. intros x. cbn [fst].
      destruct (Z.eqb_spec a b); [contradiction|].
      rewrite (member_oneof_field md a fa Hfa), Hoa, bool_decide_eq_true_2 by reflexivity. reflexivity. }
    split; [exact Hnone|]. split; [apply lookup_insert_field_same|].
    unfold DynamicMessage_has_field. cbn [dm_desc dm_fields]. rewrite Hmd, Hfa, Hnone. reflexivity.
Qed.

Lemma oneof_at_most_one_witness :
  DynamicMessage_set_field example_codec_pool (DynamicMessage_new 0) 3 (VI32 7) =
    Ok (MkDynamicMessage 0 [(3, VI32 7)] []) /\
  DynamicMessage_set_field example_codec_pool (MkDynamicMessage 0 [(3, VI32 7)] []) 5 (VString [104]) =
    Ok (MkDynamicMessage 0 [(5, VString [104])] []) /\
  lookup_field 3 (dm_fields (MkDynamicMessage 0 [(5, VString [104])] [])) = None /\
  lookup_field 5 (dm_fields (MkDynamicMessage 0 [(5, VString [104])] [])) = Some (VString [104]) /\
  DynamicMessage_has_field example_codec_pool (MkDynamicMessage 0 [(5, VString [104])] []) 3 = false.
Proof.
  split; [vm_compute; reflexivity|]. split; [vm_compute; reflexivity|].
  apply (proj2 (oneof_at_most_one example_codec_pool) (DynamicMessage_new 0)
           (MkDynamicMessage 0 [(3, VI32 7)] []) (MkDynamicMessage 0 [(5, VString [104])] [])
           example_msg 3 5 (example_field 3 "x" KInt32 Singular (Some 0%nat))
           (example_field 5 "y" KString Singular (Some 0%nat)) 0%nat (VI32 7) (VString [104]));
    try (vm_compute; reflexivity); lia.
Defined.

(** ** Unknown fields *)

Lemma decode_as_merge (pool : Pool) (d : nat) (bytes : list Z) :
  DynamicMessage_decode pool d bytes = merge_loop (length bytes) pool bytes (DynamicMessage_new d).
Proof.
  unfold DynamicMessage_decode, DynamicMessage_merge, mbind, result_mbind.
  destruct (merge_loop _ _ _ _); reflexivity.
Qed.

(** Every unknown field of a decoded message is one undeclared record, and
    its bytes occur, contiguous, in the input. *)
Lemma decode_unknowns_captured (pool : Pool) (d : nat) (md : MessageDescriptor)
    (bytes : list Z) (m : DynamicMessage) :
  get_message pool d = Some md -> DynamicMessage_decode pool d bytes = Ok m ->
  dm_desc m = d /\
  Forall (fun u => unknown_field_ok md u = true /\ exists pre post, bytes = pre ++ uf_raw u ++ post)
    (dm_unknown m).
Proof.
  intros Hmd H. rewrite decode_as_merge in H.
  set (P := fun bs m => dm_desc m = d /\ (exists consumed, bytes = consumed ++ bs) /\
    Forall (fun u => unknown_field_ok md u = true /\ exists pre post, bytes = pre ++ uf_raw u ++ post)
      (dm_unknown m)).
  assert (HP : P [] m).
  { apply (merge_loop_invariant pool P) with (fuel := length bytes) (bytes := bytes) (m := DynamicMessage_new d);
      [|split; [reflexivity|split; [exists []; reflexivity|constructor]]|exact H].
    intros bs r rest m1 m2 dec (Hd & [consumed Hc] & Hu) Hr Hm.
    rewrite <- Hd in Hmd.
    destruct (merge_record_shape dec pool r m1 m2 md Hmd Hm) as [Hd2 Hcase].
    destruct (read_record_consume _ _ _ Hr) as (Hbs & _ & Hread & _).
    split; [congruence|]. split; [exists (consumed ++ wr_raw r); rewrite Hc, Hbs, app_assoc; reflexivity|].
    destruct Hcase as [(_ & Hnf & Hun) | (Hun & _)]; rewrite Hun; [|exact Hu].
    apply Forall_app. split; [exact Hu|]. constructor; [|constructor].
    split.
    - unfold unknown_field_ok. cbn [uf_raw uf_number].
      specialize (Hread []). rewrite app_nil_r in Hread. rewrite Hread, Z.eqb_refl, Hnf. reflexivity.
    - exists consumed, rest. cbn [uf_raw]. rewrite Hc, Hbs. reflexivity. }
  destruct HP as (Hd & _ & Hu). split; assumption.
Qed.

(** The encoding of a message ends with the bytes of its unknown fields, in
    order. *)
Lemma encode_ends_with_unknowns (pool : Pool) (m : DynamicMessage) :
  exists pre, DynamicMessage_encode pool m = pre ++ concat (map uf_raw (dm_unknown m)).
Proof. destruct m as [d fields u]. eexists. reflexivity. Qed.

(** Merging a record never reads the unknown fields already stored: it
    keeps them as a prefix of the result's. *)
Definition prefix_unknown (u : list UnknownField) (m : DynamicMessage) : result DecodeError DynamicMessage :=
  Ok (MkDynamicMessage (dm_desc m) (dm_fields m) (u ++ dm_unknown m)).

Lemma merge_record_unknown_frame (dec : DynamicMessage -> list Z -> result DecodeError DynamicMessage)
    (pool : Pool) (r : WireRecord) (d : nat) (fs : list (Z * Value)) (u u' : list UnknownField) :
  merge_record dec pool r (MkDynamicMessage d fs (u ++ u')) =
  result_bind (merge_record dec pool r (MkDynamicMessage d fs u')) (prefix_unknown u).
Proof.
  unfold merge_record. destruct (get_message pool d) as [md|]; [|reflexivity]. cbv zeta.
  destruct (find_field md (wr_number r)) as [fd|].
  - unfold mbind, result_mbind.
    repeat (first
      [ reflexivity
      | progress cbn [result_bind prefix_unknown dm_desc dm_fields dm_unknown]
      | match goal with
        | |- context [result_bind (dec ?a ?b) _] => destruct (dec a b)
        | |- context [result_bind (decode_packed ?f ?k ?n ?b) _] => destruct (decode_packed f k n b)
        | |- context [result_bind (decode_scalar ?k ?n ?p) _] => destruct (decode_scalar k n p)
        | |- context [match ?x with _ => _ end] =>
            lazymatch x with Ok _ => fail | Err _ => fail | _ => destruct x end
        | |- context [if ?x then _ else _] => destruct x
        end ]).
  - cbn. unfold prefix_unknown. cbn. rewrite app_assoc. reflexivity.
Qed.

Lemma merge_loop_unknown_frame (fuel : nat) (pool : Pool) (bytes : list Z) (d : nat)
    (fs : list (Z * Value)) (u u' : list UnknownField) :
  merge_loop fuel pool bytes (MkDynamicMessage d fs (u ++ u')) =
  result_bind (merge_loop fuel pool bytes (MkDynamicMessage d fs u')) (prefix_unknown u).
Proof.
  revert bytes d fs u'. induction fuel as [|f IH]; intros bytes d fs u'.
  - destruct bytes; reflexivity.
  - destruct bytes as [|b bs]; [reflexivity|]. cbn [merge_loop]. unfold mbind, result_mbind.
    destruct (read_record (b :: bs)) as [[r rest]|e]; [|reflexivity]. cbn [result_bind].
    rewrite merge_record_unknown_frame.
    destruct (merge_record _ pool r _) as [[d2 fs2 u2]|e]; [|reflexivity]. cbn [result_bind prefix_unknown dm_desc dm_fields dm_unknown].
    apply IH.
Qed.

(** Decoding [b0 ++ raw ++ b1], with [raw] one undeclared record after the
    records of [b0], reads [b0], keeps [raw] as an unknown field, then
    merges [b1] as if starting from no unknown fields. *)
Lemma decode_insert_unknown (pool : Pool) (d : nat) (md : MessageDescriptor)
    (b0 raw b1 : list Z) (m0 : DynamicMessage) (r : WireRecord) :
  get_message pool d = Some md ->
  DynamicMessage_decode pool d b0 = Ok m0 ->
  read_record raw = Ok (r, []) -> find_field md (wr_number r) = None ->
  DynamicMessage_decode pool d (b0 ++ raw ++ b1) =
    result_bind (merge_loop (length b1) pool b1 (MkDynamicMessage d (dm_fields m0) []))
      (prefix_unknown (dm_unknown m0 ++ [{| uf_number := wr_number r; uf_raw := raw |}])) /\
  DynamicMessage_decode pool d (b0 ++ b1) =
    result_bind (merge_loop (length b1) pool b1 (MkDynamicMessage d (dm_fields m0) []))
      (prefix_unknown (dm_unknown m0)).
Proof.
  intros Hmd H0 Hr Hnf.
  destruct (decode_unknowns_captured pool d md b0 m0 Hmd H0) as [Hd _].
  destruct (read_record_consume _ _ _ Hr) as (Hraw & Hne & Hread & _).
  rewrite app_nil_r in Hraw.
  rewrite decode_as_merge in H0.
  destruct m0 as [d0 fs0 u0]. cbn [dm_desc dm_fields dm_unknown] in *. subst d0.
  split.
  - rewrite decode_as_merge.
    rewrite (merge_loop_fuel (length b0) (length (b0 ++ raw ++ b1))) in H0 by (rewrite ?length_app; lia).
    rewrite (merge_loop_app _ pool b0 (raw ++ b1) _ _ H0) by lia.
    assert (Hlen : (1 <= length raw)%nat) by (rewrite Hraw; destruct (wr_raw r); [congruence|simpl; lia]).
    rewrite !length_app.
    destruct (length b0 + (length raw + length b1))%nat as [|f] eqn:Ef; [lia|].
    remember (raw ++ b1) as bs eqn:Ebs.
    destruct bs as [|y ys]; [destruct raw; [simpl in Hlen; lia|discriminate]|].
    cbn [merge_loop]. rewrite Ebs, Hraw, Hread.
    unfold mbind, result_mbind. cbn [result_bind].
    unfold merge_record. rewrite Hmd, Hnf. cbn [result_bind].
    rewrite (merge_loop_fuel f (length b1)) by lia.
    rewrite <- merge_loop_unknown_frame, app_nil_r, <- Hraw. reflexivity.
  - rewrite decode_as_merge.
    rewrite (merge_loop_fuel (length b0) (length (b0 ++ b1))) in H0 by (rewrite ?length_app; lia).
    rewrite (merge_loop_app _ pool b0 b1 _ _ H0) by lia.
    rewrite (merge_loop_fuel _ (length b1)) by (rewrite ?length_app; lia).
    rewrite <- merge_loop_unknown_frame, app_nil_r. reflexivity.
Qed.

(** C6: inserting one record with a number the descriptor does not declare
    into decodable bytes, at a record boundary, keeps decoding successful:
    the declared fields are the same, and the record's tag and payload bytes
    are kept verbatim as an unknown field, between the unknown fields read
    before it and those read after it; the re-encoded message emits exactly
    those bytes, in that order.  When the bytes without the record fail to
    decode, the same error is returned.  In general every unknown field of a
    decoded message is one undeclared record whose bytes occur contiguously
    in the input, and encoding emits the unknown fields' bytes unchanged. *)
Theorem unknown_fields_preserved (pool : Pool) (d : nat) (md : MessageDescriptor) :
  get_message pool d = Some md ->
  (forall b0 raw b1 m0 r,
     DynamicMessage_decode pool d b0 = Ok m0 ->
     read_record raw = Ok (r, []) -> find_field md (wr_number r) = None ->
     (forall m, DynamicMessage_decode pool d (b0 ++ b1) = Ok m ->
        exists us, dm_unknown m = dm_unknown m0 ++ us /\
          DynamicMessage_decode pool d (b0 ++ raw ++ b1) =
            Ok (MkDynamicMessage d (dm_fields m)
                  (dm_unknown m0 ++ {| uf_number := wr_number r; uf_raw := raw |} :: us)) /\
          exists pre, DynamicMessage_encode pool
            (MkDynamicMessage d (dm_fields m)
               (dm_unknown m0 ++ {| uf_number := wr_number r; uf_raw := raw |} :: us))
            = pre ++ concat (map uf_raw (dm_unknown m0)) ++ raw ++ concat (map uf_raw us)) /\
     (forall e, DynamicMessage_decode pool d (b0 ++ b1) = Err e ->
        DynamicMessage_decode pool d (b0 ++ raw ++ b1) = Err e)) /\
  (forall bytes m, DynamicMessage_decode pool d bytes = Ok m ->
     Forall (fun u => unknown_field_ok md u = true /\ exists pre post, bytes = pre ++ uf_raw u ++ post)
       (dm_unknown m)) /\
  (forall m, exists pre, DynamicMessage_encode pool m = pre ++ concat (map uf_raw (dm_unknown m))).
Proof.
  intros Hmd. split; [|split].
  - intros b0 raw b1 m0 r H0 Hr Hnf.
    destruct (decode_insert_unknown pool d md b0 raw b1 m0 r Hmd H0 Hr Hnf) as [Hins Hwo].
    split.
    + intros m Hm.
      destruct (decode_unknowns_captured pool d md _ _ Hmd Hm) as [Hdm _].
      rewrite Hwo in Hm.
      destruct (merge_loop _ pool b1 _) as [mb|e]; [|discriminate].
      cbn [result_bind] in Hins, Hm. unfold prefix_unknown in Hins, Hm.
      injection Hm as <-. cbn [dm_desc dm_fields dm_unknown] in Hdm |- *.
      exists (dm_unknown mb). split; [reflexivity|].
      rewrite Hins, Hdm, <- app_assoc. split; [reflexivity|].
      destruct (encode_ends_with_unknowns pool
        (MkDynamicMessage d (dm_fields mb) (dm_unknown m0 ++ {| uf_number := wr_number r; uf_raw := raw |} :: dm_unknown mb)))
        as [pre Hpre].
      exists pre. rewrite Hpre. cbn [dm_unknown]. rewrite map_app, concat_app. reflexivity.
    + intros e He. rewrite Hwo in He. rewrite Hins.
      destruct (merge_loop _ pool b1 _); [discriminate|exact He].
  - intros bytes m H. exact (proj2 (decode_unknowns_captured pool d md bytes m Hmd H)).
  - apply encode_ends_with_unknowns.
Qed.

Lemma unknown_fields_preserved_witness :
  DynamicMessage_decode example_codec_pool 0 ([8; 1] ++ [152; 6; 7] ++ [8; 2; 160; 6; 1]) =
    Ok (MkDynamicMessage 0 [(1, VI32 2)]
          [{| uf_number := 99; uf_raw := [152; 6; 7] |}; {| uf_number := 100; uf_raw := [160; 6; 1] |}]).
Proof.
  destruct (proj1 (proj1 (unknown_fields_preserved example_codec_pool 0 example_msg eq_refl)
      [8; 1] [152; 6; 7] [8; 2; 160; 6; 1] (MkDynamicMessage 0 [(1, VI32 1)] [])
      {| wr_number := 99; wr_payload := PVarint 7; wr_raw := [152; 6; 7] |}
      ltac:(vm_compute; reflexivity) ltac:(vm_compute; reflexivity) ltac:(vm_compute; reflexivity))
      (MkDynamicMessage 0 [(1, VI32 2)] [{| uf_number := 100; uf_raw := [160; 6; 1] |}])
      ltac:(vm_compute; reflexivity)) as (us & Hus & Hdec & _).
  cbn in Hus. subst us. exact Hdec.
Defined.

(** ** Decode errors *)

Lemma encode_varint_aux_length (m : nat) (v : Z) : (length (encode_varint_aux m v) <= m)%nat.
Proof.
  revert v. induction m as [|m IH]; intros v; cbn [encode_varint_aux]; [simpl; lia|].
  destruct (v <? 128); simpl; [lia|]. specialize (IH (Z.shiftr v 7)). lia.
Qed.

(** Every byte of a strict prefix of an encoded varint has its
    continuation bit set. *)
Lemma varint_prefix_cont (m : nat) (v : Z) (k : nat) :
  (k < length (encode_varint_aux m v))%nat ->
  Forall (fun b => 128 <= b) (take k (encode_varint_aux m v)).
Proof.
  revert v k. induction m as [|m IH]; intros v k Hk; cbn [encode_varint_aux] in *; [simpl in Hk; lia|].
  destruct (v <? 128).
  - simpl in Hk. replace k with 0%nat by lia. constructor.
  - destruct k as [|k]; [constructor|]. cbn [take length] in *. constructor.
    + rewrite varint_byte_value. pose proof (Z.mod_pos_bound v 128). lia.
    + apply IH. lia.
Qed.

Lemma decode_varint_aux_cont_truncated (n : nat) (acc s : Z) (c : list Z) :
  Forall (fun b => 128 <= b) c -> (length c < n)%nat -> decode_varint_aux n acc s c = Err Truncated.
Proof.
  intros Hc. revert n acc s. induction Hc as [|b c Hb Hc IH]; intros n acc s Hn.
  - destruct n; [simpl in Hn; lia|reflexivity].
  - destruct n as [|n]; [simpl in Hn; lia|]. cbn [decode_varint_aux].
    destruct (Z.ltb_spec b 128); [lia|]. apply IH. simpl in Hn. lia.
Qed.

Lemma decode_varint_aux_cont_invalid (n : nat) (acc s : Z) (c rest : list Z) :
  Forall (fun b => 128 <= b) c -> length c = n -> decode_varint_aux n acc s (c ++ rest) = Err InvalidVarint.
Proof.
  intros Hc. revert n acc s. induction Hc as [|b c Hb Hc IH]; intros n acc s Hn.
  - subst n. reflexivity.
  - destruct n as [|n]; [discriminate|]. cbn [decode_varint_aux app].
    destruct (Z.ltb_spec b 128); [lia|]. apply IH. simpl in Hn. lia.
Qed.

Lemma decode_varint_prefix (v : Z) (k : nat) :
  (k < length (encode_varint v))%nat -> decode_varint (take k (encode_varint v)) = Err Truncated.
Proof.
  intros Hk. unfold decode_varint. apply decode_varint_aux_cont_truncated.
  - apply varint_prefix_cont. exact Hk.
  - rewrite length_take. unfold encode_varint in Hk. pose proof (encode_varint_aux_length 10 v). lia.
Qed.

Lemma decode_fixed_short (n : nat) (c : list Z) :
  (length c < n)%nat -> decode_fixed n c = Err Truncated.
Proof.
  revert c. induction n as [|n IH]; intros c Hc; [simpl in Hc; lia|].
  destruct c as [|b c]; [reflexivity|]. cbn [decode_fixed]. rewrite IH by (simpl in Hc; lia). reflexivity.
Qed.

Lemma decode_key_prefix (number : Z) (wt : WireType) (k : nat) :
  (k < length (encode_key number wt))%nat -> decode_key (take k (encode_key number wt)) = Err Truncated.
Proof.
  intros Hk. unfold decode_key, encode_key in *. unfold mbind, result_mbind at 1.
  rewrite decode_varint_prefix by exact Hk. reflexivity.
Qed.

Lemma read_payload_prefix (p : Payload) (k : nat) :
  payload_ok p -> (k < length (encode_payload p))%nat ->
  read_payload (payload_wire_type p) (take k (encode_payload p)) = Err Truncated.
Proof.
  intros Hp Hk. destruct p as [v|v|b|v]; cbn [payload_wire_type encode_payload read_payload] in *;
    unfold mbind, result_mbind.
  - rewrite decode_varint_prefix by exact Hk. reflexivity.
  - rewrite decode_fixed_short by (rewrite length_take, length_encode_fixed in *; lia). reflexivity.
  - unfold encode_length_delimited in *. rewrite length_app in Hk.
    destruct (Nat.lt_ge_cases k (length (encode_varint (Z.of_nat (length b))))) as [Hlt|Hge].
    + rewrite take_app_le by lia. unfold decode_length_delimited, mbind, result_mbind.
      rewrite decode_varint_prefix by exact Hlt. reflexivity.
    + rewrite take_app_ge by exact Hge. unfold decode_length_delimited, mbind, result_mbind.
      cbn [payload_ok] in Hp. rewrite decode_varint_encode by lia. cbn [result_bind].
      rewrite length_take.
      destruct (Z.ltb_spec (Z.of_nat (Nat.min (k - length (encode_varint (Z.of_nat (length b)))) (length b)))
                 (Z.of_nat (length b))); [reflexivity|lia].
  - rewrite decode_fixed_short by (rewrite length_take, length_encode_fixed in *; lia). reflexivity.
Qed.

(** A strict, non-empty prefix of a record is reported as truncated. *)
Lemma read_record_prefix (number : Z) (p : Payload) (k : nat) :
  (1 <= number < 2 ^ 29) -> payload_ok p -> (k < length (encode_record number p))%nat ->
  read_record (take k (encode_record number p)) = Err Truncated.
Proof.
  intros Hn Hp Hk. unfold read_record, encode_record in *. rewrite length_app in Hk.
  destruct (Nat.lt_ge_cases k (length (encode_key number (payload_wire_type p)))) as [Hlt|Hge].
  - rewrite take_app_le by lia. unfold mbind, result_mbind at 1.
    rewrite decode_key_prefix by exact Hlt. reflexivity.
  - rewrite take_app_ge by exact Hge. unfold mbind, result_mbind at 1.
    rewrite decode_key_encode by exact Hn. cbn [result_bind].
    unfold mbind, result_mbind. rewrite read_payload_prefix by (try exact Hp; lia). reflexivity.
Qed.

Lemma decode_scalar_mismatch (k : Kind) (n : Z) (p : Payload) :
  payload_wire_type p <> kind_wire_type k -> decode_scalar k n p = Err (WireTypeMismatch n).
Proof.
  intros H. destruct k; destruct p; cbn [payload_wire_type kind_wire_type] in H;
    first [reflexivity | exfalso; apply H; reflexivity].
Qed.

(** A record whose wire type does not fit its declared field's kind (a
    length-delimited record being accepted by a repeated field as packed)
    is rejected. *)
Lemma merge_record_mismatch (dec : DynamicMessage -> list Z -> result DecodeError DynamicMessage)
    (pool : Pool) (r : WireRecord) (m : DynamicMessage) (md : MessageDescriptor) (fd : FieldDescriptor) :
  get_message pool (dm_desc m) = Some md -> find_field md (wr_number r) = Some fd ->
  payload_wire_type (wr_payload r) <> kind_wire_type (fd_kind fd) ->
  (fd_cardinality fd = Repeated -> forall b, wr_payload r <> PLengthDelimited b) ->
  merge_record dec pool r m = Err (WireTypeMismatch (wr_number r)).
Proof.
  destruct m as [d fields unknown]. cbn [dm_desc]. intros Hmd Hf H1 H2.
  unfold merge_record. rewrite Hmd, Hf. cbv zeta.
  destruct (is_map pool fd) eqn:Em.
  - destruct (map_entry_kinds pool fd) as [[[eid kk] vk]|]; destruct (wr_payload r) eqn:Ep; try reflexivity.
    unfold is_map in Em. destruct (fd_cardinality fd); try discriminate.
    exfalso. eapply H2; reflexivity.
  - destruct (fd_cardinality fd); destruct (fd_kind fd); destruct (wr_payload r);
      first [reflexivity | exfalso; apply H1; reflexivity | exfalso; eapply H2; reflexivity].
Qed.

Lemma merge_loop_read_err (fuel : nat) (pool : Pool) (bytes : list Z) (m : DynamicMessage) (e : DecodeError) :
  read_record bytes = Err e -> bytes <> [] -> (0 < fuel)%nat -> merge_loop fuel pool bytes m = Err e.
Proof.
  intros Hr Hne Hf. destruct fuel as [|f]; [lia|]. destruct bytes as [|b bs]; [congruence|].
  cbn [merge_loop]. rewrite Hr. reflexivity.
Qed.

(** Decoding a concatenation fails with the error of the second part,
    whatever the first part decoded to. *)
Lemma decode_app_err (pool : Pool) (d : nat) (b0 b1 : list Z) (m0 : DynamicMessage) (e : DecodeError) :
  DynamicMessage_decode pool d b0 = Ok m0 -> DynamicMessage_merge pool m0 b1 = Err e ->
  DynamicMessage_decode pool d (b0 ++ b1) = Err e.
Proof.
  intros H0 H1. rewrite decode_as_merge in H0 |- *. unfold DynamicMessage_merge in H1.
  rewrite (merge_loop_fuel (length b0) (length (b0 ++ b1))) in H0 by (rewrite ?length_app; lia).
  rewrite (merge_loop_app _ pool b0 b1 _ m0 H0) by lia.
  rewrite (merge_loop_fuel _ (length b1)) by (rewrite ?length_app; lia). exact H1.
Qed.

(** C7: decoding is all or nothing.  Its result is either the whole message
    or a decode error alone: when the input continues, after bytes that
    decode to a message, with bytes whose merge fails, the decode returns
    that error and not the message built so far.  The error is [Truncated]
    for a strict non-empty prefix of a record, [InvalidVarint] for a key of
    ten bytes all with the continuation bit set, and
    [WireTypeMismatch number] for a record of a declared field whose wire
    type does not fit the field's kind (a length-delimited record for a
    repeated field being taken as packed). *)
Theorem decode_all_or_nothing (pool : Pool) (d : nat) (md : MessageDescriptor) :
  get_message pool d = Some md ->
  (forall b0 b1 m0 e, DynamicMessage_decode pool d b0 = Ok m0 ->
     DynamicMessage_merge pool m0 b1 = Err e -> DynamicMessage_decode pool d (b0 ++ b1) = Err e) /\
  (forall b0 m0 number p k, DynamicMessage_decode pool d b0 = Ok m0 ->
     1 <= number < 2 ^ 29 -> payload_ok p -> (0 < k < length (encode_record number p))%nat ->
     DynamicMessage_decode pool d (b0 ++ take k (encode_record number p)) = Err Truncated) /\
  (forall b0 m0 c rest, DynamicMessage_decode pool d b0 = Ok m0 ->
     Forall (fun b => 128 <= b) c -> length c = 10%nat ->
     DynamicMessage_decode pool d (b0 ++ c ++ rest) = Err InvalidVarint) /\
  (forall b0 m0 number p fd rest, DynamicMessage_decode pool d b0 = Ok m0 ->
     find_field md number = Some fd -> 1 <= number < 2 ^ 29 -> payload_ok p ->
     payload_wire_type p <> kind_wire_type (fd_kind fd) ->
     (fd_cardinality fd = Repeated -> forall b, p <> PLengthDelimited b) ->
     DynamicMessage_decode pool d (b0 ++ encode_record number p ++ rest) = Err (WireTypeMismatch number)).
Proof.
  intros Hmd. split; [|split; [|split]].
  - exact (decode_app_err pool d).
  - intros b0 m0 number p k H0 Hn Hp Hk. apply (decode_app_err pool d b0 _ m0 Truncated H0).
    unfold DynamicMessage_merge. rewrite length_take.
    apply merge_loop_read_err; [apply read_record_prefix; auto; lia| |lia].
    destruct (encode_record number p) as [|x xs] eqn:E; [simpl in Hk; lia|].
    destruct k as [|k]; [lia|]. discriminate.
  - intros b0 m0 c rest H0 Hc Hl. apply (decode_app_err pool d b0 _ m0 InvalidVarint H0).
    unfold DynamicMessage_merge. apply merge_loop_read_err.
    + unfold read_record, decode_key, decode_varint, mbind, result_mbind.
      rewrite decode_varint_aux_cont_invalid by assumption. reflexivity.
    + destruct c; [discriminate|discriminate].
    + rewrite length_app. lia.
  - intros b0 m0 number p fd rest H0 Hf Hn Hp H1 H2.
    apply (decode_app_err pool d b0 _ m0 _ H0).
    destruct (decode_unknowns_captured pool d md b0 m0 Hmd H0) as [Hd _].
    unfold DynamicMessage_merge.
    destruct (encode_record number p ++ rest) as [|x xs] eqn:E.
    { pose proof (encode_record_nonempty number p). destruct (encode_record number p); [congruence|discriminate]. }
    rewrite <- E. rewrite length_app.
    destruct (length (encode_record number p) + length rest)%nat as [|f] eqn:Ef.
    { pose proof (encode_record_nonempty number p). destruct (encode_record number p); [congruence|discriminate]. }
    rewrite E. cbn [merge_loop]. rewrite <- E, read_record_encode by assumption.
    unfold mbind, result_mbind. cbn [result_bind].
    rewrite (merge_record_mismatch _ pool _ m0 md fd) by (cbn [wr_number wr_payload]; try congruence; assumption).
    reflexivity.
Qed.

Lemma decode_all_or_nothing_witness :
  DynamicMessage_decode example_codec_pool 0 ([8; 1] ++ take 3 (encode_record 2 (PLengthDelimited [104; 105])))
    = Err Truncated /\
  DynamicMessage_decode example_codec_pool 0 ([8; 1] ++ repeat 255 10 ++ []) = Err InvalidVarint /\
  DynamicMessage_decode example_codec_pool 0 ([8; 1] ++ encode_record 1 (PLengthDelimited [104]) ++ [])
    = Err (WireTypeMismatch 1).
Proof.
  destruct (decode_all_or_nothing example_codec_pool 0 example_msg eq_refl) as (_ & Ht & Hv & Hw).
  split; [|split].
  - apply (Ht [8; 1] (MkDynamicMessage 0 [(1, VI32 1)] []) 2 (PLengthDelimited [104; 105]) 3%nat);
      [vm_compute; reflexivity|lia|cbn [payload_ok length]; lia|vm_compute; lia].
  - apply (Hv [8; 1] (MkDynamicMessage 0 [(1, VI32 1)] []) (repeat 255 10) []);
      [vm_compute; reflexivity|repeat constructor; lia|reflexivity].
  - apply (Hw [8; 1] (MkDynamicMessage 0 [(1, VI32 1)] []) 1 (PLengthDelimited [104])
             (example_field 1 "a" KInt32 Singular None) []);
      [vm_compute; reflexivity|vm_compute; reflexivity|lia|cbn [payload_ok length]; lia|discriminate|discriminate].
Defined.

(** * Further properties of service.rs *)

Section ServiceExtras.
Local Open Scope nat_scope.

Lemma ServiceDescriptor_eqb_inner (I : Type) (B : Borrow I) (h : heap) (a b : ServiceDescriptor I) :
  ServiceDescriptor_eqb a b = true -> ServiceDescriptor_inner h a = ServiceDescriptor_inner h b.
Proof.
  intros Heq. apply ServiceDescriptor_eqb_spec in Heq as [Hl Hi].
  unfold ServiceDescriptor_inner, ServiceDescriptor_parent_file, file_inner. rewrite Hl, Hi. reflexivity.
Qed.

Lemma MethodDescriptor_eqb_inner (I : Type) (B : Borrow I) (h : heap) (a b : MethodDescriptor I) :
  MethodDescriptor_eqb a b = true -> MethodDescriptor_inner h a = MethodDescriptor_inner h b.
Proof.
  intros Heq. unfold MethodDescriptor_eqb in Heq. apply andb_true_iff in Heq as [Hs Hi].
  apply Nat.eqb_eq in Hi. unfold MethodDescriptor_inner.
  rewrite (ServiceDescriptor_eqb_inner I B h _ _ Hs), Hi. reflexivity.
Qed.

(** [PartialEq] for service and method handles is reflexive, symmetric and
    transitive, as the [Eq] implementations promise. *)
Theorem handle_equality_equivalence (I : Type) (B : Borrow I) :
  Equivalence (fun a b : ServiceDescriptor I => ServiceDescriptor_eqb a b = true) /\
  Equivalence (fun a b : MethodDescriptor I => MethodDescriptor_eqb a b = true).
Proof.
  split; constructor.
  - intros a. apply ServiceDescriptor_eqb_spec. split; reflexivity.
  - intros a b Hab. apply ServiceDescriptor_eqb_spec in Hab as [? ?].
    apply ServiceDescriptor_eqb_spec. split; congruence.
  - intros a b c Hab Hbc. apply ServiceDescriptor_eqb_spec in Hab as [? ?].
    apply ServiceDescriptor_eqb_spec in Hbc as [? ?]. apply ServiceDescriptor_eqb_spec. split; congruence.
  - intros a. apply MethodDescriptor_eqb_spec. repeat split; reflexivity.
  - intros a b Hab. apply MethodDescriptor_eqb_spec in Hab as (? & ? & ?).
    apply MethodDescriptor_eqb_spec. repeat split; congruence.
  - intros a b c Hab Hbc. apply MethodDescriptor_eqb_spec in Hab as (? & ? & ?).
    apply MethodDescriptor_eqb_spec in Hbc as (? & ? & ?). apply MethodDescriptor_eqb_spec.
    repeat split; congruence.
Qed.

(** Comparing borrowed handles gives the same answer as comparing the
    handles they were borrowed from. *)
Theorem borrow_preserves_equality (I : Type) (B : Borrow I) :
  (forall a b : ServiceDescriptor I,
     ServiceDescriptor_eqb (ServiceDescriptor_borrow a) (ServiceDescriptor_borrow b) = ServiceDescriptor_eqb a b) /\
  (forall a b : MethodDescriptor I,
     MethodDescriptor_eqb (MethodDescriptor_borrow a) (MethodDescriptor_borrow b) = MethodDescriptor_eqb a b).
Proof. split; intros a b; reflexivity. Qed.

(** Equal handles are indistinguishable through their accessors: they read
    the same service or method of the same file state. *)
Theorem equal_handles_agree (I : Type) (B : Borrow I) (h : heap) :
  (forall a b : ServiceDescriptor I, ServiceDescriptor_eqb a b = true ->
     ServiceDescriptor_full_name h a = ServiceDescriptor_full_name h b /\
     ServiceDescriptor_name h a = ServiceDescriptor_name h b /\
     ServiceDescriptor_package_name h a = ServiceDescriptor_package_name h b /\
     MethodIter_len <$> ServiceDescriptor_methods h a = MethodIter_len <$> ServiceDescriptor_methods h b) /\
  (forall a b : MethodDescriptor I, MethodDescriptor_eqb a b = true ->
     MethodDescriptor_full_name h a = MethodDescriptor_full_name h b /\
     MethodDescriptor_name h a = MethodDescriptor_name h b /\
     snd <$> MethodDescriptor_input h a = snd <$> MethodDescriptor_input h b /\
     snd <$> MethodDescriptor_output h a = snd <$> MethodDescriptor_output h b /\
     MethodDescriptor_is_client_streaming h a = MethodDescriptor_is_client_streaming h b /\
     MethodDescriptor_is_server_streaming h a = MethodDescriptor_is_server_streaming h b).
Proof.
  split.
  - intros a b Hab. pose proof (ServiceDescriptor_eqb_inner I B h a b Hab) as Hi.
    unfold ServiceDescriptor_name, ServiceDescriptor_package_name, ServiceDescriptor_full_name,
      ServiceDescriptor_methods.
    rewrite Hi. repeat split. destruct (ServiceDescriptor_inner h b); reflexivity.
  - intros a b Hab. pose proof (MethodDescriptor_eqb_inner I B h a b Hab) as Hi.
    unfold MethodDescriptor_name, MethodDescriptor_full_name, MethodDescriptor_input, MethodDescriptor_output,
      MethodDescriptor_is_client_streaming, MethodDescriptor_is_server_streaming.
    rewrite Hi. repeat split; destruct (MethodDescriptor_inner h b); reflexivity.
Qed.

Lemma equal_handles_agree_witness :
  ServiceDescriptor_eqb example_service0 (MkServiceDescriptor (MkFileDescriptor (MkArc 1%positive)) 0) = true /\
  ServiceDescriptor_full_name example_heap example_service0 =
    ServiceDescriptor_full_name example_heap (MkServiceDescriptor (MkFileDescriptor (MkArc 1%positive)) 0).
Proof.
  split; [reflexivity|].
  exact (proj1 (proj1 (equal_handles_agree Arc _ example_heap) example_service0
    (MkServiceDescriptor (MkFileDescriptor (MkArc 1%positive)) 0) eq_refl)).
Defined.


(** With debug assertions enabled, [ServiceDescriptor::new] accepts exactly
    the indices below the file's service count; the handle it returns reads
    the service at that index, without panicking, and is the handle a
    release build returns.  [MethodDescriptor::new] likewise accepts exactly
    the indices below the service's method count, and with debug assertions
    it panics for every index when the service handle itself is out of
    range. *)
Theorem in_range_handles_never_panic (I : Type) (B : Borrow I) (h : heap) :
  (forall (f : FileDescriptor I) (fi : FileDescriptorInner) (index : nat),
     file_inner h f = Some fi ->
     ((exists s, ServiceDescriptor_new true h f index = Some s) <-> index < length (fdi_services fi))) /\
  (forall (f : FileDescriptor I) (fi : FileDescriptorInner) (index : nat) (si : ServiceDescriptorInner),
     file_inner h f = Some fi -> fdi_services fi !! index = Some si ->
     exists s, ServiceDescriptor_new true h f index = Some s /\
       ServiceDescriptor_new false h f index = Some s /\
       ServiceDescriptor_full_name h s = Some (sdi_full_name si) /\
       ServiceDescriptor_name h s = Some (parse_name (sdi_full_name si)) /\
       ServiceDescriptor_package_name h s = Some (parse_namespace (sdi_full_name si)) /\
       MethodIter_len <$> ServiceDescriptor_methods h s = Some (length (sdi_methods si))) /\
  (forall (s : ServiceDescriptor I) (si : ServiceDescriptorInner) (index : nat),
     ServiceDescriptor_inner h s = Some si ->
     ((exists m, MethodDescriptor_new true h s index = Some m) <-> index < length (sdi_methods si))) /\
  (forall (s : ServiceDescriptor I) (si : ServiceDescriptorInner) (index : nat) (mi : MethodDescriptorInner),
     ServiceDescriptor_inner h s = Some si -> sdi_methods si !! index = Some mi ->
     exists m, MethodDescriptor_new true h s index = Some m /\
       MethodDescriptor_new false h s index = Some m /\
       MethodDescriptor_full_name h m = Some (mdi_full_name mi) /\
       MethodDescriptor_name h m = Some (parse_name (mdi_full_name mi)) /\
       MethodDescriptor_input h m = Some (ServiceDescriptor_parent_file s, request_ty mi) /\
       MethodDescriptor_output h m = Some (ServiceDescriptor_parent_file s, response_ty mi) /\
       MethodDescriptor_is_client_streaming h m = Some (client_streaming mi) /\
       MethodDescriptor_is_server_streaming h m = Some (server_streaming mi)) /\
  (forall (s : ServiceDescriptor I) (index : nat),
     ServiceDescriptor_inner h s = None -> MethodDescriptor_new true h s index = None).
Proof.
  split; [|split; [|split; [|split]]].
  - intros f fi index Hf. unfold ServiceDescriptor_new, file_services_len. rewrite Hf. cbn -[Nat.ltb].
    destruct (Nat.ltb_spec index (length (fdi_services fi))).
    + split; [intros _; lia|eauto].
    + split; [intros [s Hs]; discriminate|lia].
  - intros f fi index si Hf Hsi.
    assert (Hlt : index < length (fdi_services fi)) by (apply lookup_lt_is_Some; eauto).
    exists (MkServiceDescriptor f index).
    assert (Hin : ServiceDescriptor_inner h (MkServiceDescriptor f index) = Some si).
    { unfold ServiceDescriptor_inner, ServiceDescriptor_parent_file. cbn. rewrite Hf. exact Hsi. }
    unfold ServiceDescriptor_new, file_services_len. rewrite Hf. cbn -[Nat.ltb].
    destruct (Nat.ltb_spec index (length (fdi_services fi))); [|lia].
    unfold ServiceDescriptor_name, ServiceDescriptor_package_name, ServiceDescriptor_full_name,
      ServiceDescriptor_methods.
    rewrite Hin. repeat split. cbn. unfold MethodIter_len. cbn. f_equal. lia.
  - intros s si index Hs. unfold MethodDescriptor_new, ServiceDescriptor_methods. rewrite Hs. cbn -[Nat.ltb].
    unfold MethodIter_len. cbn -[Nat.ltb]. rewrite Nat.sub_0_r.
    destruct (Nat.ltb_spec index (length (sdi_methods si))).
    + split; [intros _; lia|eauto].
    + split; [intros [m Hm]; discriminate|lia].
  - intros s si index mi Hs Hmi.
    assert (Hlt : index < length (sdi_methods si)) by (apply lookup_lt_is_Some; eauto).
    exists (MkMethodDescriptor s index).
    assert (Hin : MethodDescriptor_inner h (MkMethodDescriptor s index) = Some mi).
    { unfold MethodDescriptor_inner. cbn. rewrite Hs. exact Hmi. }
    unfold MethodDescriptor_new, ServiceDescriptor_methods. rewrite Hs. cbn -[Nat.ltb].
    unfold MethodIter_len. cbn -[Nat.ltb]. rewrite Nat.sub_0_r.
    destruct (Nat.ltb_spec index (length (sdi_methods si))); [|lia].
    unfold MethodDescriptor_name, MethodDescriptor_full_name, MethodDescriptor_input, MethodDescriptor_output,
      MethodDescriptor_is_client_streaming, MethodDescriptor_is_server_streaming.
    rewrite Hin. repeat split.
  - intros s index Hs. unfold MethodDescriptor_new, ServiceDescriptor_methods. rewrite Hs. reflexivity.
Qed.

Lemma in_range_handles_never_panic_witness :
  ServiceDescriptor_new true example_heap example_fd 1 = Some example_service1 /\
  MethodDescriptor_full_name example_heap (MkMethodDescriptor example_service1 0) = Some "a.b.Other.Ping" /\
  MethodDescriptor_new true example_heap (MkServiceDescriptor example_fd 2) 0 = None.
Proof.
  destruct (in_range_handles_never_panic Arc _ example_heap) as (_ & Hs & _ & Hm & Hout).
  split; [|split].
  - destruct (Hs example_fd example_file 1 (nth 1 (fdi_services example_file) example_greeter)
               eq_refl eq_refl) as (s & Hs1 & Hs2 & _).
    rewrite Hs1. f_equal. cbn in Hs2. injection Hs2 as <-. reflexivity.
  - destruct (Hm example_service1 (nth 1 (fdi_services example_file) example_greeter) 0
               (example_method "a.b.Other.Ping" 0 0) eq_refl eq_refl) as (m & Hm1 & Hm2 & Hfn & _).
    cbn in Hm2. injection Hm2 as <-. exact Hfn.
  - apply Hout. reflexivity.
Defined.

(** The handles [methods()] yields are pairwise unequal, and each one is
    equal to the handle [MethodDescriptor::new] returns for its position. *)
Theorem methods_pairwise_distinct (I : Type) (B : Borrow I) (h : heap)
    (s : ServiceDescriptor I) (si : ServiceDescriptorInner) :
  ServiceDescriptor_inner h s = Some si ->
  exists it, ServiceDescriptor_methods h s = Some it /\
    (forall i j mi mj, MethodIter_to_list it !! i = Some mi -> MethodIter_to_list it !! j = Some mj ->
       (MethodDescriptor_eqb mi mj = true <-> i = j)) /\
    (forall k mk, MethodIter_to_list it !! k = Some mk ->
       exists m, MethodDescriptor_new true h s k = Some m /\ MethodDescriptor_eqb mk m = true).
Proof.
  intros Hs. exists (MkMethodIter s 0 (length (sdi_methods si))).
  split; [unfold ServiceDescriptor_methods; rewrite Hs; reflexivity|].
  assert (Hl : MethodIter_to_list (MkMethodIter s 0 (length (sdi_methods si))) =
               map (MkMethodDescriptor s) (seq 0 (length (sdi_methods si)))).
  { unfold MethodIter_to_list, MethodIter_len. cbn [mit_end mit_start].
    rewrite MethodIter_collect_range by lia. rewrite Nat.sub_0_r. reflexivity. }
  rewrite Hl.
  assert (Hnth : forall k mk, map (MkMethodDescriptor s) (seq 0 (length (sdi_methods si))) !! k = Some mk ->
                 mk = MkMethodDescriptor s k /\ k < length (sdi_methods si)).
  { intros k mk Hk. apply list_lookup_fmap_Some in Hk as (x & -> & Hx).
    apply lookup_seq in Hx as [-> Hx]. split; [reflexivity|lia]. }
  split.
  - intros i j mi mj Hi Hj. apply Hnth in Hi as [-> _]. apply Hnth in Hj as [-> _].
    rewrite MethodDescriptor_eqb_spec. cbn [md_service md_index]. split; [tauto|intros ->; tauto].
  - intros k mk Hk. apply Hnth in Hk as [-> Hk]. exists (MkMethodDescriptor s k).
    split.
    + unfold MethodDescriptor_new, ServiceDescriptor_methods. rewrite Hs. cbn -[Nat.ltb].
      unfold MethodIter_len. cbn -[Nat.ltb]. rewrite Nat.sub_0_r.
      destruct (Nat.ltb_spec k (length (sdi_methods si))); [reflexivity|lia].
    + apply MethodDescriptor_eqb_spec. tauto.
Qed.

Lemma methods_pairwise_distinct_witness :
  exists it, ServiceDescriptor_methods example_heap example_service0 = Some it /\
    (forall i j mi mj, MethodIter_to_list it !! i = Some mi -> MethodIter_to_list it !! j = Some mj ->
       (MethodDescriptor_eqb mi mj = true <-> i = j)) /\
    (forall k mk, MethodIter_to_list it !! k = Some mk ->
       exists m, MethodDescriptor_new true example_heap example_service0 k = Some m /\
                 MethodDescriptor_eqb mk m = true).
Proof. exact (methods_pairwise_distinct Arc _ example_heap example_service0 example_greeter eq_refl). Defined.

Lemma no_dot_rsplit_None (s : string) : no_dot s = true -> rsplit_once_dot s = None.
Proof.
  induction s as [|c s IH]; intros Hs; [reflexivity|]. cbn [no_dot] in Hs.
  apply andb_true_iff in Hs as [Hc Hs]. cbn [rsplit_once_dot]. rewrite IH by exact Hs.
  apply negb_true_iff in Hc. rewrite Hc. reflexivity.
Qed.

Lemma rsplit_once_dot_join (a b : string) :
  no_dot b = true -> rsplit_once_dot (a +:+ "." +:+ b) = Some (a, b).
Proof.
  intros Hb. induction a as [|c a IH].
  - change (rsplit_once_dot (String "." b) = Some ("", b)). cbn [rsplit_once_dot]. rewrite (no_dot_rsplit_None b Hb). reflexivity.
  - change (rsplit_once_dot (String c (a +:+ String "." b)) = Some (String c a, b)). cbn [rsplit_once_dot].
    change (a +:+ "." +:+ b) with (a +:+ String "." b) in IH. rewrite IH. reflexivity.
Qed.

(** [parse_name] and [parse_namespace] take a name made by [make_full_name]
    apart again when the local name has no separator. *)
Lemma parse_make_full_name (ns n : string) :
  no_dot n = true -> parse_name (make_full_name ns n) = n /\ parse_namespace (make_full_name ns n) = ns.
Proof.
  intros Hn. unfold make_full_name, parse_name, parse_namespace.
  destruct (String.eqb_spec ns "") as [->|Hne].
  - rewrite no_dot_rsplit_None by exact Hn. split; reflexivity.
  - rewrite rsplit_once_dot_join by exact Hn. split; reflexivity.
Qed.

Lemma MethodDescriptorInner_from_raw_Ok (namespace : string) raw_file raw_service raw_method (tm : TypeMap)
    (mi : MethodDescriptorInner) :
  MethodDescriptorInner_from_raw namespace raw_file raw_service raw_method tm = Ok mi ->
  mdi_full_name mi = make_full_name namespace (opt_str (mp_name raw_method)) /\
  client_streaming mi = opt_bool (mp_client_streaming raw_method) /\
  server_streaming mi = opt_bool (mp_server_streaming raw_method).
Proof.
  unfold MethodDescriptorInner_from_raw, mbind, result_mbind.
  destruct (resolve_type_name tm namespace _); [|discriminate]. cbn [result_bind].
  destruct (resolve_type_name tm namespace _); [|discriminate]. cbn [result_bind].
  intros E. injection E as <-. repeat split.
Qed.

Lemma MethodDescriptorInner_from_raw_resolves (namespace : string) raw_file raw_service raw_method (tm : TypeMap) :
  (exists mi, MethodDescriptorInner_from_raw namespace raw_file raw_service raw_method tm = Ok mi) <->
  (exists t1 t2, resolve_type_name tm namespace (opt_str (mp_input_type raw_method)) = Ok t1 /\
                 resolve_type_name tm namespace (opt_str (mp_output_type raw_method)) = Ok t2).
Proof.
  unfold MethodDescriptorInner_from_raw, mbind, result_mbind.
  destruct (resolve_type_name tm namespace (opt_str (mp_input_type raw_method))) as [t1|e1];
    cbn [result_bind];
    [destruct (resolve_type_name tm namespace (opt_str (mp_output_type raw_method))) as [t2|e2];
       cbn [result_bind]|].
  - split; [eauto|]. intros _. eexists; reflexivity.
  - split; [intros [mi E]; discriminate|intros (? & ? & _ & E); discriminate].
  - split; [intros [mi E]; discriminate|intros (? & ? & E & _); discriminate].
Qed.

Lemma collect_results_map_Ok_iff {E A B} (f : A -> result E B) (l : list A) :
  (exists out, collect_results (map f l) = Ok out) <-> Forall (fun x => exists y, f x = Ok y) l.
Proof.
  induction l as [|x l IH]; cbn [map collect_results].
  - split; [constructor|eauto].
  - unfold mbind, result_mbind at 1. rewrite Forall_cons.
    destruct (f x) as [y|e]; cbn [result_bind].
    + unfold mbind, result_mbind. destruct (collect_results (map f l)) as [out|e]; cbn [result_bind].
      * split; [intros _; split; [eauto|apply IH; eauto]|eauto].
      * split; [intros [out Hq]; discriminate|intros [_ Hl]; apply IH in Hl as [out Hq]; discriminate].
    + split; [intros [out Hq]; discriminate|intros [[y Hq] _]; discriminate].
Qed.

Lemma collect_results_map_first_Err {E A B} (f : A -> result E B) (pre post : list A) (x : A) (e : E) :
  Forall (fun x => exists y, f x = Ok y) pre -> f x = Err e ->
  collect_results (map f (pre ++ x :: post)) = Err e.
Proof.
  intros Hpre Hx. induction Hpre as [|p pre [y Hp] _ IH].
  - cbn [app map collect_results]. unfold mbind, result_mbind. rewrite Hx. reflexivity.
  - cbn [app map collect_results]. unfold mbind, result_mbind at 1. rewrite Hp. cbn [result_bind].
    unfold mbind, result_mbind in IH |- *. rewrite IH. reflexivity.
Qed.

Lemma from_raw_method (raw_file : FileDescriptorProto) (raw_service : ServiceDescriptorProto) (tm : TypeMap)
    (si : ServiceDescriptorInner) (k : nat) (raw_method : MethodDescriptorProto) :
  ServiceDescriptorInner_from_raw raw_file raw_service tm = Ok si ->
  sp_method raw_service !! k = Some raw_method ->
  sdi_full_name si = make_full_name (opt_str (fp_package raw_file)) (opt_str (sp_name raw_service)) /\
  exists mi, sdi_methods si !! k = Some mi /\
    MethodDescriptorInner_from_raw (sdi_full_name si) raw_file raw_service raw_method tm = Ok mi.
Proof.
  intros Hs Hk. unfold ServiceDescriptorInner_from_raw, mbind, result_mbind in Hs.
  destruct (collect_results _) as [methods|e] eqn:Hc; [|discriminate].
  cbn [result_bind] in Hs. injection Hs as <-. cbn [sdi_full_name sdi_methods]. split; [reflexivity|].
  destruct (collect_results_map_Ok _ _ _ Hc) as [Hlen Hall].
  destruct (lookup_lt_is_Some_2 methods k) as [mi Hmi].
  { rewrite Hlen. apply lookup_lt_is_Some. eauto. }
  exists mi. split; [exact Hmi|]. exact (Hall k raw_method mi Hk Hmi).
Qed.

(** A service built by [ServiceDescriptorInner::from_raw] has the full name
    [package.Service] (just [Service] without a package), each of its
    methods the full name [package.Service.method], and the streaming flags
    of the raw method, [false] where the raw method leaves them unset. *)
Theorem from_raw_full_names_and_flags (I : Type) (B : Borrow I) (h : heap)
    (raw_file : FileDescriptorProto) (raw_service : ServiceDescriptorProto) (tm : TypeMap)
    (si : ServiceDescriptorInner) (s : ServiceDescriptor I) :
  ServiceDescriptorInner_from_raw raw_file raw_service tm = Ok si ->
  ServiceDescriptor_inner h s = Some si ->
  ServiceDescriptor_full_name h s =
    Some (make_full_name (opt_str (fp_package raw_file)) (opt_str (sp_name raw_service))) /\
  (forall k raw_method, sp_method raw_service !! k = Some raw_method ->
     MethodDescriptor_full_name h (MkMethodDescriptor s k) =
       Some (make_full_name (make_full_name (opt_str (fp_package raw_file)) (opt_str (sp_name raw_service)))
                            (opt_str (mp_name raw_method))) /\
     MethodDescriptor_is_client_streaming h (MkMethodDescriptor s k) =
       Some (match mp_client_streaming raw_method with Some b => b | None => false end) /\
     MethodDescriptor_is_server_streaming h (MkMethodDescriptor s k) =
       Some (match mp_server_streaming raw_method with Some b => b | None => false end)).
Proof.
  intros Hs Hin. split.
  - unfold ServiceDescriptor_full_name. rewrite Hin. cbn.
    unfold ServiceDescriptorInner_from_raw, mbind, result_mbind in Hs.
    destruct (collect_results _); [|discriminate]. cbn [result_bind] in Hs. injection Hs as <-. reflexivity.
  - intros k raw_method Hk. destruct (from_raw_method _ _ _ _ _ _ Hs Hk) as [Hfn (mi & Hmi & Hm)].
    destruct (MethodDescriptorInner_from_raw_Ok _ _ _ _ _ _ Hm) as (Hn & Hc & Hsv).
    assert (Hinner : MethodDescriptor_inner h (MkMethodDescriptor s k) = Some mi).
    { unfold MethodDescriptor_inner. cbn. rewrite Hin. exact Hmi. }
    unfold MethodDescriptor_full_name, MethodDescriptor_is_client_streaming,
      MethodDescriptor_is_server_streaming.
    rewrite Hinner. cbn. rewrite Hn, Hc, Hsv, Hfn. repeat split.
Qed.

Lemma from_raw_full_names_and_flags_witness :
  ServiceDescriptorInner_from_raw example_raw_file example_raw_service example_type_map = Ok example_built_service /\
  MethodDescriptor_is_server_streaming example_built_heap (MkMethodDescriptor example_built_handle 1) = Some false.
Proof.
  split; [reflexivity|].
  exact (proj2 (proj2 (proj2 (from_raw_full_names_and_flags Arc _ example_built_heap example_raw_file
    example_raw_service example_type_map example_built_service example_built_handle eq_refl eq_refl)
    1 (example_raw_method "Bye" "Inner" "Outer" None) eq_refl))).
Defined.

(** When the service and method names have no separator, [name()] of the
    built service and of each built method gives back the raw name,
    [package_name()] gives back the file's package, and the namespace of a
    method's full name is the service's full name. *)
Theorem from_raw_names_roundtrip (I : Type) (B : Borrow I) (h : heap)
    (raw_file : FileDescriptorProto) (raw_service : ServiceDescriptorProto) (tm : TypeMap)
    (si : ServiceDescriptorInner) (s : ServiceDescriptor I) :
  ServiceDescriptorInner_from_raw raw_file raw_service tm = Ok si ->
  ServiceDescriptor_inner h s = Some si ->
  no_dot (opt_str (sp_name raw_service)) = true ->
  ServiceDescriptor_name h s = Some (opt_str (sp_name raw_service)) /\
  ServiceDescriptor_package_name h s = Some (opt_str (fp_package raw_file)) /\
  (forall k raw_method, sp_method raw_service !! k = Some raw_method ->
     no_dot (opt_str (mp_name raw_method)) = true ->
     MethodDescriptor_name h (MkMethodDescriptor s k) = Some (opt_str (mp_name raw_method)) /\
     parse_namespace <$> MethodDescriptor_full_name h (MkMethodDescriptor s k) =
       ServiceDescriptor_full_name h s).
Proof.
  intros Hs Hin Hsn. destruct (from_raw_full_names_and_flags I B h _ _ _ _ _ Hs Hin) as [Hfn Hms].
  destruct (parse_make_full_name (opt_str (fp_package raw_file)) _ Hsn) as [Hn Hp].
  split; [unfold ServiceDescriptor_name; rewrite Hfn; cbn; rewrite Hn; reflexivity|].
  split; [unfold ServiceDescriptor_package_name; rewrite Hfn; cbn; rewrite Hp; reflexivity|].
  intros k raw_method Hk Hmn. destruct (Hms k raw_method Hk) as [Hmfn _].
  destruct (parse_make_full_name
              (make_full_name (opt_str (fp_package raw_file)) (opt_str (sp_name raw_service))) _ Hmn)
    as [Hmn' Hmp].
  split; [unfold MethodDescriptor_name; rewrite Hmfn; cbn; rewrite Hmn'; reflexivity|].
  rewrite Hmfn, Hfn. cbn. rewrite Hmp. reflexivity.
Qed.

Lemma from_raw_names_roundtrip_witness :
  ServiceDescriptor_name example_built_heap example_built_handle = Some "Greeter" /\
  ServiceDescriptor_package_name example_built_heap example_built_handle = Some "a.b".
Proof.
  destruct (from_raw_names_roundtrip Arc _ example_built_heap example_raw_file example_raw_service
    example_type_map example_built_service example_built_handle ltac:(reflexivity) ltac:(reflexivity) ltac:(reflexivity)) as (Hn & Hp & _).
  split; [exact Hn|exact Hp].
Defined.

(** [ServiceDescriptorInner::from_raw] succeeds exactly when the input and
    output type of every method resolve from the service's full name; in
    particular a service without methods always builds. *)
Theorem from_raw_succeeds_iff_all_resolve (raw_file : FileDescriptorProto)
    (raw_service : ServiceDescriptorProto) (tm : TypeMap) :
  (exists si, ServiceDescriptorInner_from_raw raw_file raw_service tm = Ok si) <->
  Forall (fun raw_method =>
            exists t1 t2,
              resolve_type_name tm (make_full_name (opt_str (fp_package raw_file)) (opt_str (sp_name raw_service)))
                (opt_str (mp_input_type raw_method)) = Ok t1 /\
              resolve_type_name tm (make_full_name (opt_str (fp_package raw_file)) (opt_str (sp_name raw_service)))
                (opt_str (mp_output_type raw_method)) = Ok t2)
         (sp_method raw_service).
Proof.
  unfold ServiceDescriptorInner_from_raw. cbv zeta.
  set (full := make_full_name (opt_str (fp_package raw_file)) (opt_str (sp_name raw_service))).
  transitivity (exists out, collect_results
      (map (fun raw_method => MethodDescriptorInner_from_raw full raw_file raw_service raw_method tm)
           (sp_method raw_service)) = Ok out).
  - unfold mbind, result_mbind.
    destruct (collect_results _) as [out|e]; cbn [result_bind].
    + split; eauto.
    + split; [intros [si E]; discriminate|intros [out E]; discriminate].
  - rewrite collect_results_map_Ok_iff. apply Forall_iff. intros raw_method.
    apply MethodDescriptorInner_from_raw_resolves.
Qed.

(** When [ServiceDescriptorInner::from_raw] fails, it reports the error of
    the first method, in declaration order, whose types do not resolve; for
    that method the input type's error is reported before the output
    type's. *)
Theorem from_raw_first_error (raw_file : FileDescriptorProto) (raw_service : ServiceDescriptorProto)
    (tm : TypeMap) (pre post : list MethodDescriptorProto) (raw_method : MethodDescriptorProto)
    (e : DescriptorError) :
  let full := make_full_name (opt_str (fp_package raw_file)) (opt_str (sp_name raw_service)) in
  sp_method raw_service = pre ++ raw_method :: post ->
  Forall (fun m => exists t1 t2, resolve_type_name tm full (opt_str (mp_input_type m)) = Ok t1 /\
                                 resolve_type_name tm full (opt_str (mp_output_type m)) = Ok t2) pre ->
  (resolve_type_name tm full (opt_str (mp_input_type raw_method)) = Err e \/
   (exists t1, resolve_type_name tm full (opt_str (mp_input_type raw_method)) = Ok t1 /\
               resolve_type_name tm full (opt_str (mp_output_type raw_method)) = Err e)) ->
  ServiceDescriptorInner_from_raw raw_file raw_service tm = Err e.
Proof.
  intros full Hm Hpre Hx. unfold ServiceDescriptorInner_from_raw. cbv zeta. fold full.
  rewrite Hm. unfold mbind, result_mbind at 1.
  rewrite collect_results_map_first_Err with (e := e).
  - reflexivity.
  - eapply Forall_impl; [exact Hpre|]. intros m Hr. cbv beta in Hr.
    exact (proj2 (MethodDescriptorInner_from_raw_resolves _ _ _ _ _) Hr).
  - unfold MethodDescriptorInner_from_raw, mbind, result_mbind.
    destruct Hx as [Hi | (t1 & Hi & Ho)]; rewrite Hi; cbn [result_bind]; [reflexivity|].
    rewrite Ho. reflexivity.
Qed.

Lemma from_raw_first_error_witness :
  ServiceDescriptorInner_from_raw example_raw_file example_bad_raw_service example_type_map =
    Err (TypeNotFound "Missing").
Proof.
  apply (from_raw_first_error example_raw_file example_bad_raw_service example_type_map
    [example_raw_method "Hello" ".a.b.Outer" "Outer.Inner" (Some true)]
    [example_raw_method "Ping" "Absent" "Outer" None]
    (example_raw_method "Bye" "Missing" "Gone" None)).
  - reflexivity.
  - repeat constructor. do 2 eexists. split; reflexivity.
  - left. reflexivity.
Defined.

End ServiceExtras.
